(** * leveldb-viewer: the pager, the value renderer and the single-entry export

    A shallow embedding of [main.go].  Go strings and byte slices are byte
    sequences ([bytes]); runes are integers; the package-level variables of
    the program are the fields of [Session]; the LevelDB handle, its iterator
    and the file system are explicit values threaded through the functions
    that use them. *)

From Stdlib Require Import List Ascii String ZArith NArith Lia Bool Sorted Arith
  DecimalString.
Import ListNotations.

Set Implicit Arguments.

(** ** Bytes and runes *)

Definition bytes := list ascii.
Definition rune := Z.

(** A string literal as a Go byte sequence. *)
Definition str (s : string) : bytes := list_ascii_of_string s.

Definition b2z (a : ascii) : Z := Z.of_N (N_of_ascii a).

(** Go's conversion [byte(x)]: the low eight bits. *)
Definition z2b (z : Z) : ascii := ascii_of_N (Z.to_N (Z.land z 255)).

Definition bytes_eqb (a b : bytes) : bool :=
  if list_eq_dec ascii_dec a b then true else false.

(** [bytes.Compare], the order of LevelDB's default comparer. *)
Fixpoint bytes_Compare (a b : bytes) : comparison :=
  match a, b with
  | [], [] => Eq
  | [], _ :: _ => Lt
  | _ :: _, [] => Gt
  | x :: a', y :: b' =>
      match (b2z x ?= b2z y)%Z with
      | Eq => bytes_Compare a' b'
      | c => c
      end
  end.

Definition key_lt (a b : bytes) : Prop := bytes_Compare a b = Lt.

(** ** Package [unicode/utf8] *)

Module utf8.
Local Open Scope Z_scope.

Definition RuneError : rune := 65533.
Definition RuneSelf : Z := 128.
Definition MaxRune : rune := 1114111.
Definition surrogateMin : Z := 55296.
Definition surrogateMax : Z := 57343.
Definition rune1Max : Z := 127.
Definition rune2Max : Z := 2047.
Definition rune3Max : Z := 65535.

Definition tx : Z := 128.
Definition t2 : Z := 192.
Definition t3 : Z := 224.
Definition t4 : Z := 240.
Definition maskx : Z := 63.
Definition mask2 : Z := 31.
Definition mask3 : Z := 15.
Definition mask4 : Z := 7.
Definition locb : Z := 128.
Definition hicb : Z := 191.

(** The information of the table [first] for a lead byte: the entries [as]
    (ASCII) and [xx] (invalid), and for the others the size of the encoding
    with the accepted range of the second byte. *)
Inductive lead := LeadASCII | LeadInvalid | LeadMulti (sz : nat) (lo hi : Z).

Definition first (p0 : Z) : lead :=
  if p0 <? 128 then LeadASCII
  else if p0 <? 194 then LeadInvalid
  else if p0 <? 224 then LeadMulti 2 locb hicb
  else if p0 =? 224 then LeadMulti 3 160 hicb
  else if p0 <? 237 then LeadMulti 3 locb hicb
  else if p0 =? 237 then LeadMulti 3 locb 159
  else if p0 <? 240 then LeadMulti 3 locb hicb
  else if p0 =? 240 then LeadMulti 4 144 hicb
  else if p0 <? 244 then LeadMulti 4 locb hicb
  else if p0 =? 244 then LeadMulti 4 locb 143
  else LeadInvalid.

(** [utf8.DecodeRune]: the first rune of [p] and its width in bytes. *)
Definition DecodeRune (p : bytes) : rune * nat :=
  match p with
  | [] => (RuneError, 0%nat)
  | c0 :: p1 =>
      let p0 := b2z c0 in
      match first p0 with
      | LeadASCII => (p0, 1%nat)
      | LeadInvalid => (RuneError, 1%nat)
      | LeadMulti sz lo hi =>
          if (List.length p <? sz)%nat then (RuneError, 1%nat) else
          match p1 with
          | [] => (RuneError, 1%nat)
          | c1 :: p2 =>
              let b1 := b2z c1 in
              if (b1 <? lo) || (hi <? b1) then (RuneError, 1%nat) else
              if (sz <=? 2)%nat then
                (Z.lor (Z.shiftl (Z.land p0 mask2) 6) (Z.land b1 maskx), 2%nat)
              else
              match p2 with
              | [] => (RuneError, 1%nat)
              | c2 :: p3 =>
                  let b2 := b2z c2 in
                  if (b2 <? locb) || (hicb <? b2) then (RuneError, 1%nat) else
                  if (sz <=? 3)%nat then
                    (Z.lor (Z.lor (Z.shiftl (Z.land p0 mask3) 12)
                                  (Z.shiftl (Z.land b1 maskx) 6))
                           (Z.land b2 maskx), 3%nat)
                  else
                  match p3 with
                  | [] => (RuneError, 1%nat)
                  | c3 :: _ =>
                      let b3 := b2z c3 in
                      if (b3 <? locb) || (hicb <? b3) then (RuneError, 1%nat) else
                      (Z.lor (Z.lor (Z.lor (Z.shiftl (Z.land p0 mask4) 18)
                                           (Z.shiftl (Z.land b1 maskx) 12))
                                    (Z.shiftl (Z.land b2 maskx) 6))
                             (Z.land b3 maskx), 4%nat)
                  end
              end
          end
      end
  end.

(** [utf8.AppendRune] applied to an empty slice: the encoding of [r]. *)
Definition EncodeRune (r : rune) : bytes :=
  if (0 <=? r) && (r <=? rune1Max) then [z2b r]
  else if (0 <=? r) && (r <=? rune2Max) then
    [z2b (Z.lor t2 (Z.shiftr r 6)); z2b (Z.lor tx (Z.land r maskx))]
  else
    let three (r : rune) :=
      [z2b (Z.lor t3 (Z.shiftr r 12));
       z2b (Z.lor tx (Z.land (Z.shiftr r 6) maskx));
       z2b (Z.lor tx (Z.land r maskx))] in
    if (r <? 0) || (MaxRune <? r) || ((surrogateMin <=? r) && (r <=? surrogateMax))
    then three RuneError
    else if r <=? rune3Max then three r
    else
      [z2b (Z.lor t4 (Z.shiftr r 18));
       z2b (Z.lor tx (Z.land (Z.shiftr r 12) maskx));
       z2b (Z.lor tx (Z.land (Z.shiftr r 6) maskx));
       z2b (Z.lor tx (Z.land r maskx))].

(** The runes a [for _, c := range s] loop yields, with their widths.
    A byte that starts no valid encoding yields [RuneError] with width 1. *)
Fixpoint runes_fuel (fuel : nat) (s : bytes) : list rune :=
  match fuel with
  | O => []
  | S fuel' =>
      match s with
      | [] => []
      | _ :: _ =>
          let (r, size) := DecodeRune s in
          r :: runes_fuel fuel' (skipn size s)
      end
  end.

Definition runes (s : bytes) : list rune := runes_fuel (List.length s) s.

End utf8.

(** ** Package [unicode] *)

Module unicode.
Local Open Scope Z_scope.

Definition MaxLatin1 : rune := 255.

(** [unicode.IsControl]: the entries of [properties] that carry [pC] are
    U+0000..U+001F and U+007F..U+009F. *)
Definition IsControl (r : rune) : bool :=
  if (0 <=? r) && (r <=? MaxLatin1) then
    (r <=? 31) || ((127 <=? r) && (r <=? 159))
  else false.

End unicode.

(** The case tables of package [unicode] are not part of the program; the
    simple lower-case mapping of a rune is taken as given. *)
Class UnicodeTables := { unicode_ToLower : rune -> rune }.

(** ** Package [strings] *)

Module strings.
Local Open Scope Z_scope.

Fixpoint HasPrefix (s prefix : bytes) : bool :=
  match prefix, s with
  | [], _ => true
  | _ :: _, [] => false
  | p :: prefix', c :: s' => Ascii.eqb c p && HasPrefix s' prefix'
  end.

(** [strings.Contains]: [substr] occurs at some offset of [s]. *)
Fixpoint Contains (s substr : bytes) : bool :=
  HasPrefix s substr ||
  match s with
  | [] => false
  | _ :: s' => Contains s' substr
  end.

Definition emit (r : rune) : bytes :=
  if 0 <=? r then utf8.EncodeRune r else [].

(** The second loop of [strings.Map]: every rune is mapped and written. *)
Definition Map_tail (mapping : rune -> rune) (s : bytes) : bytes :=
  flat_map (fun c => emit (mapping c)) (utf8.runes s).

(** The first loop of [strings.Map]: runes the mapping leaves unchanged are
    kept as their original bytes, up to the first rune that changes (or the
    first invalid byte), from where [Map_tail] takes over. *)
Fixpoint Map_scan (fuel : nat) (mapping : rune -> rune) (s : bytes) : bytes :=
  match fuel with
  | O => []
  | S fuel' =>
      match s with
      | [] => []
      | _ :: _ =>
          let (c, width) := utf8.DecodeRune s in
          let r := mapping c in
          if (r =? c) && (negb (c =? utf8.RuneError) || negb (width =? 1)%nat)
          then firstn width s ++ Map_scan fuel' mapping (skipn width s)
          else emit r ++ Map_tail mapping (skipn width s)
      end
  end.

Definition Map (mapping : rune -> rune) (s : bytes) : bytes :=
  Map_scan (List.length s) mapping s.

Definition isUpperASCII (c : ascii) : bool :=
  (65 <=? b2z c) && (b2z c <=? 90).

(** [strings.ToLower]: ASCII-only strings are lowered byte by byte, any
    other string rune by rune through [unicode.ToLower]. *)
Definition ToLower `{UnicodeTables} (s : bytes) : bytes :=
  let isASCII := forallb (fun c => b2z c <? utf8.RuneSelf) s in
  let hasUpper := existsb isUpperASCII s in
  if isASCII then
    if negb hasUpper then s
    else map (fun c => if isUpperASCII c then z2b (b2z c + 32) else c) s
  else Map unicode_ToLower s.

End strings.

(** ** The store: package [leveldb] and its iterator *)

Definition error := bytes.

Module leveldb.

(** A database snapshot: the entries in key order.  [unreadable = Some n]
    stands for a damaged table: positioning an iterator on the entry of index
    [n] or beyond fails with an iterator error. *)
Record DB := {
  entries : list (bytes * bytes);
  unreadable : option nat
}.

Definition keys (db : DB) : list bytes := map fst (entries db).

Definition ErrNotFound : error := str "leveldb: not found".
Definition ErrCorrupted : error := str "leveldb: corruption".

Definition readable (db : DB) (i : nat) : bool :=
  match unreadable db with
  | None => true
  | Some n => i <? n
  end.

Fixpoint lookup (key : bytes) (es : list (bytes * bytes)) (i : nat)
  : option (nat * bytes) :=
  match es with
  | [] => None
  | (k, v) :: es' =>
      if bytes_eqb k key then Some (i, v) else lookup key es' (S i)
  end.

(** [db.Get(key, nil)] *)
Definition Get (db : DB) (key : bytes) : bytes + error :=
  match lookup key (entries db) 0 with
  | None => inr ErrNotFound
  | Some (i, v) => if readable db i then inl v else inr ErrCorrupted
  end.

Inductive dir := dirSOI | dirEOI | dirForward.

Record Iterator := {
  it_db : DB;
  it_dir : dir;
  it_pos : nat;
  it_err : option error
}.

(** [db.NewIterator(nil, nil)]: the full key range, before the first entry. *)
Definition NewIterator (db : DB) : Iterator :=
  {| it_db := db; it_dir := dirSOI; it_pos := 0; it_err := None |}.

(** Position the iterator on the entry of index [i]. *)
Definition move_to (it : Iterator) (i : nat) : bool * Iterator :=
  if i <? List.length (entries (it_db it)) then
    if readable (it_db it) i then
      (true, {| it_db := it_db it; it_dir := dirForward; it_pos := i;
                it_err := None |})
    else
      (false, {| it_db := it_db it; it_dir := dirEOI; it_pos := i;
                 it_err := Some ErrCorrupted |})
  else
    (false, {| it_db := it_db it; it_dir := dirEOI; it_pos := i;
               it_err := None |}).

Definition Next (it : Iterator) : bool * Iterator :=
  match it_err it with
  | Some _ => (false, it)
  | None =>
      match it_dir it with
      | dirEOI => (false, it)
      | dirSOI => move_to it 0
      | dirForward => move_to it (S (it_pos it))
      end
  end.

(** Index of the first key that is not below [key]. *)
Fixpoint seek_index (key : bytes) (ks : list bytes) : nat :=
  match ks with
  | [] => 0
  | k :: ks' =>
      match bytes_Compare k key with
      | Lt => S (seek_index key ks')
      | _ => 0
      end
  end.

Definition Seek (it : Iterator) (key : bytes) : bool * Iterator :=
  match it_err it with
  | Some _ => (false, it)
  | None => move_to it (seek_index key (keys (it_db it)))
  end.

Definition Valid (it : Iterator) : bool :=
  match it_err it, it_dir it with
  | None, dirForward => true
  | _, _ => false
  end.

Definition Key (it : Iterator) : bytes :=
  if Valid it then nth (it_pos it) (keys (it_db it)) [] else [].

Definition Value (it : Iterator) : bytes :=
  if Valid it then nth (it_pos it) (map snd (entries (it_db it))) [] else [].

Definition Error (it : Iterator) : option error := it_err it.

End leveldb.

(** ** Package-level state of [main.go] *)

(** The package variables the pager, the value view and the export read or
    write, with the two widgets reduced to what these functions store in
    them: the main texts and current item of [keyList], the text of
    [valueView].  The title of the list is left out, and the callbacks the
    widgets fire (a selection change calls [showKeyValue]) are steps of a
    session of their own, see [Reachable]. *)
Record Session := {
  pageSize : nat;
  currentPosition : nat;
  displayedKeys : list bytes;
  currentPrefix : bytes;
  hasMoreKeys : bool;
  statusMessage : bytes;
  keyList_items : list bytes;
  keyList_current : Z;
  valueView_text : bytes
}.

(** Session start: the initial values of the package variables. *)
Definition initial : Session :=
  {| pageSize := 100; currentPosition := 0; displayedKeys := [];
     currentPrefix := []; hasMoreKeys := true; statusMessage := [];
     keyList_items := []; keyList_current := 0%Z; valueView_text := [] |}.

Definition set_pageSize (n : nat) (s : Session) : Session :=
  {| pageSize := n; currentPosition := currentPosition s;
     displayedKeys := displayedKeys s; currentPrefix := currentPrefix s;
     hasMoreKeys := hasMoreKeys s; statusMessage := statusMessage s;
     keyList_items := keyList_items s; keyList_current := keyList_current s;
     valueView_text := valueView_text s |}.

Definition set_currentPrefix (text : bytes) (s : Session) : Session :=
  {| pageSize := pageSize s; currentPosition := currentPosition s;
     displayedKeys := displayedKeys s; currentPrefix := text;
     hasMoreKeys := hasMoreKeys s; statusMessage := statusMessage s;
     keyList_items := keyList_items s; keyList_current := keyList_current s;
     valueView_text := valueView_text s |}.

Definition set_hasMoreKeys (b : bool) (s : Session) : Session :=
  {| pageSize := pageSize s; currentPosition := currentPosition s;
     displayedKeys := displayedKeys s; currentPrefix := currentPrefix s;
     hasMoreKeys := b; statusMessage := statusMessage s;
     keyList_items := keyList_items s; keyList_current := keyList_current s;
     valueView_text := valueView_text s |}.

Definition set_keyList_current (i : Z) (s : Session) : Session :=
  {| pageSize := pageSize s; currentPosition := currentPosition s;
     displayedKeys := displayedKeys s; currentPrefix := currentPrefix s;
     hasMoreKeys := hasMoreKeys s; statusMessage := statusMessage s;
     keyList_items := keyList_items s; keyList_current := i;
     valueView_text := valueView_text s |}.

Definition set_valueView_text (text : bytes) (s : Session) : Session :=
  {| pageSize := pageSize s; currentPosition := currentPosition s;
     displayedKeys := displayedKeys s; currentPrefix := currentPrefix s;
     hasMoreKeys := hasMoreKeys s; statusMessage := statusMessage s;
     keyList_items := keyList_items s; keyList_current := keyList_current s;
     valueView_text := text |}.

(** [setStatus]: the message is stored and shown; its timed reversion is
    not part of the model. *)
Definition setStatus (message : bytes) (s : Session) : Session :=
  {| pageSize := pageSize s; currentPosition := currentPosition s;
     displayedKeys := displayedKeys s; currentPrefix := currentPrefix s;
     hasMoreKeys := hasMoreKeys s; statusMessage := message;
     keyList_items := keyList_items s; keyList_current := keyList_current s;
     valueView_text := valueView_text s |}.

(** [displayedKeys = append(displayedKeys, keyCopy)] followed by
    [keyList.AddItem] of the key's text. *)
Definition add_key (key : bytes) (s : Session) : Session :=
  {| pageSize := pageSize s; currentPosition := currentPosition s;
     displayedKeys := displayedKeys s ++ [key]; currentPrefix := currentPrefix s;
     hasMoreKeys := hasMoreKeys s; statusMessage := statusMessage s;
     keyList_items := keyList_items s ++ [key];
     keyList_current := keyList_current s;
     valueView_text := valueView_text s |}.

(** The first four statements of [loadInitialKeys]. *)
Definition clear_page (s : Session) : Session :=
  {| pageSize := pageSize s; currentPosition := 0;
     displayedKeys := []; currentPrefix := currentPrefix s;
     hasMoreKeys := true; statusMessage := statusMessage s;
     keyList_items := []; keyList_current := 0%Z;
     valueView_text := valueView_text s |}.

(** ** The pager *)

Section Pager.
Context `{UnicodeTables}.

(** The condition both scans test on a key:
    the filter is empty or [strings.Contains(strings.ToLower(keyStr), searchLower)]. *)
Definition key_matches (currentPrefix searchLower keyStr : bytes) : bool :=
  bytes_eqb currentPrefix [] ||
  strings.Contains (strings.ToLower keyStr) searchLower.

(** The [for iter.Next()] loop of [loadInitialKeys]. *)
Fixpoint loadInitialKeys_loop (fuel : nat) (searchLower : bytes)
    (iter : leveldb.Iterator) (s : Session) : leveldb.Iterator * Session :=
  match fuel with
  | O => (iter, s)
  | S fuel' =>
      let (ok, iter) := leveldb.Next iter in
      if ok then
        let key := leveldb.Key iter in
        if key_matches (currentPrefix s) searchLower key then
          let s := add_key key s in
          if pageSize s <=? List.length (displayedKeys s) then (iter, s)
          else loadInitialKeys_loop fuel' searchLower iter s
        else loadInitialKeys_loop fuel' searchLower iter s
      else (iter, s)
  end.

(** [loadInitialKeys], with the iterator it releases on return. *)
Definition loadInitialKeys_run (db : leveldb.DB) (s : Session)
  : leveldb.Iterator * Session :=
  let s := clear_page s in
  let iter := leveldb.NewIterator db in
  let searchLower := strings.ToLower (currentPrefix s) in
  let (iter, s) :=
    loadInitialKeys_loop (S (List.length (leveldb.entries db))) searchLower iter s in
  let (more, iter) := leveldb.Next iter in
  let s := set_hasMoreKeys more s in
  match leveldb.Error iter with
  | Some err => (iter, setStatus (str "[red]Error: " ++ err) s)
  | None => (iter, s)
  end.

Definition loadInitialKeys (db : leveldb.DB) (s : Session) : Session :=
  snd (loadInitialKeys_run db s).

(** The [for ; iter.Valid() && count < pageSize; iter.Next()] loop of
    [loadNextPage]. *)
Fixpoint loadNextPage_loop (fuel : nat) (searchLower : bytes)
    (iter : leveldb.Iterator) (s : Session) (count : nat)
  : leveldb.Iterator * Session * nat :=
  match fuel with
  | O => (iter, s, count)
  | S fuel' =>
      if leveldb.Valid iter && (count <? pageSize s) then
        let key := leveldb.Key iter in
        let (s, count) :=
          if key_matches (currentPrefix s) searchLower key
          then (add_key key s, S count) else (s, count) in
        let (_, iter) := leveldb.Next iter in
        loadNextPage_loop fuel' searchLower iter s count
      else (iter, s, count)
  end.

(** [loadNextPage], with the iterator it releases on return ([None] when it
    returns before opening one). *)
Definition loadNextPage_run (db : leveldb.DB) (s : Session)
  : bool * Session * option leveldb.Iterator :=
  if negb (hasMoreKeys s) || (List.length (displayedKeys s) =? 0) then
    (false, s, None)
  else
    let lastKey := nth (List.length (displayedKeys s) - 1) (displayedKeys s) [] in
    let iter := leveldb.NewIterator db in
    let searchLower := strings.ToLower (currentPrefix s) in
    let (found, iter) := leveldb.Seek iter lastKey in
    if found then
      let (_, iter) := leveldb.Next iter in
      let '(iter, s, count) :=
        loadNextPage_loop (S (List.length (leveldb.entries db))) searchLower iter s 0 in
      let s := set_hasMoreKeys (leveldb.Valid iter) s in
      (0 <? count, s, Some iter)
    else (false, s, Some iter).

Definition loadNextPage (db : leveldb.DB) (s : Session) : bool * Session :=
  fst (loadNextPage_run db s).

(** The search box's change handler: [currentPrefix = text] and a fresh
    first page. *)
Definition searchChanged (db : leveldb.DB) (text : bytes) (s : Session) : Session :=
  loadInitialKeys db (set_currentPrefix text s).

End Pager.

(** ** Package [encoding/json]: the scanner, [Valid] and [Indent] *)

Module json.
Local Open Scope char_scope.

(** The step functions of the scanner, as the values [scanner.step] takes. *)
Inductive state :=
| stateBeginValueOrEmpty | stateBeginValue | stateBeginStringOrEmpty
| stateBeginString | stateEndValue | stateEndTop
| stateInString | stateInStringEsc | stateInStringEscU | stateInStringEscU1
| stateInStringEscU12 | stateInStringEscU123
| stateNeg | state1 | state0 | stateDot | stateDot0 | stateE | stateESign | stateE0
| stateT | stateTr | stateTru | stateF | stateFa | stateFal | stateFals
| stateN | stateNu | stateNul | stateError.

Inductive parse := parseObjectKey | parseObjectValue | parseArrayValue.

Inductive op :=
| scanContinue | scanBeginLiteral | scanBeginObject | scanObjectKey
| scanObjectValue | scanEndObject | scanBeginArray | scanArrayValue
| scanEndArray | scanSkipSpace | scanEnd | scanError.

(** The scanner; [parseState] is kept with its top at the head, [err] records
    whether [scanner.err] is set. *)
Record scanner := {
  step : state;
  parseState : list parse;
  err : bool;
  endTop : bool
}.

Definition maxNestingDepth : nat := 100 * 100.

Definition reset : scanner :=
  {| step := stateBeginValue; parseState := []; err := false; endTop := false |}.

Definition goto (st : state) (o : op) (s : scanner) : op * scanner :=
  (o, {| step := st; parseState := parseState s; err := err s; endTop := endTop s |}).

Definition set_parse (ps : list parse) (s : scanner) : scanner :=
  {| step := step s; parseState := ps; err := err s; endTop := endTop s |}.

Definition fail (s : scanner) : op * scanner :=
  (scanError,
   {| step := stateError; parseState := parseState s; err := true; endTop := endTop s |}).

Definition quote : ascii := "034".
Definition backslash : ascii := "092".

Definition isc (c x : ascii) : bool := Ascii.eqb c x.

Definition between (lo hi c : ascii) : bool :=
  (b2z lo <=? b2z c)%Z && (b2z c <=? b2z hi)%Z.

Definition isSpace (c : ascii) : bool :=
  isc c " " || isc c "009" || isc c "013" || isc c "010".

Definition isHex (c : ascii) : bool :=
  between "0" "9" c || between "a" "f" c || between "A" "F" c.

Definition pushParseState (newParseState : parse) (st : state) (successState : op)
    (s : scanner) : op * scanner :=
  let s := set_parse (newParseState :: parseState s) s in
  if (List.length (parseState s) <=? maxNestingDepth)%nat
  then goto st successState s
  else fail (snd (goto st successState s)).

Definition popParseState (s : scanner) : scanner :=
  match tl (parseState s) with
  | [] => {| step := stateEndTop; parseState := []; err := err s; endTop := true |}
  | ps => {| step := stateEndValue; parseState := ps; err := err s; endTop := endTop s |}
  end.

Definition do_stateEndTop (s : scanner) (c : ascii) : op * scanner :=
  if isSpace c then (scanEnd, s) else (scanEnd, snd (fail s)).

Definition do_stateEndValue (s : scanner) (c : ascii) : op * scanner :=
  match parseState s with
  | [] =>
      do_stateEndTop
        {| step := stateEndTop; parseState := []; err := err s; endTop := true |} c
  | ps :: rest =>
      if isSpace c then goto stateEndValue scanSkipSpace s else
      match ps with
      | parseObjectKey =>
          if isc c ":" then
            goto stateBeginValue scanObjectKey (set_parse (parseObjectValue :: rest) s)
          else fail s
      | parseObjectValue =>
          if isc c "," then
            goto stateBeginString scanObjectValue (set_parse (parseObjectKey :: rest) s)
          else if isc c "}" then (scanEndObject, popParseState s)
          else fail s
      | parseArrayValue =>
          if isc c "," then goto stateBeginValue scanArrayValue s
          else if isc c "]" then (scanEndArray, popParseState s)
          else fail s
      end
  end.

Definition do_stateBeginValue (s : scanner) (c : ascii) : op * scanner :=
  if isSpace c then (scanSkipSpace, s)
  else if isc c "{" then pushParseState parseObjectKey stateBeginStringOrEmpty scanBeginObject s
  else if isc c "[" then pushParseState parseArrayValue stateBeginValueOrEmpty scanBeginArray s
  else if isc c quote then goto stateInString scanBeginLiteral s
  else if isc c "-" then goto stateNeg scanBeginLiteral s
  else if isc c "0" then goto state0 scanBeginLiteral s
  else if isc c "t" then goto stateT scanBeginLiteral s
  else if isc c "f" then goto stateF scanBeginLiteral s
  else if isc c "n" then goto stateN scanBeginLiteral s
  else if between "1" "9" c then goto state1 scanBeginLiteral s
  else fail s.

Definition do_stateBeginString (s : scanner) (c : ascii) : op * scanner :=
  if isSpace c then (scanSkipSpace, s)
  else if isc c quote then goto stateInString scanBeginLiteral s
  else fail s.

Definition do_state0 (s : scanner) (c : ascii) : op * scanner :=
  if isc c "." then goto stateDot scanContinue s
  else if isc c "e" || isc c "E" then goto stateE scanContinue s
  else do_stateEndValue s c.

Definition do_stateESign (s : scanner) (c : ascii) : op * scanner :=
  if between "0" "9" c then goto stateE0 scanContinue s else fail s.

Definition expect (x : ascii) (st : state) (s : scanner) (c : ascii) : op * scanner :=
  if isc c x then goto st scanContinue s else fail s.

(** [s.step(s, c)] *)
Definition run (s : scanner) (c : ascii) : op * scanner :=
  match step s with
  | stateBeginValueOrEmpty =>
      if isSpace c then (scanSkipSpace, s)
      else if isc c "]" then do_stateEndValue s c
      else do_stateBeginValue s c
  | stateBeginValue => do_stateBeginValue s c
  | stateBeginStringOrEmpty =>
      if isSpace c then (scanSkipSpace, s)
      else if isc c "}" then
        do_stateEndValue (set_parse (parseObjectValue :: tl (parseState s)) s) c
      else do_stateBeginString s c
  | stateBeginString => do_stateBeginString s c
  | stateEndValue => do_stateEndValue s c
  | stateEndTop => do_stateEndTop s c
  | stateInString =>
      if isc c quote then goto stateEndValue scanContinue s
      else if isc c backslash then goto stateInStringEsc scanContinue s
      else if (b2z c <? 32)%Z then fail s
      else (scanContinue, s)
  | stateInStringEsc =>
      if isc c "b" || isc c "f" || isc c "n" || isc c "r" || isc c "t"
         || isc c backslash || isc c "/" || isc c quote
      then goto stateInString scanContinue s
      else if isc c "u" then goto stateInStringEscU scanContinue s
      else fail s
  | stateInStringEscU =>
      if isHex c then goto stateInStringEscU1 scanContinue s else fail s
  | stateInStringEscU1 =>
      if isHex c then goto stateInStringEscU12 scanContinue s else fail s
  | stateInStringEscU12 =>
      if isHex c then goto stateInStringEscU123 scanContinue s else fail s
  | stateInStringEscU123 =>
      if isHex c then goto stateInString scanContinue s else fail s
  | stateNeg =>
      if isc c "0" then goto state0 scanContinue s
      else if between "1" "9" c then goto state1 scanContinue s
      else fail s
  | state1 =>
      if between "0" "9" c then goto state1 scanContinue s else do_state0 s c
  | state0 => do_state0 s c
  | stateDot =>
      if between "0" "9" c then goto stateDot0 scanContinue s else fail s
  | stateDot0 =>
      if between "0" "9" c then (scanContinue, s)
      else if isc c "e" || isc c "E" then goto stateE scanContinue s
      else do_stateEndValue s c
  | stateE =>
      if isc c "+" || isc c "-" then goto stateESign scanContinue s
      else do_stateESign s c
  | stateESign => do_stateESign s c
  | stateE0 =>
      if between "0" "9" c then (scanContinue, s) else do_stateEndValue s c
  | stateT => expect "r" stateTr s c
  | stateTr => expect "u" stateTru s c
  | stateTru => expect "e" stateEndValue s c
  | stateF => expect "a" stateFa s c
  | stateFa => expect "l" stateFal s c
  | stateFal => expect "s" stateFals s c
  | stateFals => expect "e" stateEndValue s c
  | stateN => expect "u" stateNu s c
  | stateNu => expect "l" stateNul s c
  | stateNul => expect "l" stateEndValue s c
  | stateError => (scanError, s)
  end.

(** [s.eof()] reports whether the input ends at the end of a value:
    [false] stands for [scanError]. *)
Definition eof (s : scanner) : bool :=
  if err s then false
  else if endTop s then true
  else endTop (snd (run s " ")).

Fixpoint checkValid (data : bytes) (scan : scanner) : bool :=
  match data with
  | [] => eof scan
  | c :: data' =>
      match run scan c with
      | (scanError, _) => false
      | (_, scan) => checkValid data' scan
      end
  end.

(** [json.Valid] *)
Definition Valid (data : bytes) : bool := checkValid data reset.

(** [appendNewline] *)
Definition appendNewline (dst prefix indent : bytes) (depth : Z) : bytes :=
  dst ++ ["010"] ++ prefix ++ List.concat (repeat indent (Z.to_nat depth)).

Definition isEnd (v : op) : bool :=
  match v with scanEndObject | scanEndArray => true | _ => false end.

(** The loop of [appendIndent] over the bytes of [src]. *)
Fixpoint indent_loop (src : bytes) (scan : scanner) (needIndent : bool)
    (depth : Z) (prefix indent dst : bytes) : bytes * scanner :=
  match src with
  | [] => (dst, scan)
  | c :: src' =>
      let (v, scan) := run scan c in
      match v with
      | scanSkipSpace => indent_loop src' scan needIndent depth prefix indent dst
      | scanError => (dst, scan)
      | _ =>
          let '(needIndent, depth, dst) :=
            if needIndent && negb (isEnd v)
            then (false, (depth + 1)%Z, appendNewline dst prefix indent (depth + 1))
            else (needIndent, depth, dst) in
          match v with
          | scanContinue =>
              indent_loop src' scan needIndent depth prefix indent (dst ++ [c])
          | _ =>
              if isc c "{" || isc c "[" then
                indent_loop src' scan true depth prefix indent (dst ++ [c])
              else if isc c "," then
                indent_loop src' scan needIndent depth prefix indent
                  (appendNewline (dst ++ [c]) prefix indent depth)
              else if isc c ":" then
                indent_loop src' scan needIndent depth prefix indent (dst ++ [c; " "])
              else if isc c "}" || isc c "]" then
                if needIndent then
                  indent_loop src' scan false depth prefix indent (dst ++ [c])
                else
                  indent_loop src' scan needIndent (depth - 1) prefix indent
                    (appendNewline dst prefix indent (depth - 1) ++ [c])
              else indent_loop src' scan needIndent depth prefix indent (dst ++ [c])
          end
      end
  end.

(** [json.Indent] into an empty buffer: the indented text, or [None] for a
    syntax error. *)
Definition Indent (src prefix indent : bytes) : option bytes :=
  let (dst, scan) := indent_loop src reset false 0 prefix indent [] in
  if eof scan then Some dst else None.

End json.

(** ** Package [encoding/base64] *)

Module base64.
Local Open Scope Z_scope.

Definition encodeStd : bytes :=
  str "ABCDEFGHIJKLMNOPQRSTUVWXYZabcdefghijklmnopqrstuvwxyz0123456789+/".

Definition enc (v : Z) : ascii :=
  nth (Z.to_nat (Z.land v 63)) encodeStd "A"%char.

(** [base64.RawStdEncoding.EncodeToString]: the standard alphabet, no padding. *)
Fixpoint EncodeToString (src : bytes) : bytes :=
  match src with
  | b0 :: b1 :: b2 :: src' =>
      let val := Z.lor (Z.lor (Z.shiftl (b2z b0) 16) (Z.shiftl (b2z b1) 8)) (b2z b2) in
      enc (Z.shiftr val 18) :: enc (Z.shiftr val 12) :: enc (Z.shiftr val 6)
        :: enc val :: EncodeToString src'
  | [b0; b1] =>
      let val := Z.lor (Z.shiftl (b2z b0) 16) (Z.shiftl (b2z b1) 8) in
      [enc (Z.shiftr val 18); enc (Z.shiftr val 12); enc (Z.shiftr val 6)]
  | [b0] =>
      let val := Z.shiftl (b2z b0) 16 in
      [enc (Z.shiftr val 18); enc (Z.shiftr val 12)]
  | [] => []
  end.

End base64.

(** ** The value renderer *)

Definition flushBinary (result binaryBuffer : bytes) : bytes * bytes :=
  if 0 <? List.length binaryBuffer then
    (result ++ str "[b64:" ++ base64.EncodeToString binaryBuffer ++ str "]", [])
  else (result, binaryBuffer).

(** The [for pos < len(value)] loop of [mixedContentDisplay]. *)
Fixpoint mixedContentDisplay_loop (fuel : nat) (value : bytes) (pos : nat)
    (result binaryBuffer : bytes) : bytes * bytes :=
  match fuel with
  | O => (result, binaryBuffer)
  | S fuel' =>
      if pos <? List.length value then
        let (r, size) := utf8.DecodeRune (skipn pos value) in
        if (r =? utf8.RuneError)%Z && (size =? 1) then
          mixedContentDisplay_loop fuel' value (pos + 1) result
            (binaryBuffer ++ [nth pos value zero])
        else if unicode.IsControl r then
          mixedContentDisplay_loop fuel' value (pos + size) result
            (binaryBuffer ++ firstn size (skipn pos value))
        else
          let (result, binaryBuffer) := flushBinary result binaryBuffer in
          mixedContentDisplay_loop fuel' value (pos + size)
            (result ++ utf8.EncodeRune r) binaryBuffer
      else (result, binaryBuffer)
  end.

Definition mixedContentDisplay (value : bytes) : bytes :=
  let (result, binaryBuffer) :=
    mixedContentDisplay_loop (List.length value) value 0 [] [] in
  fst (flushBinary result binaryBuffer).

Definition formatValue (value : bytes) : bytes :=
  if json.Valid value then
    match json.Indent value [] (str "  ") with
    | Some prettyJSON => prettyJSON
    | None => mixedContentDisplay value
    end
  else mixedContentDisplay value.

Definition nl : bytes := ["010"%char].

(** [showKeyValue]: the text the value view receives for [key]. *)
Definition showKeyValue (db : leveldb.DB) (key : bytes) (s : Session) : Session :=
  match leveldb.Get db key with
  | inr err => set_valueView_text (str "[red]Error: " ++ err) s
  | inl value =>
      if List.length value =? 0 then
        set_valueView_text
          (str "[white]Key[::-]: " ++ key ++ nl ++ nl
             ++ str "[white]Value[::-]: (empty)") s
      else
        let displayStr := formatValue value in
        set_valueView_text
          (str "[white]Key[::-]: " ++ key ++ nl ++ nl
             ++ str "[white]Value[::-]: " ++ displayStr) s
  end.

(** ** The file system and the single-entry export *)

(** The part of the file system the exports touch: the directories and the
    regular files (name and content) that exist under the working
    directory, and the answers of the operating system on what the two
    lists do not show, such as permissions, a name the file system does not
    take or a full disk.  An answer is [None] when the operation goes
    through and the error otherwise; for a write it also gives the number
    of bytes that went through before the error.  The answers are asked by
    path, so that the permissions of [leveldb_dump] and of the working
    directory are separate, and they are those of one environment: asking
    again gives the same answer. *)
Record FS := {
  dirs : list bytes;
  files : list (bytes * bytes);
  mkdir_error : bytes -> option error;
  open_error : bytes -> option error;
  write_error : bytes -> nat -> bytes -> option (nat * error)
}.

(** A file system on which the operating system refuses nothing. *)
Definition disk (ds : list bytes) (fl : list (bytes * bytes)) : FS :=
  {| dirs := ds; files := fl; mkdir_error := fun _ => None;
     open_error := fun _ => None; write_error := fun _ _ _ => None |}.

Definition has_dir (fs : FS) (path : bytes) : bool :=
  existsb (bytes_eqb path) (dirs fs).

Definition has_file (fs : FS) (path : bytes) : bool :=
  existsb (fun f => bytes_eqb path (fst f)) (files fs).

Definition set_dirs (ds : list bytes) (fs : FS) : FS :=
  {| dirs := ds; files := files fs; mkdir_error := mkdir_error fs;
     open_error := open_error fs; write_error := write_error fs |}.

Definition set_files (fl : list (bytes * bytes)) (fs : FS) : FS :=
  {| dirs := dirs fs; files := fl; mkdir_error := mkdir_error fs;
     open_error := open_error fs; write_error := write_error fs |}.

(** The directory a path lies in: what stands before its last separator;
    [None] for a name directly under the working directory. *)
Fixpoint parent (path : bytes) : option bytes :=
  match path with
  | [] => None
  | c :: path' =>
      match parent path' with
      | Some d => Some (c :: d)
      | None => if (b2z c =? 47)%Z then Some [] else None
      end
  end.

(** The working directory and the root are always there. *)
Definition parent_exists (fs : FS) (path : bytes) : bool :=
  match parent path with
  | None | Some [] => true
  | Some d => has_dir fs d
  end.

(** [os.MkdirAll(path, 0755)] for a path of one element, as the program
    passes: nothing to do when the directory exists, an error when the name
    is taken by a regular file, and otherwise the directory is made unless
    the system refuses. *)
Definition os_MkdirAll (path : bytes) (fs : FS) : FS * option error :=
  if has_dir fs path then (fs, None)
  else if has_file fs path
  then (fs, Some (str "mkdir " ++ path ++ str ": not a directory"))
  else
    match mkdir_error fs path with
    | Some err => (fs, Some err)
    | None => (set_dirs (path :: dirs fs) fs, None)
    end.

(** [os.Create(name)], that is [OpenFile] with [O_CREATE|O_TRUNC]: when it
    succeeds the file exists and is empty. *)
Definition os_Create (name : bytes) (fs : FS) : FS * option error :=
  if negb (parent_exists fs name)
  then (fs, Some (str "open " ++ name ++ str ": no such file or directory"))
  else if has_dir fs name
  then (fs, Some (str "open " ++ name ++ str ": is a directory"))
  else
    match open_error fs name with
    | Some err => (fs, Some err)
    | None =>
        (set_files ((name, [])
                      :: filter (fun f => negb (bytes_eqb (fst f) name)) (files fs))
           fs, None)
    end.

(** The content of the file [name]; empty when there is none. *)
Definition file_content (fs : FS) (name : bytes) : bytes :=
  match find (fun f => bytes_eqb (fst f) name) (files fs) with
  | Some f => snd f
  | None => []
  end.

Definition append_file (name data : bytes) (fs : FS) : FS :=
  set_files (map (fun f => if bytes_eqb (fst f) name
                           then (fst f, snd f ++ data) else f) (files fs)) fs.

(** [file.WriteString(data)] on the open file [name]: the data goes to the
    end of the file; a write that fails leaves the bytes that went through
    before the error. *)
Definition file_WriteString (name data : bytes) (fs : FS) : FS * option error :=
  match write_error fs name (List.length (file_content fs name)) data with
  | Some (n, err) => (append_file name (firstn n data) fs, Some err)
  | None => (append_file name data fs, None)
  end.

(** [os.WriteFile(name, data, 0644)]: [OpenFile] with [O_CREATE|O_TRUNC],
    then one write.  When the file cannot be opened nothing changes; when
    the write fails the file is left truncated, with the bytes that went
    through. *)
Definition os_WriteFile (name data : bytes) (fs : FS) : FS * option error :=
  match os_Create name fs with
  | (fs, Some err) => (fs, Some err)
  | (fs, None) => file_WriteString name data fs
  end.

(** [filepath.Join(dir, name)] for a directory name and a file name that
    holds no separator and is no dot element, where [Clean] has nothing to
    change. *)
Definition filepath_Join (dir name : bytes) : bytes := dir ++ str "/" ++ name.

(** The mapping [dumpCurrentKey] passes to [strings.Map]. *)
Definition sanitize (r : rune) : rune :=
  if ((r <? 32) || (r =? 47) || (r =? 92) || (r =? 58) || (r =? 42)
      || (r =? 63) || (r =? 34) || (r =? 60) || (r =? 62) || (r =? 124))%Z
  then 95%Z else r.

(** The path [dumpCurrentKey] writes the entry of [key] to. *)
Definition dump_path (key : bytes) : bytes :=
  let dir := str "leveldb_dump" in
  let filename := strings.Map sanitize key in
  filepath_Join dir (filename ++ str ".txt").

Definition dumpCurrentKey (db : leveldb.DB) (s : Session) (fs : FS)
  : Session * FS :=
  let currentIndex := keyList_current s in
  if ((currentIndex <? 0) || (Z.of_nat (List.length (displayedKeys s)) <=? currentIndex))%Z
  then (setStatus (str "[red]Invalid selection") s, fs)
  else
    let key := nth (Z.to_nat currentIndex) (displayedKeys s) [] in
    match leveldb.Get db key with
    | inr err => (setStatus (str "[red]Error: " ++ err) s, fs)
    | inl value =>
        let dir := str "leveldb_dump" in
        match os_MkdirAll dir fs with
        | (fs, Some err) =>
            (setStatus (str "[red]Error creating directory: " ++ err) s, fs)
        | (fs, None) =>
            let filePath := dump_path key in
            let formattedValue := formatValue value in
            let content :=
              str "Key: " ++ key ++ nl ++ nl ++ str "Value: " ++ formattedValue in
            match os_WriteFile filePath content fs with
            | (fs, Some err) =>
                (setStatus (str "[red]Error writing file: " ++ err) s, fs)
            | (fs, None) =>
                (setStatus (str "[green]Dumped to " ++ filePath) s, fs)
            end
        end
    end.


(** ** Notions the properties are stated with *)

(** The store holds each key once, in increasing order. *)
Definition WellFormed (db : leveldb.DB) : Prop :=
  StronglySorted key_lt (leveldb.keys db).

(** Number of leading entries an iterator can read. *)
Definition limit (db : leveldb.DB) : nat :=
  match leveldb.unreadable db with
  | None => List.length (leveldb.entries db)
  | Some n => Nat.min n (List.length (leveldb.entries db))
  end.

Definition readable_keys (db : leveldb.DB) : list bytes :=
  firstn (limit db) (leveldb.keys db).

(** The keys the coming calls of [Next] will stop on. *)
Definition rest (it : leveldb.Iterator) : list bytes :=
  match leveldb.it_err it with
  | Some _ => []
  | None =>
      match leveldb.it_dir it with
      | leveldb.dirSOI => readable_keys (leveldb.it_db it)
      | leveldb.dirForward =>
          skipn (S (leveldb.it_pos it)) (readable_keys (leveldb.it_db it))
      | leveldb.dirEOI => []
      end
  end.

(** The key under the iterator, if any, followed by the coming ones. *)
Definition pending (it : leveldb.Iterator) : list bytes :=
  if leveldb.Valid it then leveldb.Key it :: rest it else [].

Definition wf_it (it : leveldb.Iterator) : Prop :=
  leveldb.it_err it = None -> leveldb.it_dir it = leveldb.dirForward ->
  leveldb.it_pos it < limit (leveldb.it_db it).

(** One scan over the raw keys [l] with room for [room] matches: the keys
    scanned, up to and including the [room]-th match, and the keys left. *)
Fixpoint take_page (m : bytes -> bool) (room : nat) (l : list bytes)
  : list bytes * list bytes :=
  match l with
  | [] => ([], [])
  | k :: l' =>
      match room with
      | O => ([], l)
      | S room' =>
          let (a, b) := take_page m (if m k then room' else room) l' in
          (k :: a, b)
      end
  end.

(** The session after the keys [l] were appended one by one. *)
Definition add_keys (l : list bytes) (s : Session) : Session :=
  {| pageSize := pageSize s; currentPosition := currentPosition s;
     displayedKeys := displayedKeys s ++ l; currentPrefix := currentPrefix s;
     hasMoreKeys := hasMoreKeys s; statusMessage := statusMessage s;
     keyList_items := keyList_items s ++ l;
     keyList_current := keyList_current s;
     valueView_text := valueView_text s |}.

Definition nonempty {A : Type} (l : list A) : bool :=
  match l with [] => false | _ :: _ => true end.

(** The ASCII rows of the case table, the identity elsewhere: enough for
    sessions whose keys and filter are ASCII, which never consult the table. *)
Definition asciiLower : UnicodeTables :=
  {| unicode_ToLower := fun r => if ((65 <=? r) && (r <=? 90))%Z then (r + 32)%Z else r |}.

Section Notions.
Context `{UnicodeTables}.

(** The filter of the spec: [matches f key] is the test the scans apply to
    [key] when the filter text is [f]. *)
Definition matches (f key : bytes) : bool :=
  key_matches f (strings.ToLower f) key.

(** [key] contains [f] as a substring once both are lower-cased. *)
Definition ci_contains (key f : bytes) : Prop :=
  exists pre post, strings.ToLower key = pre ++ strings.ToLower f ++ post.

(** The sessions under filter [f] and page size [ps]: a first-page load
    after the filter text became [f], followed by any number of extends,
    selection changes, value views, single-entry exports and status
    messages (the scroll handler and the whole-store export set one). *)
Inductive Reachable (db : leveldb.DB) (f : bytes) (ps : nat) : Session -> Prop :=
| reach_first (s0 : Session) :
    pageSize s0 = ps -> Reachable db f ps (searchChanged db f s0)
| reach_extend (s : Session) :
    Reachable db f ps s -> Reachable db f ps (snd (loadNextPage db s))
| reach_select (s : Session) (i : Z) :
    Reachable db f ps s -> Reachable db f ps (set_keyList_current i s)
| reach_show (s : Session) (key : bytes) :
    Reachable db f ps s -> Reachable db f ps (showKeyValue db key s)
| reach_dump (s : Session) (fs : FS) :
    Reachable db f ps s -> Reachable db f ps (fst (dumpCurrentKey db s fs))
| reach_status (s : Session) (message : bytes) :
    Reachable db f ps s -> Reachable db f ps (setStatus message s).

(** What a session under [f] knows of the store: the page is the matches of
    a scanned prefix of the readable keys, and more is announced exactly
    when that prefix is not everything. *)
Definition Inv (db : leveldb.DB) (f : bytes) (ps : nat) (s : Session) : Prop :=
  pageSize s = ps /\ currentPrefix s = f /\
  exists pre post, readable_keys db = pre ++ post /\
    displayedKeys s = filter (matches f) pre /\
    hasMoreKeys s = nonempty post /\
    (post <> [] -> displayedKeys s <> []).

End Notions.

(** A printable ASCII character: U+0020 to U+007E. *)
Definition printable (c : ascii) : bool :=
  ((32 <=? b2z c) && (b2z c <=? 126))%Z.

(** The characters [dumpCurrentKey] replaces in a file name, as bytes. *)
Definition replaced (c : ascii) : bool :=
  ((b2z c <? 32) || (b2z c =? 47) || (b2z c =? 92) || (b2z c =? 58)
   || (b2z c =? 42) || (b2z c =? 63) || (b2z c =? 34) || (b2z c =? 60)
   || (b2z c =? 62) || (b2z c =? 124))%Z.

(** ** Checks run over all byte values *)

Section Checks.
Local Open Scope Z_scope.

(** Every byte value, once. *)
Definition all_ascii : list ascii := map ascii_of_nat (seq 0 256).

(** The tests [DecodeRune] makes before it reads a further byte. *)
Definition lead_of (n : nat) (c0 : ascii) : bool :=
  match utf8.first (b2z c0) with
  | utf8.LeadMulti sz _ _ => (sz =? n)%nat
  | _ => false
  end.

Definition second_ok (c0 c1 : ascii) : bool :=
  match utf8.first (b2z c0) with
  | utf8.LeadMulti _ lo hi => negb ((b2z c1 <? lo) || (hi <? b2z c1))
  | _ => false
  end.

Definition cont_ok (c : ascii) : bool :=
  negb ((b2z c <? utf8.locb) || (utf8.hicb <? b2z c)).

Definition reencodes (p : bytes) : bool :=
  bytes_eqb (utf8.EncodeRune (fst (utf8.DecodeRune p))) p.

(** The four-byte case is checked in two parts: what the first three bytes
    contribute to the rune, and what the last byte adds to it. *)
Definition upper4 (c0 c1 c2 : ascii) : Z :=
  Z.lor (Z.lor (Z.shiftl (Z.land (b2z c0) utf8.mask4) 18)
               (Z.shiftl (Z.land (b2z c1) utf8.maskx) 12))
        (Z.shiftl (Z.land (b2z c2) utf8.maskx) 6).

Definition upper4_ok (c0 c1 c2 : ascii) : bool :=
  let x := upper4 c0 c1 c2 in
  (65536 <=? x) && (x <=? 1114048) && (Z.land x 63 =? 0)
  && Ascii.eqb (z2b (Z.lor utf8.t4 (Z.shiftr x 18))) c0
  && Ascii.eqb (z2b (Z.lor utf8.tx (Z.land (Z.shiftr x 12) 63))) c1
  && Ascii.eqb (z2b (Z.lor utf8.tx (Z.land (Z.shiftr x 6) 63))) c2.

Definition lower_ok (c3 : ascii) : bool :=
  let d := Z.land (b2z c3) 63 in
  (0 <=? d) && (d <=? 63) && (Z.shiftr d 6 =? 0) && (Z.shiftr d 12 =? 0)
  && (Z.shiftr d 18 =? 0) && Ascii.eqb (z2b (Z.lor utf8.tx d)) c3.

End Checks.

(** ** Concrete stores and sessions *)

Definition store (ks : list (string * string)) (bad : option nat) : leveldb.DB :=
  {| leveldb.entries := map (fun e => (str (fst e), str (snd e))) ks;
     leveldb.unreadable := bad |}.

(** Three fruit keys, in the byte order of the store. *)
Definition scenarioA : leveldb.DB :=
  store [("Banana", "2"); ("apple", "1"); ("cherry", "3")]%string None.

(** One matching key followed by a key that does not match "a". *)
Definition sparse : leveldb.DB := store [("a", "1"); ("b", "2")]%string None.

(** Four keys, the last of which cannot be read. *)
Definition damaged : leveldb.DB :=
  store [("a", "1"); ("b", "2"); ("c", "3"); ("d", "4")]%string (Some 3).

(** One entry whose value is empty. *)
Definition blank : leveldb.DB := store [("k", "")]%string None.

(** ** Further functions of [main.go] *)

(** [fmt.Sprintf] of an integer with the verb [%d]. *)
Definition itoa (n : Z) : bytes := str (NilEmpty.string_of_int (Z.to_int n)).

Section MorePager.
Context `{UnicodeTables}.

(** The [for i := 0; i < pageSize && iter.Next();] loop of [loadPage]. *)
Fixpoint loadPage_loop (fuel : nat) (searchLower : bytes)
    (iter : leveldb.Iterator) (s : Session) (i : nat)
  : leveldb.Iterator * Session :=
  match fuel with
  | O => (iter, s)
  | S fuel' =>
      if i <? pageSize s then
        let (ok, iter) := leveldb.Next iter in
        if ok then
          let key := leveldb.Key iter in
          if key_matches (currentPrefix s) searchLower key
          then loadPage_loop fuel' searchLower iter (add_key key s) (S i)
          else loadPage_loop fuel' searchLower iter s i
        else (iter, s)
      else (iter, s)
  end.

(** [loadPage(iter)], with the iterator as the call leaves it. *)
Definition loadPage_run (iter : leveldb.Iterator) (s : Session)
  : leveldb.Iterator * Session :=
  let searchLower := strings.ToLower (currentPrefix s) in
  let (iter, s) :=
    loadPage_loop (S (S (List.length (leveldb.entries (leveldb.it_db iter)))))
      searchLower iter s 0 in
  let (more, iter) := leveldb.Next iter in
  let s := set_hasMoreKeys more s in
  match leveldb.Error iter with
  | Some err => (iter, setStatus (str "[red]Error: " ++ err) s)
  | None => (iter, s)
  end.

Definition loadPage (iter : leveldb.Iterator) (s : Session) : Session :=
  snd (loadPage_run iter s).

End MorePager.

(** ** The whole-store export *)

(** The text [dumpAllKeys] writes for one entry. *)
Definition entry_text (key value : bytes) : bytes :=
  str "Key: " ++ key ++ nl ++ nl ++ str "Value: " ++ formatValue value
    ++ nl ++ nl ++ List.concat (repeat (str "-") 80) ++ nl.

(** The [for iter.Next()] loop of [dumpAllKeys]; a write error ends it. *)
Fixpoint dumpAllKeys_loop (fuel : nat) (filePath : bytes)
    (iter : leveldb.Iterator) (fs : FS) (count : nat)
  : leveldb.Iterator * FS * nat * option error :=
  match fuel with
  | O => (iter, fs, count, None)
  | S fuel' =>
      let (ok, iter) := leveldb.Next iter in
      if ok then
        let key := leveldb.Key iter in
        let value := leveldb.Value iter in
        let content := entry_text key value in
        match file_WriteString filePath content fs with
        | (fs, Some err) => (iter, fs, count, Some err)
        | (fs, None) => dumpAllKeys_loop fuel' filePath iter fs (S count)
        end
      else (iter, fs, count, None)
  end.

Definition dumpAllKeys (db : leveldb.DB) (s : Session) (fs : FS) : Session * FS :=
  let dir := str "leveldb_dump" in
  match os_MkdirAll dir fs with
  | (fs, Some err) =>
      (setStatus (str "[red]Error creating directory: " ++ err) s, fs)
  | (fs, None) =>
      let filePath := filepath_Join dir (str "all_keys.txt") in
      match os_Create filePath fs with
      | (fs, Some err) =>
          (setStatus (str "[red]Error creating file: " ++ err) s, fs)
      | (fs, None) =>
          let iter := leveldb.NewIterator db in
          match dumpAllKeys_loop (S (List.length (leveldb.entries db)))
                  filePath iter fs 0 with
          | (_, fs, _, Some err) =>
              (setStatus (str "[red]Error writing key: " ++ err) s, fs)
          | (iter, fs, count, None) =>
              match leveldb.Error iter with
              | Some err =>
                  (setStatus (str "[red]Iterator error: " ++ err) s, fs)
              | None =>
                  (setStatus (str "[green]Dumped " ++ itoa (Z.of_nat count)
                                ++ str " keys to " ++ filePath) s, fs)
              end
          end
      end
  end.

(** ** Notions for the further properties *)

Section MoreNotions.
Context `{UnicodeTables}.

(** The session after [n] calls of [loadNextPage]. *)
Fixpoint extends (db : leveldb.DB) (n : nat) (s : Session) : Session :=
  match n with
  | O => s
  | S n' => snd (loadNextPage db (extends db n' s))
  end.

End MoreNotions.

(** Valid UTF-8 text without control characters: every decoding step
    yields a rune, and that rune is no control character. *)
Inductive CleanText : bytes -> Prop :=
| clean_nil : CleanText []
| clean_rune (c0 : ascii) (s : bytes) (r : rune) (w : nat) :
    utf8.DecodeRune (c0 :: s) = (r, w) ->
    ((r =? utf8.RuneError)%Z && (w =? 1)) = false ->
    unicode.IsControl r = false ->
    CleanText (skipn w (c0 :: s)) ->
    CleanText (c0 :: s).

(** A byte that can only go to the binary run: an ASCII control character,
    or a byte that starts no UTF-8 sequence. *)
Definition binary_byte (c : ascii) : bool :=
  match utf8.first (b2z c) with
  | utf8.LeadASCII => unicode.IsControl (b2z c)
  | utf8.LeadInvalid => true
  | utf8.LeadMulti _ _ _ => false
  end.

(** A byte that is an ASCII control character: below U+0020, or DEL. *)
Definition ascii_control (c : ascii) : bool :=
  ((b2z c <? 32) || (b2z c =? 127))%Z.

(** The iterator is about to move onto the entry of index [j]. *)
Definition at_index (it : leveldb.Iterator) (j : nat) : Prop :=
  leveldb.it_err it = None /\
  ((leveldb.it_dir it = leveldb.dirSOI /\ j = 0) \/
   (leveldb.it_dir it = leveldb.dirForward /\ j = S (leveldb.it_pos it))).

(** The text of the aggregate file for the entries [es]. *)
Definition entries_text (es : list (bytes * bytes)) : bytes :=
  List.concat (map (fun e => entry_text (fst e) (snd e)) es).

(** The text [dumpAllKeys] writes for the entry of index [i] of [es]. *)
Definition block_at (es : list (bytes * bytes)) (i : nat) : bytes :=
  entry_text (fst (nth i es ([], []))) (snd (nth i es ([], []))).

(** The answer of the system to the write of that text to [path], at the
    end of the texts of the entries before it. *)
Definition write_answer (fs : FS) (path : bytes) (es : list (bytes * bytes))
    (i : nat) : option (nat * error) :=
  write_error fs path (List.length (entries_text (firstn i es))) (block_at es i).

(** A disk that takes what is written at the start of a file and, further
    on, three more bytes. *)
Definition small_disk : FS :=
  {| dirs := []; files := []; mkdir_error := fun _ => None;
     open_error := fun _ => None;
     write_error := fun _ offset _ =>
                      if offset =? 0 then None
                      else Some (3, str "write: no space left on device") |}.

(** What the error of an iterator over [db] tells: an error is the damage
    of the store, and an iterator that ran off the end without one has
    passed every entry. *)
Definition err_inv (db : leveldb.DB) (it : leveldb.Iterator) : Prop :=
  leveldb.it_db it = db /\ wf_it it /\
  match leveldb.it_err it with
  | Some e => e = leveldb.ErrCorrupted /\ limit db < List.length (leveldb.entries db)
  | None => leveldb.it_dir it = leveldb.dirEOI ->
            limit db = List.length (leveldb.entries db)
  end.

(** * Properties *)

(** ** Lists *)

Lemma skipn_cons_inv (A : Type) (n : nat) (l : list A) (k : A) (r : list A) (d : A) :
  skipn n l = k :: r -> n < List.length l /\ nth n l d = k /\ skipn (S n) l = r.
Proof.
  revert l; induction n as [|n IH]; intros [|x l] E; simpl in *; try discriminate.
  - inversion E; subst. repeat split; auto. lia.
  - destruct (IH _ E) as (L & N & K). repeat split; auto. lia.
Qed.

Lemma skipn_nil_inv (A : Type) (n : nat) (l : list A) :
  skipn n l = [] -> List.length l <= n.
Proof.
  revert l; induction n as [|n IH]; intros [|x l] E; simpl in *;
    try discriminate; try lia.
  apply IH in E. lia.
Qed.

Lemma nth_firstn_lt (A : Type) (n i : nat) (l : list A) (d : A) :
  i < n -> nth i (firstn n l) d = nth i l d.
Proof.
  revert i l; induction n as [|n IH]; intros i l Hi; [lia|].
  destruct l as [|x l]; simpl; [destruct i; reflexivity|].
  destruct i as [|i]; simpl; [reflexivity|]. apply IH; lia.
Qed.

Lemma filter_nil_forall (A : Type) (m : A -> bool) (l : list A) :
  filter m l = [] -> forall x, In x l -> m x = false.
Proof.
  induction l as [|y l IH]; simpl; intros E x Hx; [contradiction|].
  destruct (m y) eqn:My; [discriminate|].
  destruct Hx as [->|Hx]; auto.
Qed.

(** A non-empty filtered list ends with the last matching element. *)
Lemma filter_last_split (A : Type) (m : A -> bool) (l : list A) (d : A) :
  filter m l <> [] ->
  exists l1 k l2, l = l1 ++ k :: l2 /\ m k = true /\ filter m l2 = [] /\
                  last (filter m l) d = k /\ filter m l = filter m l1 ++ [k].
Proof.
  induction l as [|x l IH]; simpl; intros NE; [congruence|].
  destruct (filter m l) as [|y f] eqn:F.
  - destruct (m x) eqn:Mx; [|congruence].
    exists [], x, l. simpl. repeat split; auto.
  - destruct IH as (l1 & k & l2 & -> & Mk & F2 & L & E); [congruence|].
    exists (x :: l1), k, l2. simpl.
    repeat split; auto.
    + destruct (m x); simpl; rewrite <- L; reflexivity.
    + destruct (m x); simpl; rewrite E; reflexivity.
Qed.

(** ** The order of the keys *)

Lemma b2z_inj (a b : ascii) : b2z a = b2z b -> a = b.
Proof.
  unfold b2z; intros E. apply N2Z.inj in E.
  rewrite <- (ascii_N_embedding a), <- (ascii_N_embedding b), E. reflexivity.
Qed.

Lemma bytes_Compare_refl (a : bytes) : bytes_Compare a a = Eq.
Proof. induction a; simpl; auto. rewrite Z.compare_refl; auto. Qed.

Lemma bytes_Compare_antisym (a b : bytes) :
  bytes_Compare b a = CompOpp (bytes_Compare a b).
Proof.
  revert b; induction a as [|x a IH]; intros [|y b]; simpl; auto.
  rewrite (Z.compare_antisym (b2z x) (b2z y)).
  destruct (b2z x ?= b2z y)%Z; simpl; auto.
Qed.

Lemma key_lt_irrefl (a : bytes) : ~ key_lt a a.
Proof. unfold key_lt. rewrite bytes_Compare_refl. discriminate. Qed.

Lemma key_lt_asym (a b : bytes) : key_lt a b -> ~ key_lt b a.
Proof.
  unfold key_lt; intros H1 H2.
  rewrite bytes_Compare_antisym, H1 in H2. discriminate.
Qed.

Lemma bytes_eqb_eq (a b : bytes) : bytes_eqb a b = true <-> a = b.
Proof. unfold bytes_eqb. destruct (list_eq_dec ascii_dec a b); split; congruence. Qed.

Lemma sorted_app_l (l1 l2 : list bytes) :
  StronglySorted key_lt (l1 ++ l2) -> StronglySorted key_lt l1.
Proof.
  induction l1 as [|x l1 IH]; simpl; intros S; [constructor|].
  inversion S as [|? ? S' F]; subst. constructor; auto.
  rewrite Forall_app in F. tauto.
Qed.

Lemma sorted_app_lt (l1 l2 : list bytes) (x y : bytes) :
  StronglySorted key_lt (l1 ++ l2) -> In x l1 -> In y l2 -> key_lt x y.
Proof.
  induction l1 as [|z l1 IH]; simpl; intros S Hx Hy; [contradiction|].
  inversion S as [|? ? S' F]; subst.
  destruct Hx as [->|Hx]; auto.
  rewrite Forall_forall in F. apply F, in_or_app; auto.
Qed.

Lemma sorted_filter (m : bytes -> bool) (l : list bytes) :
  StronglySorted key_lt l -> StronglySorted key_lt (filter m l).
Proof.
  induction 1 as [|x l S IH F]; simpl; [constructor|].
  destruct (m x); auto. constructor; auto.
  rewrite Forall_forall in *. intros y Hy. apply filter_In in Hy. apply F; tauto.
Qed.

Lemma sorted_NoDup (l : list bytes) : StronglySorted key_lt l -> NoDup l.
Proof.
  induction 1 as [|x l S IH F]; constructor; auto.
  intros Hx. rewrite Forall_forall in F. exact (key_lt_irrefl (F _ Hx)).
Qed.

(** In a sorted store [Seek] on a stored key lands on that key. *)
Lemma seek_index_sorted (l1 l2 : list bytes) (k : bytes) :
  StronglySorted key_lt (l1 ++ k :: l2) ->
  leveldb.seek_index k (l1 ++ k :: l2) = List.length l1.
Proof.
  induction l1 as [|x l1 IH]; simpl; intros S.
  - rewrite bytes_Compare_refl. reflexivity.
  - inversion S as [|? ? S' F]; subst.
    rewrite Forall_forall in F.
    assert (L : key_lt x k) by (apply F, in_or_app; simpl; auto).
    unfold key_lt in L. rewrite L, IH; auto.
Qed.

(** ** The iterator *)

Lemma keys_length (db : leveldb.DB) :
  List.length (leveldb.keys db) = List.length (leveldb.entries db).
Proof. unfold leveldb.keys. apply length_map. Qed.

Lemma limit_le (db : leveldb.DB) : limit db <= List.length (leveldb.entries db).
Proof. unfold limit. destruct (leveldb.unreadable db); lia. Qed.

Lemma readable_keys_length (db : leveldb.DB) :
  List.length (readable_keys db) = limit db.
Proof.
  unfold readable_keys. rewrite length_firstn, keys_length.
  pose proof (limit_le db). lia.
Qed.

Lemma readable_lt_limit (db : leveldb.DB) (i : nat) :
  i < List.length (leveldb.entries db) ->
  leveldb.readable db i = true <-> i < limit db.
Proof.
  unfold leveldb.readable, limit. destruct (leveldb.unreadable db) as [n|].
  - rewrite Nat.ltb_lt. lia.
  - intros; split; auto.
Qed.

Lemma keys_split (db : leveldb.DB) :
  leveldb.keys db = readable_keys db ++ skipn (limit db) (leveldb.keys db).
Proof. unfold readable_keys. symmetry. apply firstn_skipn. Qed.

Lemma readable_keys_all (db : leveldb.DB) :
  leveldb.unreadable db = None -> readable_keys db = leveldb.keys db.
Proof.
  intros E. unfold readable_keys, limit. rewrite E, <- keys_length.
  apply firstn_all.
Qed.

(** Moving onto a readable entry succeeds. *)
Lemma move_to_ok (it : leveldb.Iterator) (i : nat) :
  i < limit (leveldb.it_db it) ->
  exists it', leveldb.move_to it i = (true, it') /\
    leveldb.it_db it' = leveldb.it_db it /\ leveldb.Valid it' = true /\
    leveldb.Key it' = nth i (readable_keys (leveldb.it_db it)) [] /\
    rest it' = skipn (S i) (readable_keys (leveldb.it_db it)) /\ wf_it it'.
Proof.
  intros Hi. pose proof (limit_le (leveldb.it_db it)) as Hl.
  unfold leveldb.move_to.
  destruct (Nat.ltb_spec i (List.length (leveldb.entries (leveldb.it_db it))));
    [|lia].
  assert (R : leveldb.readable (leveldb.it_db it) i = true)
    by (apply readable_lt_limit; auto).
  rewrite R. eexists; split; [reflexivity|].
  unfold leveldb.Key, leveldb.Valid, rest, wf_it, readable_keys; simpl.
  repeat split; auto. rewrite nth_firstn_lt; auto.
Qed.

(** Moving past the readable entries fails and leaves nothing to come. *)
Lemma move_to_end (it : leveldb.Iterator) (i : nat) :
  limit (leveldb.it_db it) <= i ->
  exists it', leveldb.move_to it i = (false, it') /\
    leveldb.it_db it' = leveldb.it_db it /\ leveldb.Valid it' = false /\
    rest it' = [] /\ wf_it it'.
Proof.
  intros Hi. unfold leveldb.move_to.
  destruct (Nat.ltb_spec i (List.length (leveldb.entries (leveldb.it_db it)))).
  - destruct (leveldb.readable (leveldb.it_db it) i) eqn:R.
    + apply readable_lt_limit in R; auto; lia.
    + eexists; split; [reflexivity|].
      unfold leveldb.Valid, rest, wf_it; simpl. repeat split; auto. discriminate.
  - eexists; split; [reflexivity|].
    unfold leveldb.Valid, rest, wf_it; simpl. repeat split; auto. discriminate.
Qed.

(** [Next] steps onto the head of [rest], or fails when [rest] is empty. *)
Lemma Next_spec (it : leveldb.Iterator) :
  wf_it it ->
  exists ok it', leveldb.Next it = (ok, it') /\
    leveldb.it_db it' = leveldb.it_db it /\ wf_it it' /\
    match rest it with
    | [] => ok = false /\ rest it' = [] /\ leveldb.Valid it' = false
    | k :: r => ok = true /\ leveldb.Valid it' = true /\
                leveldb.Key it' = k /\ rest it' = r
    end.
Proof.
  intros W. unfold leveldb.Next, rest, wf_it in *.
  destruct (leveldb.it_err it) as [e|] eqn:Err.
  - exists false, it. unfold rest, leveldb.Valid. rewrite Err.
    repeat split; auto.
  - destruct (leveldb.it_dir it) eqn:D.
    + destruct (readable_keys (leveldb.it_db it)) as [|k r] eqn:RK.
      * destruct (@move_to_end it 0) as (it' & E & Db & V & R & W').
        { rewrite <- readable_keys_length, RK. simpl; lia. }
        exists false, it'. repeat split; auto.
      * destruct (@move_to_ok it 0) as (it' & E & Db & V & K & R & W').
        { rewrite <- readable_keys_length, RK. simpl; lia. }
        rewrite RK in K, R. exists true, it'. repeat split; auto.
    + exists false, it. unfold rest, leveldb.Valid. rewrite Err, D.
      repeat split; auto.
    + destruct (skipn (S (leveldb.it_pos it)) (readable_keys (leveldb.it_db it)))
        as [|k r] eqn:RK.
      * apply skipn_nil_inv in RK. rewrite readable_keys_length in RK.
        destruct (@move_to_end it (S (leveldb.it_pos it))) as (it' & E & Db & V & R & W');
          auto.
        exists false, it'. repeat split; auto.
      * apply skipn_cons_inv with (d := []) in RK. destruct RK as (L & N & K).
        rewrite readable_keys_length in L.
        destruct (@move_to_ok it (S (leveldb.it_pos it))) as (it' & E & Db & V & K' & R & W');
          auto.
        exists true, it'. fold (rest it'). repeat split; auto; congruence.
Qed.

Lemma NewIterator_rest (db : leveldb.DB) :
  rest (leveldb.NewIterator db) = readable_keys db /\ wf_it (leveldb.NewIterator db).
Proof. unfold rest, wf_it; simpl. split; auto. discriminate. Qed.

(** [pending] after a [Next] is what [rest] was before it. *)
Lemma Next_pending (it : leveldb.Iterator) :
  wf_it it ->
  exists ok it', leveldb.Next it = (ok, it') /\
    leveldb.it_db it' = leveldb.it_db it /\ wf_it it' /\
    pending it' = rest it /\ rest it' = tl (rest it) /\
    ok = nonempty (rest it) /\ leveldb.Valid it' = nonempty (rest it).
Proof.
  intros W. destruct (Next_spec W) as (ok & it' & E & Db & W' & H).
  exists ok, it'. unfold pending.
  destruct (rest it) as [|k r].
  - destruct H as (-> & R & V). rewrite V, R. repeat split; auto.
  - destruct H as (-> & V & K & R). rewrite V, K, R. repeat split; auto.
Qed.

(** ** One scan, as a function of the raw keys *)

Lemma take_page_0 (m : bytes -> bool) (l : list bytes) : take_page m 0 l = ([], l).
Proof. destruct l; reflexivity. Qed.

Lemma take_page_app (m : bytes -> bool) (l : list bytes) (room : nat) :
  l = fst (take_page m room l) ++ snd (take_page m room l).
Proof.
  revert room; induction l as [|k l IH]; intros room; simpl; auto.
  destruct room as [|room]; simpl; auto.
  specialize (IH (if m k then room else S room)).
  destruct (take_page m (if m k then room else S room) l) as [a b]; simpl in *.
  congruence.
Qed.

(** A scan collects at most [room] matches, and exactly [room] when it
    leaves keys behind. *)
Lemma take_page_count (m : bytes -> bool) (l : list bytes) (room : nat) :
  List.length (filter m (fst (take_page m room l))) <= room /\
  (snd (take_page m room l) <> [] ->
   List.length (filter m (fst (take_page m room l))) = room).
Proof.
  revert room; induction l as [|k l IH]; intros room; simpl.
  - split; [lia|congruence].
  - destruct room as [|room]; simpl; [split; auto|].
    specialize (IH (if m k then room else S room)).
    destruct (take_page m (if m k then room else S room) l) as [a b]; simpl in *.
    destruct IH as [I1 I2].
    destruct (m k); simpl; (split; [lia|intros Hb; specialize (I2 Hb); lia]).
Qed.

(** A scan that collected [room] matches stopped on the last of them. *)
Lemma take_page_full (m : bytes -> bool) (l : list bytes) (room : nat) :
  0 < room ->
  List.length (filter m (fst (take_page m room l))) = room ->
  exists a' x, fst (take_page m room l) = a' ++ [x] /\ m x = true.
Proof.
  revert room; induction l as [|k l IH]; intros room Hr; simpl.
  - simpl; lia.
  - destruct room as [|room]; [lia|].
    destruct (m k) eqn:Mk.
    + destruct room as [|room].
      * rewrite take_page_0. simpl. rewrite Mk. intros _. exists [], k. auto.
      * specialize (IH (S room)).
        destruct (take_page m (S room) l) as [a b]; simpl in *. rewrite Mk. simpl.
        intros E. destruct IH as (a' & x & -> & Mx); [lia|lia|].
        exists (k :: a'), x. auto.
    + specialize (IH (S room)).
      destruct (take_page m (S room) l) as [a b]; simpl in *. rewrite Mk.
      intros E. destruct IH as (a' & x & -> & Mx); [lia|lia|].
      exists (k :: a'), x. auto.
Qed.

(** A scan that found fewer than [room] matches read every key. *)
Lemma take_page_short (m : bytes -> bool) (l : list bytes) (room : nat) :
  List.length (filter m (fst (take_page m room l))) < room ->
  snd (take_page m room l) = [].
Proof.
  intros H. destruct (snd (take_page m room l)) eqn:E; auto.
  destruct (take_page_count m l room) as [_ C]. rewrite C in H; [lia|].
  rewrite E. discriminate.
Qed.

Lemma add_keys_nil (s : Session) : add_keys [] s = s.
Proof. destruct s; unfold add_keys; simpl. rewrite !app_nil_r. reflexivity. Qed.

Lemma add_keys_cons (k : bytes) (l : list bytes) (s : Session) :
  add_keys (k :: l) s = add_keys l (add_key k s).
Proof.
  unfold add_keys, add_key; simpl.
  rewrite <- !app_assoc. reflexivity.
Qed.

(** ** The two scanning loops *)

Section Loops.
Context `{UnicodeTables}.

(** The loop of [loadInitialKeys] performs one scan of the coming keys; the
    fuel it is given never runs out. *)
Lemma loadInitialKeys_loop_spec (fuel : nat) (sl : bytes) :
  forall (it : leveldb.Iterator) (s : Session),
  wf_it it -> List.length (rest it) < fuel ->
  List.length (displayedKeys s) < pageSize s ->
  let m := key_matches (currentPrefix s) sl in
  let p := take_page m (pageSize s - List.length (displayedKeys s)) (rest it) in
  exists it', loadInitialKeys_loop fuel sl it s = (it', add_keys (filter m (fst p)) s) /\
    wf_it it' /\ leveldb.it_db it' = leveldb.it_db it /\ rest it' = snd p.
Proof.
  induction fuel as [|fuel IH]; intros it s W F L; [lia|].
  simpl. destruct (Next_spec W) as (ok & it' & E & Db & W' & N).
  rewrite E. destruct (rest it) as [|k r] eqn:R.
  - destruct N as (-> & R' & _). simpl. rewrite add_keys_nil. eauto.
  - destruct N as (-> & V & K & R'). rewrite K.
    destruct (pageSize s - List.length (displayedKeys s)) as [|room] eqn:Room; [lia|].
    simpl. simpl in F.
    destruct (key_matches (currentPrefix s) sl k) eqn:M.
    + rewrite length_app. simpl.
      destruct (Nat.leb_spec (pageSize s) (List.length (displayedKeys s) + 1)).
      * assert (room = 0) by lia; subst room. rewrite take_page_0. simpl.
        rewrite M. exists it'. repeat split; auto.
      * destruct (IH it' (add_key k s)) as (it2 & E2 & W2 & Db2 & R2); auto.
        { rewrite R'. lia. }
        { simpl. rewrite length_app. simpl. lia. }
        simpl in E2, R2. rewrite length_app in E2, R2. simpl in E2, R2.
        replace (pageSize s - (List.length (displayedKeys s) + 1)) with room in * by lia.
        rewrite R' in *.
        destruct (take_page (key_matches (currentPrefix s) sl) room r) as [a b].
        simpl in *. rewrite M. rewrite add_keys_cons.
        exists it2. repeat split; auto. congruence.
    + destruct (IH it' s) as (it2 & E2 & W2 & Db2 & R2); auto.
      { rewrite R'. lia. }
      simpl in E2, R2. rewrite Room, R' in *.
      destruct (take_page (key_matches (currentPrefix s) sl) (S room) r) as [a b].
      simpl in *. rewrite M.
      exists it2. repeat split; auto. congruence.
Qed.

(** The loop of [loadNextPage] performs one scan of the pending keys. *)
Lemma loadNextPage_loop_spec (fuel : nat) (sl : bytes) :
  forall (it : leveldb.Iterator) (s : Session) (count : nat),
  wf_it it -> List.length (pending it) < fuel -> count <= pageSize s ->
  let m := key_matches (currentPrefix s) sl in
  let p := take_page m (pageSize s - count) (pending it) in
  exists it', loadNextPage_loop fuel sl it s count =
      (it', add_keys (filter m (fst p)) s, count + List.length (filter m (fst p))) /\
    wf_it it' /\ leveldb.it_db it' = leveldb.it_db it /\
    leveldb.Valid it' = nonempty (snd p).
Proof.
  induction fuel as [|fuel IH]; intros it s count W F L; [lia|].
  simpl. destruct (leveldb.Valid it) eqn:V; simpl.
  - assert (PV : pending it = leveldb.Key it :: rest it)
      by (unfold pending; rewrite V; reflexivity).
    rewrite PV in *. simpl in F.
    destruct (Nat.ltb_spec count (pageSize s)).
    + destruct (pageSize s - count) as [|room] eqn:Room; [lia|].
      destruct (Next_pending W) as (ok & it' & E & Db & W' & P & _).
      rewrite E. simpl.
      destruct (key_matches (currentPrefix s) sl (leveldb.Key it)) eqn:M.
      * destruct (IH it' (add_key (leveldb.Key it) s) (S count))
          as (it2 & E2 & W2 & Db2 & V2); auto.
        { rewrite P. lia. }
        simpl in E2, V2. rewrite P in E2, V2.
        replace (pageSize s - S count) with room in * by lia.
        destruct (take_page (key_matches (currentPrefix s) sl) room (rest it)) as [a b].
        simpl in *. rewrite M. rewrite add_keys_cons. simpl.
        exists it2. rewrite E2. repeat split; auto; congruence.
      * destruct (IH it' s count) as (it2 & E2 & W2 & Db2 & V2); auto.
        { rewrite P. lia. }
        simpl in E2, V2. rewrite P, Room in E2, V2.
        destruct (take_page (key_matches (currentPrefix s) sl) (S room) (rest it)) as [a b].
        simpl in *. rewrite M.
        exists it2. rewrite E2. repeat split; auto; congruence.
    + replace (pageSize s - count) with 0 by lia. simpl.
      rewrite add_keys_nil, Nat.add_0_r. exists it. repeat split; auto.
  - assert (PV : pending it = []) by (unfold pending; rewrite V; reflexivity).
    rewrite PV. simpl.
    rewrite add_keys_nil, Nat.add_0_r. exists it. repeat split; auto.
Qed.

End Loops.

(** ** The two operations of the pager *)

Lemma nth_pred_last (A : Type) (l : list A) (d : A) :
  nth (List.length l - 1) l d = last l d.
Proof.
  induction l as [|x l IH]; simpl; auto.
  destruct l as [|y l]; simpl in *; auto.
  rewrite Nat.sub_0_r in IH. exact IH.
Qed.

Lemma app_last_in (A : Type) (l1 l2 l : list A) (x : A) :
  l ++ [x] = l1 ++ l2 -> l2 <> [] -> In x l2.
Proof.
  revert l; induction l1 as [|y l1 IH]; simpl; intros l E NE.
  - subst l2. apply in_or_app; simpl; auto.
  - destruct l as [|z l]; simpl in E; inversion E; subst.
    + destruct l1; simpl in *; try discriminate. congruence.
    + eapply IH; eauto.
Qed.

Lemma skipn_past (A : Type) (l1 l2 : list A) (k : A) :
  skipn (S (List.length l1)) (l1 ++ k :: l2) = l2.
Proof. induction l1; simpl; auto. Qed.

Lemma nonempty_true (A : Type) (l : list A) : nonempty l = true <-> l <> [].
Proof. destruct l; simpl; split; congruence. Qed.

Section Operations.
Context `{UnicodeTables}.

(** [loadInitialKeys] is one scan of the readable keys from the start. *)
Lemma loadInitialKeys_spec (db : leveldb.DB) (s : Session) :
  0 < pageSize s ->
  let p := take_page (matches (currentPrefix s)) (pageSize s) (readable_keys db) in
  displayedKeys (loadInitialKeys db s) = filter (matches (currentPrefix s)) (fst p) /\
  hasMoreKeys (loadInitialKeys db s) = nonempty (snd p) /\
  currentPrefix (loadInitialKeys db s) = currentPrefix s /\
  pageSize (loadInitialKeys db s) = pageSize s.
Proof.
  intros Hps. unfold loadInitialKeys, loadInitialKeys_run.
  destruct (NewIterator_rest db) as [R0 W0].
  destruct (@loadInitialKeys_loop_spec _ (S (List.length (leveldb.entries db)))
              (strings.ToLower (currentPrefix (clear_page s)))
              (leveldb.NewIterator db) (clear_page s)) as (it1 & E1 & W1 & _ & R1); auto.
  { rewrite R0, readable_keys_length. pose proof (limit_le db). lia. }
  rewrite E1. simpl in R1. rewrite Nat.sub_0_r, R0 in R1.
  destruct (Next_pending W1) as (ok & it2 & E2 & _ & _ & _ & _ & Ok & _).
  rewrite E2. simpl. rewrite Nat.sub_0_r, R0.
  unfold matches. rewrite Ok, R1.
  destruct (leveldb.Error it2); simpl; auto.
Qed.

(** [loadNextPage], when it runs on a page whose last key is stored and
    readable, is one scan of the readable keys that follow that key. *)
Lemma loadNextPage_spec (db : leveldb.DB) (s : Session)
    (pre1 post1 : list bytes) (k : bytes) :
  WellFormed db -> hasMoreKeys s = true -> displayedKeys s <> [] ->
  last (displayedKeys s) [] = k -> readable_keys db = pre1 ++ k :: post1 ->
  let p := take_page (matches (currentPrefix s)) (pageSize s) post1 in
  let new := filter (matches (currentPrefix s)) (fst p) in
  loadNextPage db s =
    (0 <? List.length new, set_hasMoreKeys (nonempty (snd p)) (add_keys new s)).
Proof.
  intros WF More NE Last RK. unfold loadNextPage, loadNextPage_run.
  rewrite More. cbn [negb orb].
  destruct (Nat.eqb_spec (List.length (displayedKeys s)) 0) as [L0|_].
  { destruct (displayedKeys s); simpl in *; congruence. }
  rewrite nth_pred_last, Last.
  unfold leveldb.Seek. cbn [leveldb.it_err leveldb.it_db leveldb.NewIterator].
  assert (SI : leveldb.seek_index k (leveldb.keys db) = List.length pre1).
  { unfold WellFormed in WF. rewrite keys_split, RK, <- app_assoc in *. simpl in *.
    apply seek_index_sorted; auto. }
  rewrite SI.
  destruct (@move_to_ok (leveldb.NewIterator db) (List.length pre1))
    as (it1 & E1 & Db1 & V1 & K1 & R1 & W1).
  { simpl. rewrite <- readable_keys_length, RK, length_app. simpl. lia. }
  rewrite E1. change (leveldb.it_db (leveldb.NewIterator db)) with db in R1.
  rewrite RK, skipn_past in R1.
  destruct (Next_pending W1) as (ok & it2 & E2 & Db2 & W2 & P2 & _).
  rewrite E2.
  destruct (@loadNextPage_loop_spec _ (S (List.length (leveldb.entries db)))
              (strings.ToLower (currentPrefix s)) it2 s 0) as (it3 & E3 & W3 & _ & V3);
    auto; try lia.
  { rewrite P2, R1. pose proof (limit_le db).
    pose proof (readable_keys_length db) as RL.
    rewrite RK, length_app in RL. simpl in RL. lia. }
  rewrite E3, V3, Nat.sub_0_r, P2, R1. reflexivity.
Qed.

End Operations.

(** ** Substring search *)

Lemma HasPrefix_spec (s p : bytes) :
  strings.HasPrefix s p = true <-> exists post, s = p ++ post.
Proof.
  revert s; induction p as [|c p IH]; intros s.
  - destruct s; simpl; split; eauto.
  - destruct s as [|d s]; simpl.
    + split; [discriminate|]. intros [post E]. discriminate.
    + rewrite andb_true_iff, Ascii.eqb_eq, IH. split.
      * intros [-> [post ->]]. eauto.
      * intros [post E]. inversion E; subst. eauto.
Qed.

Lemma Contains_spec (s sub : bytes) :
  strings.Contains s sub = true <-> exists pre post, s = pre ++ sub ++ post.
Proof.
  induction s as [|c s IH]; cbn [strings.Contains];
    rewrite orb_true_iff, HasPrefix_spec.
  - split.
    + intros [[post E]|F]; [|discriminate]. exists [], post. exact E.
    + intros (pre & post & E). left.
      destruct pre; simpl in E; [exists post; exact E|discriminate].
  - rewrite IH. split.
    + intros [[post E]|(pre & post & E)].
      * exists [], post. exact E.
      * exists (c :: pre), post. simpl. congruence.
    + intros (pre & post & E). destruct pre as [|d pre]; simpl in E.
      * left. exists post. exact E.
      * right. inversion E; subst. exists pre, post. reflexivity.
Qed.

(** ** What every scan does, whatever the store *)

Section Appends.
Context `{UnicodeTables}.

(** A key that passes the scans' test contains the filter, case aside. *)
Lemma matches_ci_contains (f key : bytes) :
  matches f key = true -> ci_contains key f.
Proof.
  unfold matches, key_matches, ci_contains.
  rewrite orb_true_iff, bytes_eqb_eq, Contains_spec.
  intros [->|E]; auto.
  exists [], (strings.ToLower key). reflexivity.
Qed.

Lemma loadInitialKeys_loop_appends (fuel : nat) (sl : bytes) :
  forall (it : leveldb.Iterator) (s : Session),
  exists new, snd (loadInitialKeys_loop fuel sl it s) = add_keys new s /\
    Forall (fun k => key_matches (currentPrefix s) sl k = true) new.
Proof.
  induction fuel as [|fuel IH]; intros it s; simpl.
  - exists []. rewrite add_keys_nil. auto.
  - destruct (leveldb.Next it) as [[|] it'].
    + destruct (key_matches (currentPrefix s) sl (leveldb.Key it')) eqn:M.
      * destruct (pageSize s <=? _).
        { exists [leveldb.Key it']. simpl. auto. }
        { destruct (IH it' (add_key (leveldb.Key it') s)) as (new & E & F).
          exists (leveldb.Key it' :: new). rewrite add_keys_cons. auto. }
      * apply IH.
    + exists []. rewrite add_keys_nil. auto.
Qed.

Lemma loadNextPage_loop_appends (fuel : nat) (sl : bytes) :
  forall (it : leveldb.Iterator) (s : Session) (count : nat),
  exists it' new,
    loadNextPage_loop fuel sl it s count =
      (it', add_keys new s, count + List.length new) /\
    Forall (fun k => key_matches (currentPrefix s) sl k = true) new /\
    (count <= pageSize s -> count + List.length new <= pageSize s).
Proof.
  induction fuel as [|fuel IH]; intros it s count; simpl.
  - exists it, []. rewrite add_keys_nil, Nat.add_0_r. simpl. repeat split; auto; lia.
  - destruct (leveldb.Valid it && (count <? pageSize s)) eqn:C.
    + apply andb_true_iff in C. destruct C as [_ C]. apply Nat.ltb_lt in C.
      destruct (leveldb.Next it) as [ok it'].
      destruct (key_matches (currentPrefix s) sl (leveldb.Key it)) eqn:M.
      * destruct (IH it' (add_key (leveldb.Key it) s) (S count))
          as (it2 & new & E & F & B).
        exists it2, (leveldb.Key it :: new). rewrite add_keys_cons, E. simpl in *.
        repeat split; auto. intros _. specialize (B C). lia.
      * apply IH.
    + exists it, []. rewrite add_keys_nil, Nat.add_0_r. simpl. repeat split; auto; lia.
Qed.

(** A first-page load starts from an empty page and keeps matches only. *)
Lemma loadInitialKeys_appends (db : leveldb.DB) (s : Session) :
  Forall (fun k => matches (currentPrefix s) k = true)
         (displayedKeys (loadInitialKeys db s)) /\
  currentPrefix (loadInitialKeys db s) = currentPrefix s /\
  pageSize (loadInitialKeys db s) = pageSize s.
Proof.
  unfold loadInitialKeys, loadInitialKeys_run.
  destruct (@loadInitialKeys_loop_appends
              (S (List.length (leveldb.entries db)))
              (strings.ToLower (currentPrefix (clear_page s)))
              (leveldb.NewIterator db) (clear_page s)) as (new & E & F).
  destruct (loadInitialKeys_loop _ _ _ _) as [it1 s1]. simpl in E. subst s1.
  destruct (leveldb.Next it1) as [more it2].
  destruct (leveldb.Error it2); simpl; auto.
Qed.

(** An extend appends matches to the page and changes nothing before them;
    it answers whether it appended any. *)
Lemma loadNextPage_appends (db : leveldb.DB) (s : Session) :
  exists new,
    displayedKeys (snd (loadNextPage db s)) = displayedKeys s ++ new /\
    Forall (fun k => matches (currentPrefix s) k = true) new /\
    (fst (loadNextPage db s) = true <-> new <> []) /\
    List.length new <= pageSize s /\
    currentPrefix (snd (loadNextPage db s)) = currentPrefix s /\
    pageSize (snd (loadNextPage db s)) = pageSize s.
Proof.
  unfold loadNextPage, loadNextPage_run.
  destruct (negb (hasMoreKeys s) || (List.length (displayedKeys s) =? 0)).
  { exists []. simpl. rewrite app_nil_r.
    repeat split; auto; try lia; try discriminate; congruence. }
  destruct (leveldb.Seek _ _) as [[|] it1].
  - destruct (leveldb.Next it1) as [ok it2].
    destruct (@loadNextPage_loop_appends
                (S (List.length (leveldb.entries db)))
                (strings.ToLower (currentPrefix s)) it2 s 0)
      as (it3 & new & E & F & B).
    rewrite E. exists new. simpl in *. repeat split; auto; try lia.
    + intros L. apply Nat.ltb_lt in L. intros ->. simpl in L. lia.
    + intros NE. apply Nat.ltb_lt. destruct new; simpl; [congruence|lia].
  - exists []. simpl. rewrite app_nil_r.
    repeat split; auto; try lia; try discriminate; congruence.
Qed.

(** An extend that may not run leaves the session as it is. *)
Lemma loadNextPage_noop (db : leveldb.DB) (s : Session) :
  hasMoreKeys s = false \/ displayedKeys s = [] ->
  loadNextPage db s = (false, s).
Proof.
  intros C. unfold loadNextPage, loadNextPage_run.
  destruct C as [C|C]; rewrite C; simpl; auto.
  rewrite orb_true_r. reflexivity.
Qed.

(** Selecting, viewing and exporting leave the pager's variables alone. *)
Lemma showKeyValue_pager (db : leveldb.DB) (key : bytes) (s : Session) :
  displayedKeys (showKeyValue db key s) = displayedKeys s /\
  currentPrefix (showKeyValue db key s) = currentPrefix s /\
  hasMoreKeys (showKeyValue db key s) = hasMoreKeys s /\
  pageSize (showKeyValue db key s) = pageSize s.
Proof.
  unfold showKeyValue. destruct (leveldb.Get db key); [|simpl; auto].
  destruct (List.length b =? 0); simpl; auto.
Qed.

Lemma dumpCurrentKey_pager (db : leveldb.DB) (s : Session) (fs : FS) :
  displayedKeys (fst (dumpCurrentKey db s fs)) = displayedKeys s /\
  currentPrefix (fst (dumpCurrentKey db s fs)) = currentPrefix s /\
  hasMoreKeys (fst (dumpCurrentKey db s fs)) = hasMoreKeys s /\
  pageSize (fst (dumpCurrentKey db s fs)) = pageSize s.
Proof.
  unfold dumpCurrentKey.
  destruct (_ || _)%bool; [simpl; auto|].
  destruct (leveldb.Get db _); [|simpl; auto].
  destruct (os_MkdirAll _ fs) as [fs1 [e|]]; [simpl; auto|].
  destruct (os_WriteFile _ _ fs1) as [fs2 [e|]]; simpl; auto.
Qed.

End Appends.

(** ** The session invariant *)

Section Invariant.
Context `{UnicodeTables}.

Lemma Inv_first (db : leveldb.DB) (f : bytes) (s0 : Session) :
  0 < pageSize s0 -> Inv db f (pageSize s0) (searchChanged db f s0).
Proof.
  intros Hps. unfold searchChanged.
  destruct (@loadInitialKeys_spec _ db (set_currentPrefix f s0)) as (D & M & P & S);
    auto.
  simpl in D, M, P, S. unfold Inv. rewrite P, S. repeat split; auto.
  exists (fst (take_page (matches f) (pageSize s0) (readable_keys db))),
         (snd (take_page (matches f) (pageSize s0) (readable_keys db))).
  repeat split; auto.
  - apply take_page_app.
  - intros NE. apply (take_page_count (matches f)) in NE.
    rewrite D. intros E. rewrite E in NE. simpl in NE. lia.
Qed.

(** An extend that runs scans on from the last key of the page. *)
Lemma extend_spec (db : leveldb.DB) (f : bytes) (ps : nat) (s : Session) :
  WellFormed db -> Inv db f ps s -> hasMoreKeys s = true ->
  exists pre a b,
    readable_keys db = pre ++ a ++ b /\
    displayedKeys s = filter (matches f) pre /\ displayedKeys s <> [] /\
    take_page (matches f) ps (a ++ b) = (a, b) /\
    loadNextPage db s =
      (0 <? List.length (filter (matches f) a),
       set_hasMoreKeys (nonempty b) (add_keys (filter (matches f) a) s)).
Proof.
  intros WF (Ps & Pf & pre0 & post0 & RK & D & M & NE) More.
  assert (NE' : displayedKeys s <> []).
  { apply NE. apply nonempty_true. congruence. }
  destruct (@filter_last_split _ (matches f) pre0 []) as (l1 & k & l2 & E0 & Mk & F2 & L & FE).
  { congruence. }
  pose proof (@loadNextPage_spec _ db s l1 (l2 ++ post0) k WF More NE') as LS.
  rewrite Pf, Ps, D in LS. specialize (LS L).
  rewrite RK, E0, <- app_assoc in LS. specialize (LS eq_refl). simpl in LS.
  pose proof (take_page_app (matches f) (l2 ++ post0) ps) as TA.
  exists (l1 ++ [k]),
         (fst (take_page (matches f) ps (l2 ++ post0))),
         (snd (take_page (matches f) ps (l2 ++ post0))).
  rewrite <- TA. repeat split; auto.
  - rewrite RK, E0, <- !app_assoc. reflexivity.
  - rewrite D, FE, filter_app. simpl. rewrite Mk. reflexivity.
  - destruct (take_page (matches f) ps (l2 ++ post0)); reflexivity.
Qed.

(** An extend that runs is determined by the place of the last key of the
    page among the keys the iterator can read: it scans the keys after
    it. *)
Lemma extend_from_last (db : leveldb.DB) (f : bytes) (ps : nat) (s : Session) :
  WellFormed db -> Inv db f ps s -> hasMoreKeys s = true ->
  (exists pre post,
     readable_keys db = pre ++ last (displayedKeys s) [] :: post) /\
  (forall pre post,
     readable_keys db = pre ++ last (displayedKeys s) [] :: post ->
     let p := take_page (matches f) ps post in
     loadNextPage db s =
       (0 <? List.length (filter (matches f) (fst p)),
        set_hasMoreKeys (nonempty (snd p))
          (add_keys (filter (matches f) (fst p)) s))).
Proof.
  intros WF (Ps & Pf & pre0 & post0 & RK & D & M & NE) More.
  assert (NE' : displayedKeys s <> []).
  { apply NE. apply nonempty_true. congruence. }
  split.
  - destruct (@filter_last_split _ (matches f) pre0 [])
      as (l1 & k & l2 & E0 & Mk & F2 & L & FE); [congruence|].
    exists l1, (l2 ++ post0). rewrite D, L, RK, E0, <- app_assoc. reflexivity.
  - intros pre post E.
    pose proof (@loadNextPage_spec _ db s pre post (last (displayedKeys s) [])
                  WF More NE' eq_refl E) as LS.
    rewrite Pf, Ps in LS. exact LS.
Qed.

Lemma Inv_extend (db : leveldb.DB) (f : bytes) (ps : nat) (s : Session) :
  WellFormed db -> Inv db f ps s -> Inv db f ps (snd (loadNextPage db s)).
Proof.
  intros WF I. destruct (hasMoreKeys s) eqn:More.
  - destruct (extend_spec WF I More) as (pre & a & b & RK & D & NE & TP & E).
    rewrite E. destruct I as (Ps & Pf & _). unfold Inv. simpl.
    repeat split; auto.
    exists (pre ++ a), b. rewrite <- app_assoc, filter_app, D.
    repeat split; auto.
    intros _ E0. apply app_eq_nil in E0. rewrite <- D in E0. tauto.
  - rewrite loadNextPage_noop; auto.
Qed.

Lemma Reachable_Inv (db : leveldb.DB) (f : bytes) (ps : nat) (s : Session) :
  WellFormed db -> 0 < ps -> Reachable db f ps s -> Inv db f ps s.
Proof.
  intros WF Hps R. induction R as [s0 E|s R IH|s i R IH|s key R IH|s fs R IH|s m R IH].
  - subst ps. apply Inv_first; auto.
  - apply Inv_extend; auto.
  - exact IH.
  - destruct (showKeyValue_pager db key s) as (D & P & M & S).
    unfold Inv in *. rewrite D, P, M, S. exact IH.
  - destruct (dumpCurrentKey_pager db s fs) as (D & P & M & S).
    unfold Inv in *. rewrite D, P, M, S. exact IH.
  - exact IH.
Qed.

(** Whatever the store and the page size, a page holds matches only. *)
Lemma Reachable_matches (db : leveldb.DB) (f : bytes) (ps : nat) (s : Session) :
  Reachable db f ps s ->
  currentPrefix s = f /\ Forall (fun k => matches f k = true) (displayedKeys s).
Proof.
  intros R. induction R as [s0 E|s R IH|s i R IH|s key R IH|s fs R IH|s m R IH].
  - unfold searchChanged.
    destruct (loadInitialKeys_appends db (set_currentPrefix f s0)) as (F & P & _).
    simpl in *. auto.
  - destruct IH as [P F].
    destruct (loadNextPage_appends db s) as (new & D & Fn & _ & _ & P' & _).
    rewrite D, P', P in *. split; auto. apply Forall_app; auto.
  - exact IH.
  - destruct (showKeyValue_pager db key s) as (D & P & _). rewrite D, P. exact IH.
  - destruct (dumpCurrentKey_pager db s fs) as (D & P & _). rewrite D, P. exact IH.
  - exact IH.
Qed.

End Invariant.

(** ** The pager: filtering, order, page size, the more-available flag *)

Lemma scenarioA_WellFormed : WellFormed scenarioA.
Proof. unfold WellFormed. vm_compute. repeat (constructor; try reflexivity). Qed.

Lemma sparse_WellFormed : WellFormed sparse.
Proof. unfold WellFormed. vm_compute. repeat (constructor; try reflexivity). Qed.

(** Whether a scan left keys behind, read off the store and the page. *)
Lemma scan_more_iff (m : bytes -> bool) (ps : nat) (before l : list bytes) :
  0 < ps ->
  let p := take_page m ps l in
  nonempty (snd p) = true <->
  exists pre k post, before ++ l = pre ++ k :: post /\
    filter m before ++ filter m (fst p) = filter m pre /\
    List.length (filter m (fst p)) = ps.
Proof.
  intros Hps p. pose proof (take_page_app m l ps) as TA.
  pose proof (take_page_count m l ps) as [_ TC]. fold p in TA, TC.
  split.
  - intros NE. apply nonempty_true in NE.
    destruct (snd p) as [|k post] eqn:Sp; [congruence|].
    exists (before ++ fst p), k, post. rewrite filter_app, <- app_assoc, <- TA.
    repeat split; auto.
  - intros (pre & k & post & E & F & L).
    destruct (snd p) as [|k' post'] eqn:Sp; [exfalso|reflexivity].
    rewrite app_nil_r in TA.
    destruct (take_page_full m l Hps L) as (a' & x & Ea & Mx). fold p in Ea.
    assert (In x (k :: post)).
    { apply app_last_in with (l1 := pre) (l := before ++ a'); [|discriminate].
      rewrite <- app_assoc, <- Ea, <- TA. exact E. }
    assert (F2 : filter m (k :: post) = []).
    { assert (E2 : filter m (before ++ l) = filter m (pre ++ k :: post)) by congruence.
      rewrite !filter_app, TA, F in E2.
      rewrite <- (app_nil_r (filter m pre)) in E2 at 1.
      apply app_inv_head in E2. auto. }
    rewrite (filter_nil_forall m _ F2 x) in Mx; auto. discriminate.
Qed.

Section Pager_properties.
Context `{UnicodeTables}.

(** C1.  Under a filter [f], every key of every page, from the first-page
    load or from any extend, contains [f] as a substring once both are
    lower-cased; and the empty filter accepts every key. *)
Theorem page_keys_contain_filter (db : leveldb.DB) (f : bytes) (ps : nat)
    (s : Session) :
  Reachable db f ps s ->
  (forall key, In key (displayedKeys s) -> ci_contains key f) /\
  (forall key, matches [] key = true /\ ci_contains key []).
Proof.
  intros R. split.
  - destruct (Reachable_matches R) as [_ F]. rewrite Forall_forall in F.
    intros key Hk. apply matches_ci_contains. auto.
  - intros key. split; [reflexivity|]. apply matches_ci_contains. reflexivity.
Qed.

(** C2.  Under a fixed filter the keys of the page, first page and extends
    together, are strictly increasing in store order and without
    repetition; they are exactly the matches of an initial segment of the
    store, so every stored matching key below a returned key has been
    returned; and an extend only appends to them. *)
Theorem pages_strictly_increasing (db : leveldb.DB) (f : bytes) (ps : nat)
    (s : Session) :
  WellFormed db -> 0 < ps -> Reachable db f ps s ->
  StronglySorted key_lt (displayedKeys s) /\
  NoDup (displayedKeys s) /\
  (exists pre post, leveldb.keys db = pre ++ post /\
                    displayedKeys s = filter (matches f) pre) /\
  (forall k k2, In k2 (displayedKeys s) -> In k (leveldb.keys db) ->
                matches f k = true -> key_lt k k2 -> In k (displayedKeys s)) /\
  (exists new, displayedKeys (snd (loadNextPage db s)) = displayedKeys s ++ new).
Proof.
  intros WF Hps R.
  destruct (Reachable_Inv WF Hps R) as (_ & _ & pre & post & RK & D & _).
  assert (K : leveldb.keys db = pre ++ (post ++ skipn (limit db) (leveldb.keys db))).
  { rewrite keys_split at 1. rewrite RK, <- app_assoc. reflexivity. }
  assert (S : StronglySorted key_lt (displayedKeys s)).
  { rewrite D. apply sorted_filter. unfold WellFormed in WF. rewrite K in WF.
    eapply sorted_app_l; eauto. }
  repeat split; auto.
  - apply sorted_NoDup; auto.
  - eauto.
  - intros k k2 H2 Hk Mk Lt. rewrite D in *. apply filter_In. split; auto.
    rewrite K in Hk. apply in_app_or in Hk. destruct Hk as [Hk|Hk]; auto.
    apply filter_In in H2. destruct H2 as [H2 _].
    unfold WellFormed in WF. rewrite K in WF.
    destruct (key_lt_asym Lt). eapply sorted_app_lt; eauto.
  - destruct (loadNextPage_appends db s) as (new & E & _). eauto.
Qed.

(** C3, as the code has it.  One scan collects at most [pageSize] keys: a
    first-page load leaves at most [pageSize] keys in the page and an extend
    appends at most [pageSize] keys to it; and the scan collects exactly
    [pageSize] keys whenever some matching key the iterator can read is
    still missing from the page after it. *)
Theorem page_size_per_scan (db : leveldb.DB) (f : bytes) (ps : nat) :
  WellFormed db -> 0 < ps ->
  (forall s0, pageSize s0 = ps ->
     let s := searchChanged db f s0 in
     List.length (displayedKeys s) <= ps /\
     ((exists k, In k (readable_keys db) /\ matches f k = true /\
                 ~ In k (displayedKeys s)) ->
      List.length (displayedKeys s) = ps)) /\
  (forall s, Reachable db f ps s ->
     let s' := snd (loadNextPage db s) in
     List.length (displayedKeys s') <= List.length (displayedKeys s) + ps /\
     ((exists k, In k (readable_keys db) /\ matches f k = true /\
                 ~ In k (displayedKeys s')) ->
      List.length (displayedKeys s') = List.length (displayedKeys s) + ps)).
Proof.
  intros WF Hps. split.
  - intros s0 E s. subst s ps. unfold searchChanged.
    destruct (@loadInitialKeys_spec _ db (set_currentPrefix f s0)) as (D & _); auto.
    simpl in D. rewrite D.
    pose proof (take_page_count (matches f) (readable_keys db) (pageSize s0)) as [C1 C2].
    split; auto. intros (k & Hk & Mk & Nk). apply C2. intros E.
    rewrite (take_page_app (matches f) (readable_keys db) (pageSize s0)), E,
      app_nil_r in Hk.
    apply Nk. apply filter_In. auto.
  - intros s R s'. subst s'. pose proof (Reachable_Inv WF Hps R) as I.
    destruct (hasMoreKeys s) eqn:More.
    + destruct (extend_spec WF I More) as (pre & a & b & RK & D & NE & TP & E).
      rewrite E. simpl. rewrite length_app.
      pose proof (take_page_count (matches f) (a ++ b) ps) as [C1 C2].
      rewrite TP in C1, C2. simpl in C1, C2. split; [lia|].
      intros (k & Hk & Mk & Nk). rewrite C2; auto. intros ->.
      apply Nk. rewrite D, <- filter_app. apply filter_In.
      rewrite RK, app_nil_r in Hk. auto.
    + rewrite loadNextPage_noop; auto. simpl. split; [lia|].
      intros (k & Hk & Mk & Nk). exfalso. apply Nk.
      destruct I as (_ & _ & pre & post & RK & D & M & _).
      rewrite More in M. destruct post; [|discriminate].
      rewrite RK, app_nil_r in Hk. rewrite D. apply filter_In. auto.
Qed.

(** C4.  A scan goes over the raw keys the iterator can read, up to and
    including the key that fills the page; [take_page] gives the keys
    scanned and the keys left.  After a first-page load the page holds the
    matches among the keys scanned from the start and the more-available
    flag is set exactly when a raw key is left, whether it matches the
    filter or not.  An extend that runs scans on behind the last key of the
    page, appends the matches among the keys it scanned, and sets the flag
    in the same way.  Read off the page afterwards, the flag is set exactly
    when the scan collected a full page's worth of keys and the iterator
    can read one more raw key past the scanned segment.  The store [sparse]
    under the filter "a" shows the flag set with no match left; the extend
    that follows appends nothing and answers false. *)
Theorem more_flag_is_raw_lookahead (db : leveldb.DB) (f : bytes) (ps : nat) :
  WellFormed db -> 0 < ps ->
  (forall s0, pageSize s0 = ps ->
     let s := searchChanged db f s0 in
     let p := take_page (matches f) ps (readable_keys db) in
     displayedKeys s = filter (matches f) (fst p) /\
     hasMoreKeys s = nonempty (snd p)) /\
  (forall s, Reachable db f ps s -> hasMoreKeys s = true ->
     (exists pre post,
        readable_keys db = pre ++ last (displayedKeys s) [] :: post) /\
     (forall pre post,
        readable_keys db = pre ++ last (displayedKeys s) [] :: post ->
        let p := take_page (matches f) ps post in
        let s' := snd (loadNextPage db s) in
        displayedKeys s' = displayedKeys s ++ filter (matches f) (fst p) /\
        hasMoreKeys s' = nonempty (snd p))) /\
  (forall s0, pageSize s0 = ps ->
     let s := searchChanged db f s0 in
     hasMoreKeys s = true <->
     exists pre k post, readable_keys db = pre ++ k :: post /\
       displayedKeys s = filter (matches f) pre /\
       List.length (displayedKeys s) = ps) /\
  (forall s, Reachable db f ps s ->
     let s' := snd (loadNextPage db s) in
     hasMoreKeys s' = true <->
     exists pre k post, readable_keys db = pre ++ k :: post /\
       displayedKeys s' = filter (matches f) pre /\
       List.length (displayedKeys s') = List.length (displayedKeys s) + ps) /\
  (let s := searchChanged sparse (str "a") (set_pageSize 1 initial) in
   hasMoreKeys s = true /\
   (forall k, In k (leveldb.keys sparse) -> matches (str "a") k = true ->
              In k (displayedKeys s)) /\
   fst (loadNextPage sparse s) = false /\
   displayedKeys (snd (loadNextPage sparse s)) = displayedKeys s).
Proof.
  intros WF Hps. split; [|split; [|split; [|split]]].
  - intros s0 E s p. subst s p ps. unfold searchChanged.
    destruct (@loadInitialKeys_spec _ db (set_currentPrefix f s0)) as (D & M & _); auto.
  - intros s R More. pose proof (Reachable_Inv WF Hps R) as I.
    destruct (extend_from_last WF I More) as [Ex U]. split; [exact Ex|].
    intros pre post E p s'. subst s' p. rewrite (U pre post E).
    split; reflexivity.
  - intros s0 E s. subst s ps. unfold searchChanged.
    destruct (@loadInitialKeys_spec _ db (set_currentPrefix f s0)) as (D & M & _); auto.
    simpl in D, M. rewrite D, M.
    apply (scan_more_iff (matches f) [] (readable_keys db) Hps).
  - intros s R s'. subst s'. pose proof (Reachable_Inv WF Hps R) as I.
    destruct (hasMoreKeys s) eqn:More.
    + destruct (extend_spec WF I More) as (pre & a & b & RK & D & NE & TP & E).
      rewrite E. simpl. rewrite length_app, RK, D.
      pose proof (scan_more_iff (matches f) pre (a ++ b) Hps) as SM.
      rewrite TP in SM. simpl in SM. rewrite SM.
      split; intros (pre' & k & post & E1 & E2 & E3); exists pre', k, post;
        repeat split; auto; lia.
    + rewrite loadNextPage_noop; auto. simpl. rewrite More.
      split; [discriminate|]. intros (pre & k & post & _ & _ & L). lia.
  - cbv zeta. split; [vm_compute; reflexivity|].
    split; [|split; vm_compute; reflexivity].
    intros k Hk. vm_compute in Hk. destruct Hk as [<-|[<-|[]]]; vm_compute.
    + auto.
    + discriminate.
Qed.

(** C5.  An extend called while the more-available flag is false, or while
    the page is empty, changes nothing and answers false; in every case it
    only appends to the page, and it answers true exactly when it appended
    at least one key. *)
Theorem extend_noop_and_result (db : leveldb.DB) (s : Session) :
  (hasMoreKeys s = false \/ displayedKeys s = [] ->
   loadNextPage db s = (false, s)) /\
  (exists new,
     displayedKeys (snd (loadNextPage db s)) = displayedKeys s ++ new /\
     (fst (loadNextPage db s) = true <-> new <> [])).
Proof.
  split.
  - apply loadNextPage_noop.
  - destruct (loadNextPage_appends db s) as (new & E & _ & R & _). eauto.
Qed.

End Pager_properties.

(** Instances on the store [scenarioA]. *)

Lemma page_keys_contain_filter_witness :
  let s := snd (@loadNextPage asciiLower scenarioA
                  (@searchChanged asciiLower scenarioA (str "A")
                     (set_pageSize 1 initial))) in
  @Reachable asciiLower scenarioA (str "A") 1 s /\
  (forall key, In key (displayedKeys s) -> @ci_contains asciiLower key (str "A")).
Proof.
  cbv zeta.
  assert (R : @Reachable asciiLower scenarioA (str "A") 1
                (snd (@loadNextPage asciiLower scenarioA
                        (@searchChanged asciiLower scenarioA (str "A")
                           (set_pageSize 1 initial))))).
  { apply reach_extend, reach_first. reflexivity. }
  split; [exact R|].
  exact (proj1 (@page_keys_contain_filter asciiLower _ _ _ _ R)).
Defined.

Lemma pages_strictly_increasing_witness :
  let s := snd (@loadNextPage asciiLower scenarioA
                  (@searchChanged asciiLower scenarioA []
                     (set_pageSize 2 initial))) in
  WellFormed scenarioA /\ 0 < 2 /\ @Reachable asciiLower scenarioA [] 2 s /\
  StronglySorted key_lt (displayedKeys s) /\ NoDup (displayedKeys s).
Proof.
  cbv zeta.
  assert (R : @Reachable asciiLower scenarioA [] 2
                (snd (@loadNextPage asciiLower scenarioA
                        (@searchChanged asciiLower scenarioA []
                           (set_pageSize 2 initial))))).
  { apply reach_extend, reach_first. reflexivity. }
  assert (P : 0 < 2) by lia.
  split; [exact scenarioA_WellFormed|]. split; [exact P|]. split; [exact R|].
  destruct (@pages_strictly_increasing asciiLower _ _ _ _ scenarioA_WellFormed P R)
    as (S & N & _).
  split; [exact S|exact N].
Defined.

Lemma page_size_per_scan_witness :
  WellFormed scenarioA /\ 0 < 2 /\
  List.length (displayedKeys (@searchChanged asciiLower scenarioA []
                                (set_pageSize 2 initial))) <= 2.
Proof.
  assert (P : 0 < 2) by lia.
  split; [exact scenarioA_WellFormed|]. split; [exact P|].
  exact (proj1 (proj1 (@page_size_per_scan asciiLower scenarioA [] 2
                         scenarioA_WellFormed P)
                  (set_pageSize 2 initial) eq_refl)).
Defined.

(** C3, as stated, fails: after the first page and one extend on
    [scenarioA] with a page size of 2, the page holds three keys. *)
Lemma page_exceeds_page_size :
  let s := snd (@loadNextPage asciiLower scenarioA
                  (@searchChanged asciiLower scenarioA []
                     (set_pageSize 2 initial))) in
  @Reachable asciiLower scenarioA [] 2 s /\
  pageSize s = 2 /\ List.length (displayedKeys s) = 3.
Proof.
  cbv zeta. split; [|split; vm_compute; reflexivity].
  apply reach_extend, reach_first. reflexivity.
Qed.

Lemma more_flag_is_raw_lookahead_witness :
  let s := @searchChanged asciiLower scenarioA [] (set_pageSize 2 initial) in
  let p := take_page (@matches asciiLower []) 2 (readable_keys scenarioA) in
  WellFormed scenarioA /\ 0 < 2 /\
  displayedKeys s = filter (@matches asciiLower []) (fst p) /\
  hasMoreKeys s = nonempty (snd p).
Proof.
  cbv zeta. assert (P : 0 < 2) by lia.
  split; [exact scenarioA_WellFormed|]. split; [exact P|].
  exact (proj1 (@more_flag_is_raw_lookahead asciiLower scenarioA [] 2
                  scenarioA_WellFormed P)
           (set_pageSize 2 initial) eq_refl).
Defined.

(** ** The value renderer *)

Lemma b2z_range (c : ascii) : (0 <= b2z c < 256)%Z.
Proof. destruct c as [[] [] [] [] [] [] [] []]; vm_compute; split; congruence. Qed.

Lemma z2b_b2z (c : ascii) : z2b (b2z c) = c.
Proof. destruct c as [[] [] [] [] [] [] [] []]; reflexivity. Qed.

Lemma DecodeRune_ascii (c : ascii) (l : bytes) :
  (b2z c < 128)%Z -> utf8.DecodeRune (c :: l) = (b2z c, 1).
Proof.
  intros L. unfold utf8.DecodeRune, utf8.first.
  destruct (Z.ltb_spec (b2z c) 128); [reflexivity|lia].
Qed.

Lemma EncodeRune_ascii (c : ascii) :
  (b2z c < 128)%Z -> utf8.EncodeRune (b2z c) = [c].
Proof.
  intros L. pose proof (b2z_range c). unfold utf8.EncodeRune, utf8.rune1Max.
  destruct (Z.leb_spec 0 (b2z c)); [|lia].
  destruct (Z.leb_spec (b2z c) 127); [|lia].
  simpl. rewrite z2b_b2z. reflexivity.
Qed.

Lemma printable_range (c : ascii) :
  printable c = true -> (32 <= b2z c <= 126)%Z.
Proof. unfold printable. rewrite andb_true_iff, !Z.leb_le. tauto. Qed.

Lemma skipn_length_app (A : Type) (l1 l2 : list A) :
  skipn (List.length l1) (l1 ++ l2) = l2.
Proof. induction l1; simpl; auto. Qed.

(** On printable ASCII the loop copies each byte and buffers nothing. *)
Lemma mixedContentDisplay_loop_printable (suf : bytes) :
  forall (fuel : nat) (pre result : bytes),
  Forall (fun c => printable c = true) suf -> List.length suf <= fuel ->
  mixedContentDisplay_loop fuel (pre ++ suf) (List.length pre) result [] =
    (result ++ suf, []).
Proof.
  induction suf as [|c suf IH]; intros fuel pre result F L.
  - rewrite !app_nil_r. destruct fuel; simpl; auto.
    rewrite Nat.ltb_irrefl. reflexivity.
  - destruct fuel as [|fuel]; [simpl in L; lia|].
    inversion F as [|? ? Pc F']; subst. apply printable_range in Pc.
    cbn [mixedContentDisplay_loop].
    destruct (Nat.ltb_spec (List.length pre) (List.length (pre ++ c :: suf)))
      as [_|G]; [|rewrite length_app in G; simpl in G; lia].
    rewrite skipn_length_app, DecodeRune_ascii by lia.
    assert (E1 : (b2z c =? utf8.RuneError)%Z = false)
      by (apply Z.eqb_neq; unfold utf8.RuneError; lia).
    assert (E2 : unicode.IsControl (b2z c) = false).
    { unfold unicode.IsControl, unicode.MaxLatin1.
      destruct (Z.leb_spec 0 (b2z c)); [|lia].
      destruct (Z.leb_spec (b2z c) 255); [|lia]. simpl.
      destruct (Z.leb_spec (b2z c) 31); [lia|].
      destruct (Z.leb_spec 127 (b2z c)); [lia|]. reflexivity. }
    rewrite E1, E2. cbn [andb flushBinary List.length Nat.ltb Nat.leb].
    rewrite EncodeRune_ascii by lia.
    replace (pre ++ c :: suf) with ((pre ++ [c]) ++ suf)
      by (rewrite <- app_assoc; reflexivity).
    replace (List.length pre + 1) with (List.length (pre ++ [c]))
      by (rewrite length_app; reflexivity).
    rewrite IH; auto; [|simpl in L; lia].
    rewrite <- app_assoc. reflexivity.
Qed.

Lemma mixedContentDisplay_printable (value : bytes) :
  Forall (fun c => printable c = true) value -> mixedContentDisplay value = value.
Proof.
  intros F. unfold mixedContentDisplay.
  pose proof (@mixedContentDisplay_loop_printable value (List.length value) [] []
                F (Nat.le_refl _)) as E.
  simpl in E. rewrite E. reflexivity.
Qed.

(** C8, as the code has it.  Mixed-content rendering returns every sequence
    of printable ASCII characters unchanged, and so does [formatValue] for
    every such sequence that is not valid JSON; valid JSON is re-indented
    instead. *)
Theorem printable_ascii_unchanged (value : bytes) :
  Forall (fun c => printable c = true) value ->
  mixedContentDisplay value = value /\
  (json.Valid value = false -> formatValue value = value).
Proof.
  intros F. split.
  - apply mixedContentDisplay_printable; auto.
  - intros NV. unfold formatValue. rewrite NV.
    apply mixedContentDisplay_printable; auto.
Qed.

Lemma printable_ascii_unchanged_witness :
  Forall (fun c => printable c = true) (str "hello, world") /\
  json.Valid (str "hello, world") = false /\
  formatValue (str "hello, world") = str "hello, world".
Proof.
  assert (F : Forall (fun c => printable c = true) (str "hello, world")).
  { repeat (constructor; [reflexivity|]). constructor. }
  assert (V : json.Valid (str "hello, world") = false) by reflexivity.
  split; [exact F|]. split; [exact V|].
  exact (proj2 (printable_ascii_unchanged F) V).
Defined.

(** C8, as stated, fails: the printable ASCII text [[1,2]] is valid JSON
    and is rendered on four lines. *)
Lemma printable_json_is_reindented :
  forallb printable (str "[1,2]") = true /\
  formatValue (str "[1,2]") = str "[" ++ nl ++ str "  1," ++ nl ++ str "  2" ++ nl ++ str "]" /\
  bytes_eqb (formatValue (str "[1,2]")) (str "[1,2]") = false.
Proof. vm_compute. auto. Qed.

(** ** The file name of an export *)

(** Decide every integer comparison the goal branches on. *)
Ltac case_compare :=
  repeat match goal with
         | |- context [(?a <? ?b)%Z] => destruct (Z.ltb_spec a b)
         | |- context [(?a =? ?b)%Z] => destruct (Z.eqb_spec a b)
         end.

(** Close a branch of [DecodeRune] that answers [RuneError] with width 1. *)
Ltac invalid_byte := intros E; inversion E; subst; auto.

Section FileName.
Local Open Scope Z_scope.

Lemma b2z_z2b (z : Z) : b2z (z2b z) = Z.land z 255.
Proof.
  unfold b2z, z2b.
  assert (R : 0 <= Z.land z 255 < 256).
  { change 255 with (Z.ones 8). rewrite Z.land_ones by lia.
    apply Z.mod_pos_bound. reflexivity. }
  rewrite N_ascii_embedding.
  - apply Z2N.id. lia.
  - change 256%N with (Z.to_N 256). apply Z2N.inj_lt; lia.
Qed.

Lemma b2z_z2b_small (z : Z) : 0 <= z < 256 -> b2z (z2b z) = z.
Proof.
  intros R. rewrite b2z_z2b. change 255 with (Z.ones 8).
  rewrite Z.land_ones by lia. apply Z.mod_small. exact R.
Qed.

(** A byte built by or-ing a marker with its top bit set is not ASCII. *)
Lemma high_bit (t x : Z) :
  Z.testbit t 7 = true -> 128 <= b2z (z2b (Z.lor t x)).
Proof.
  intros T. rewrite b2z_z2b.
  assert (B : Z.testbit (Z.land (Z.lor t x) 255) 7 = true).
  { rewrite Z.land_spec, Z.lor_spec, T. reflexivity. }
  assert (R : 0 <= Z.land (Z.lor t x) 255 < 256).
  { change 255 with (Z.ones 8). rewrite Z.land_ones by lia.
    apply Z.mod_pos_bound. reflexivity. }
  apply Z.testbit_true in B; [|lia]. change (2 ^ 7) with 128 in B.
  destruct (Z_lt_le_dec (Z.land (Z.lor t x) 255) 128) as [L|L]; auto.
  rewrite Z.div_small, Z.mod_0_l in B by lia. discriminate.
Qed.

Lemma replaced_high (c : ascii) : 128 <= b2z c -> replaced c = false.
Proof.
  intros L. unfold replaced.
  repeat match goal with
         | |- context [?a <? ?b] => destruct (Z.ltb_spec a b); [lia|]
         | |- context [?a =? ?b] => destruct (Z.eqb_spec a b); [lia|]
         end.
  reflexivity.
Qed.

Lemma sanitize_spec (c : ascii) :
  sanitize (b2z c) = if replaced c then 95 else b2z c.
Proof. reflexivity. Qed.

Lemma EncodeRune_high (r : rune) :
  ~ (0 <= r <= 127) -> Forall (fun c => 128 <= b2z c) (utf8.EncodeRune r).
Proof.
  intros NR. unfold utf8.EncodeRune, utf8.rune1Max.
  destruct ((0 <=? r) && (r <=? 127)) eqn:A.
  { apply andb_true_iff in A. rewrite !Z.leb_le in A. lia. }
  destruct ((0 <=? r) && (r <=? utf8.rune2Max)).
  { repeat constructor; apply high_bit; reflexivity. }
  destruct ((r <? 0) || (utf8.MaxRune <? r)
            || ((utf8.surrogateMin <=? r) && (r <=? utf8.surrogateMax))).
  { repeat constructor; apply high_bit; reflexivity. }
  destruct (r <=? utf8.rune3Max); repeat constructor; apply high_bit; reflexivity.
Qed.

(** Whatever rune the mapping is given, what is written holds no replaced
    character. *)
Lemma emit_sanitize_allowed (r : rune) :
  Forall (fun c => replaced c = false) (strings.emit (sanitize r)).
Proof.
  unfold strings.emit. destruct (Z.leb_spec 0 (sanitize r)) as [P|P]; [|constructor].
  destruct (Z_le_dec (sanitize r) 127) as [L|L].
  - unfold utf8.EncodeRune, utf8.rune1Max.
    destruct (Z.leb_spec 0 (sanitize r)); [|lia].
    destruct (Z.leb_spec (sanitize r) 127); [|lia]. simpl.
    constructor; [|constructor].
    unfold replaced. rewrite b2z_z2b_small by lia.
    unfold sanitize in *.
    destruct ((r <? 32) || (r =? 47) || (r =? 92) || (r =? 58) || (r =? 42)
              || (r =? 63) || (r =? 34) || (r =? 60) || (r =? 62) || (r =? 124))
      eqn:C; [reflexivity|exact C].
  - eapply Forall_impl; [|apply EncodeRune_high; lia].
    intros c. apply replaced_high.
Qed.

Lemma Map_tail_allowed (s : bytes) :
  Forall (fun c => replaced c = false) (strings.Map_tail sanitize s).
Proof.
  unfold strings.Map_tail. induction (utf8.runes s) as [|r l IH]; simpl.
  - constructor.
  - apply Forall_app. split; auto. apply emit_sanitize_allowed.
Qed.

Lemma first_multi (p0 : Z) (sz : nat) (lo hi : Z) :
  utf8.first p0 = utf8.LeadMulti sz lo hi -> 128 <= p0 /\ 128 <= lo.
Proof.
  unfold utf8.first, utf8.locb.
  case_compare; intros E; inversion E; subst; lia.
Qed.

(** What [DecodeRune] can answer on a non-empty input: an ASCII byte, an
    invalid byte, or a sequence of two to four bytes none of which is
    ASCII. *)
Lemma DecodeRune_cases (c0 : ascii) (s : bytes) (r : rune) (w : nat) :
  utf8.DecodeRune (c0 :: s) = (r, w) ->
  (w = 1%nat /\ r = b2z c0 /\ b2z c0 < 128) \/
  (w = 1%nat /\ r = utf8.RuneError) \/
  (Forall (fun c => 128 <= b2z c) (firstn w (c0 :: s)) /\ (1 <= w)%nat).
Proof.
  unfold utf8.DecodeRune.
  destruct (utf8.first (b2z c0)) as [| |sz lo hi] eqn:F.
  - intros E; inversion E; subst. left. repeat split.
    revert F. unfold utf8.first. case_compare; auto; discriminate.
  - invalid_byte.
  - apply first_multi in F. destruct F as [P0 Lo].
    destruct (_ <? sz)%nat; [invalid_byte|].
    destruct s as [|c1 s]; [invalid_byte|].
    destruct (Z.ltb_spec (b2z c1) lo); simpl orb; [invalid_byte|].
    destruct (hi <? b2z c1); [invalid_byte|].
    destruct (sz <=? 2)%nat.
    { intros E; inversion E; subst. right; right. split; [|lia].
      simpl. repeat constructor; lia. }
    destruct s as [|c2 s]; [invalid_byte|].
    unfold utf8.locb.
    destruct (Z.ltb_spec (b2z c2) 128); simpl orb; [invalid_byte|].
    destruct (utf8.hicb <? b2z c2); [invalid_byte|].
    destruct (sz <=? 3)%nat.
    { intros E; inversion E; subst. right; right. split; [|lia].
      simpl. repeat constructor; lia. }
    destruct s as [|c3 s]; [invalid_byte|].
    destruct (Z.ltb_spec (b2z c3) 128); simpl orb; [invalid_byte|].
    destruct (utf8.hicb <? b2z c3); [invalid_byte|].
    intros E; inversion E; subst. right; right. split; [|lia].
    simpl. repeat constructor; lia.
Qed.

Lemma Map_scan_allowed (fuel : nat) :
  forall s, Forall (fun c => replaced c = false) (strings.Map_scan fuel sanitize s).
Proof.
  induction fuel as [|fuel IH]; intros s; simpl; [constructor|].
  destruct s as [|c0 s]; [constructor|].
  destruct (utf8.DecodeRune (c0 :: s)) as [r w] eqn:D.
  destruct ((sanitize r =? r) && _)%bool eqn:C.
  - apply Forall_app. split; auto.
    apply andb_true_iff in C. destruct C as [C1 C2]. apply Z.eqb_eq in C1.
    destruct (DecodeRune_cases _ _ D) as [(-> & -> & L)|[(-> & ->)|[H _]]].
    + simpl. constructor; [|constructor].
      rewrite sanitize_spec in C1. destruct (replaced c0) eqn:Rc; auto.
      unfold replaced in Rc. rewrite <- C1 in Rc. discriminate.
    + rewrite Z.eqb_refl in C2. discriminate.
    + eapply Forall_impl; [|exact H]. intros c. apply replaced_high.
  - apply Forall_app. split; [apply emit_sanitize_allowed|apply Map_tail_allowed].
Qed.

End FileName.

(** On an ASCII key the mapping works byte by byte. *)

Lemma runes_fuel_ascii (s : bytes) :
  forall fuel, Forall (fun c => (b2z c < 128)%Z) s -> List.length s <= fuel ->
  utf8.runes_fuel fuel s = map b2z s.
Proof.
  induction s as [|c s IH]; intros fuel F L.
  - destruct fuel; reflexivity.
  - destruct fuel as [|fuel]; [simpl in L; lia|].
    inversion F; subst. cbn [utf8.runes_fuel].
    rewrite DecodeRune_ascii by auto. simpl. rewrite IH; auto. simpl in L; lia.
Qed.

Lemma emit_sanitize_ascii (c : ascii) :
  (b2z c < 128)%Z ->
  strings.emit (sanitize (b2z c)) = [if replaced c then "_"%char else c].
Proof.
  intros L. rewrite sanitize_spec. destruct (replaced c); [reflexivity|].
  unfold strings.emit. pose proof (b2z_range c).
  destruct (Z.leb_spec 0 (b2z c)); [|lia]. apply EncodeRune_ascii; auto.
Qed.

Lemma Map_tail_ascii (s : bytes) :
  Forall (fun c => (b2z c < 128)%Z) s ->
  strings.Map_tail sanitize s = map (fun c => if replaced c then "_"%char else c) s.
Proof.
  intros F. unfold strings.Map_tail, utf8.runes.
  rewrite runes_fuel_ascii; auto.
  induction F as [|c s L F IH]; simpl; auto.
  rewrite emit_sanitize_ascii, IH; auto.
Qed.

Lemma Map_scan_ascii (s : bytes) :
  forall fuel, Forall (fun c => (b2z c < 128)%Z) s -> List.length s <= fuel ->
  strings.Map_scan fuel sanitize s =
    map (fun c => if replaced c then "_"%char else c) s.
Proof.
  induction s as [|c s IH]; intros fuel F L.
  - destruct fuel; reflexivity.
  - destruct fuel as [|fuel]; [simpl in L; lia|].
    inversion F as [|? ? Lc F']; subst. cbn [strings.Map_scan].
    rewrite DecodeRune_ascii by auto.
    assert (NE : (b2z c =? utf8.RuneError)%Z = false).
    { apply Z.eqb_neq. unfold utf8.RuneError. lia. }
    rewrite NE. cbn [negb orb]. rewrite andb_true_r.
    destruct (Z.eqb_spec (sanitize (b2z c)) (b2z c)) as [E|E].
    + cbn [firstn skipn app map]. rewrite IH; auto; [|simpl in L; lia].
      rewrite sanitize_spec in E. destruct (replaced c) eqn:Rc; auto.
      unfold replaced in Rc. rewrite <- E in Rc. discriminate.
    + cbn [skipn map]. rewrite emit_sanitize_ascii, Map_tail_ascii; auto.
Qed.

(** ** The fuel of the rune loops is never used up *)

Lemma DecodeRune_width (c0 : ascii) (s : bytes) :
  1 <= snd (utf8.DecodeRune (c0 :: s)).
Proof.
  destruct (utf8.DecodeRune (c0 :: s)) as [r w] eqn:D. simpl.
  destruct (DecodeRune_cases _ _ D) as [(-> & _)|[(-> & _)|[_ W]]]; lia.
Qed.

Lemma skipn_shorter (A : Type) (w : nat) (c : A) (s : list A) :
  1 <= w -> List.length (skipn w (c :: s)) <= List.length s.
Proof.
  intros W. rewrite length_skipn. cbn [List.length]. lia.
Qed.

Lemma runes_fuel_enough (fuel1 : nat) :
  forall (fuel2 : nat) (s : bytes),
  List.length s <= fuel1 -> List.length s <= fuel2 ->
  utf8.runes_fuel fuel1 s = utf8.runes_fuel fuel2 s.
Proof.
  induction fuel1 as [|fuel1 IH]; intros fuel2 s L1 L2.
  - destruct s; [|simpl in L1; lia]. destruct fuel2; reflexivity.
  - destruct s as [|c0 s]; [destruct fuel2; reflexivity|].
    destruct fuel2 as [|fuel2]; [simpl in L2; lia|].
    cbn [utf8.runes_fuel]. pose proof (DecodeRune_width c0 s) as W.
    destruct (utf8.DecodeRune (c0 :: s)) as [r w]. simpl in W.
    pose proof (skipn_shorter c0 s W). simpl in L1, L2.
    f_equal. apply IH; lia.
Qed.

Lemma Map_scan_fuel_enough (mapping : rune -> rune) (fuel1 : nat) :
  forall (fuel2 : nat) (s : bytes),
  List.length s <= fuel1 -> List.length s <= fuel2 ->
  strings.Map_scan fuel1 mapping s = strings.Map_scan fuel2 mapping s.
Proof.
  induction fuel1 as [|fuel1 IH]; intros fuel2 s L1 L2.
  - destruct s; [|simpl in L1; lia]. destruct fuel2; reflexivity.
  - destruct s as [|c0 s]; [destruct fuel2; reflexivity|].
    destruct fuel2 as [|fuel2]; [simpl in L2; lia|].
    cbn [strings.Map_scan]. pose proof (DecodeRune_width c0 s) as W.
    destruct (utf8.DecodeRune (c0 :: s)) as [r w]. simpl in W.
    pose proof (skipn_shorter c0 s W). simpl in L1, L2.
    destruct (_ && _)%bool; [|reflexivity].
    f_equal. apply IH; lia.
Qed.

Lemma mixedContentDisplay_loop_fuel_enough (value : bytes) (fuel1 : nat) :
  forall (fuel2 pos : nat) (result binaryBuffer : bytes),
  List.length value - pos <= fuel1 -> List.length value - pos <= fuel2 ->
  mixedContentDisplay_loop fuel1 value pos result binaryBuffer =
  mixedContentDisplay_loop fuel2 value pos result binaryBuffer.
Proof.
  induction fuel1 as [|fuel1 IH]; intros fuel2 pos result buf L1 L2.
  - destruct fuel2; [reflexivity|]. cbn [mixedContentDisplay_loop].
    destruct (Nat.ltb_spec pos (List.length value)); [lia|reflexivity].
  - destruct fuel2 as [|fuel2].
    + cbn [mixedContentDisplay_loop].
      destruct (Nat.ltb_spec pos (List.length value)); [lia|reflexivity].
    + cbn [mixedContentDisplay_loop].
      destruct (Nat.ltb_spec pos (List.length value)) as [P|P]; [|reflexivity].
      destruct (skipn pos value) as [|c0 s] eqn:Sk.
      { apply skipn_nil_inv in Sk. lia. }
      pose proof (DecodeRune_width c0 s) as W.
      destruct (utf8.DecodeRune (c0 :: s)) as [r w]. simpl in W.
      destruct (_ && _)%bool; [apply IH; lia|].
      destruct (unicode.IsControl r); [apply IH; lia|].
      destruct (flushBinary result buf). apply IH; lia.
Qed.

(** ** Decoding and encoding agree *)

Section Roundtrip.
Local Open Scope Z_scope.

Lemma all_ascii_complete (c : ascii) : In c all_ascii.
Proof.
  unfold all_ascii. rewrite <- (ascii_nat_embedding c).
  apply in_map, in_seq. pose proof (nat_ascii_bounded c). lia.
Qed.

Lemma forall_ascii (P : ascii -> bool) :
  forallb P all_ascii = true -> forall c, P c = true.
Proof.
  intros F c. rewrite forallb_forall in F. apply F, all_ascii_complete.
Qed.

Lemma reencodes_2 (c0 c1 : ascii) :
  lead_of 2 c0 = true -> second_ok c0 c1 = true -> reencodes [c0; c1] = true.
Proof.
  assert (B : forallb (fun c0 =>
                if lead_of 2 c0 then
                  forallb (fun c1 =>
                    if second_ok c0 c1 then reencodes [c0; c1] else true) all_ascii
                else true) all_ascii = true) by (vm_compute; reflexivity).
  intros L S. pose proof (forall_ascii _ B c0) as B0. cbv beta in B0.
  rewrite L in B0. pose proof (forall_ascii _ B0 c1) as B1. cbv beta in B1.
  rewrite S in B1. exact B1.
Qed.

Lemma reencodes_3 (c0 c1 c2 : ascii) :
  lead_of 3 c0 = true -> second_ok c0 c1 = true -> cont_ok c2 = true ->
  reencodes [c0; c1; c2] = true.
Proof.
  assert (B : forallb (fun c0 =>
                if lead_of 3 c0 then
                  forallb (fun c1 =>
                    if second_ok c0 c1 then
                      forallb (fun c2 =>
                        if cont_ok c2 then reencodes [c0; c1; c2] else true) all_ascii
                    else true) all_ascii
                else true) all_ascii = true) by (vm_compute; reflexivity).
  intros L S C. pose proof (forall_ascii _ B c0) as B0. cbv beta in B0.
  rewrite L in B0. pose proof (forall_ascii _ B0 c1) as B1. cbv beta in B1.
  rewrite S in B1. pose proof (forall_ascii _ B1 c2) as B2. cbv beta in B2.
  rewrite C in B2. exact B2.
Qed.

Lemma upper4_checked (c0 c1 c2 : ascii) :
  lead_of 4 c0 = true -> second_ok c0 c1 = true -> cont_ok c2 = true ->
  upper4_ok c0 c1 c2 = true.
Proof.
  assert (B : forallb (fun c0 =>
                if lead_of 4 c0 then
                  forallb (fun c1 =>
                    if second_ok c0 c1 then
                      forallb (fun c2 =>
                        if cont_ok c2 then upper4_ok c0 c1 c2 else true) all_ascii
                    else true) all_ascii
                else true) all_ascii = true) by (vm_compute; reflexivity).
  intros L S C. pose proof (forall_ascii _ B c0) as B0. cbv beta in B0.
  rewrite L in B0. pose proof (forall_ascii _ B0 c1) as B1. cbv beta in B1.
  rewrite S in B1. pose proof (forall_ascii _ B1 c2) as B2. cbv beta in B2.
  rewrite C in B2. exact B2.
Qed.

Lemma lower_checked (c3 : ascii) : cont_ok c3 = true -> lower_ok c3 = true.
Proof.
  assert (B : forallb (fun c3 => if cont_ok c3 then lower_ok c3 else true)
                all_ascii = true) by (vm_compute; reflexivity).
  intros C. pose proof (forall_ascii _ B c3) as B3. cbv beta in B3.
  rewrite C in B3. exact B3.
Qed.

Lemma reencodes_4 (c0 c1 c2 c3 : ascii) :
  lead_of 4 c0 = true -> second_ok c0 c1 = true -> cont_ok c2 = true ->
  cont_ok c3 = true ->
  utf8.EncodeRune (Z.lor (upper4 c0 c1 c2) (Z.land (b2z c3) utf8.maskx))
    = [c0; c1; c2; c3].
Proof.
  intros L S C2 C3.
  pose proof (upper4_checked _ _ _ L S C2) as U.
  pose proof (lower_checked _ C3) as D.
  unfold upper4_ok, lower_ok in U, D. cbv zeta in U, D.
  change utf8.maskx with 63.
  set (x := upper4 c0 c1 c2) in *. set (d := Z.land (b2z c3) 63) in *.
  repeat (apply andb_true_iff in U; destruct U as [U ?]).
  repeat (apply andb_true_iff in D; destruct D as [D ?]).
  repeat match goal with
         | H : (_ <=? _) = true |- _ => apply Z.leb_le in H
         | H : (_ =? _) = true |- _ => apply Z.eqb_eq in H
         | H : Ascii.eqb _ _ = true |- _ => apply Ascii.eqb_eq in H
         end.
  assert (Dd : Z.land d 63 = d).
  { unfold d. rewrite <- Z.land_assoc, Z.land_diag. reflexivity. }
  assert (Xd : Z.land x d = 0).
  { unfold d. rewrite (Z.land_comm (b2z c3)), Z.land_assoc.
    replace (Z.land x 63) with 0 by auto. apply Z.land_0_l. }
  assert (R : Z.lor x d = x + d).
  { rewrite <- Z.lxor_lor by exact Xd. symmetry. apply Z.add_nocarry_lxor. exact Xd. }
  assert (S18 : Z.shiftr (Z.lor x d) 18 = Z.shiftr x 18).
  { rewrite Z.shiftr_lor. replace (Z.shiftr d 18) with 0 by auto. apply Z.lor_0_r. }
  assert (S12 : Z.shiftr (Z.lor x d) 12 = Z.shiftr x 12).
  { rewrite Z.shiftr_lor. replace (Z.shiftr d 12) with 0 by auto. apply Z.lor_0_r. }
  assert (S6 : Z.shiftr (Z.lor x d) 6 = Z.shiftr x 6).
  { rewrite Z.shiftr_lor. replace (Z.shiftr d 6) with 0 by auto. apply Z.lor_0_r. }
  assert (S0 : Z.land (Z.lor x d) 63 = d).
  { rewrite Z.land_lor_distr_l. replace (Z.land x 63) with 0 by auto.
    rewrite Dd. apply Z.lor_0_l. }
  unfold utf8.EncodeRune, utf8.rune1Max, utf8.rune2Max, utf8.rune3Max,
    utf8.MaxRune, utf8.surrogateMin, utf8.surrogateMax, utf8.maskx.
  rewrite S18, S12, S6, S0. rewrite R.
  destruct (Z.leb_spec 0 (x + d)); [|lia].
  destruct (Z.leb_spec (x + d) 127); [lia|].
  destruct (Z.leb_spec (x + d) 2047); [lia|].
  destruct (Z.ltb_spec (x + d) 0); [lia|].
  destruct (Z.ltb_spec 1114111 (x + d)); [lia|].
  destruct (Z.leb_spec 55296 (x + d)); [|lia].
  destruct (Z.leb_spec (x + d) 57343); [lia|].
  destruct (Z.leb_spec (x + d) 65535); [lia|].
  cbn [andb orb]. congruence.
Qed.

End Roundtrip.

Section Exactness.
Local Open Scope Z_scope.

Lemma first_sz (p0 : Z) (sz : nat) (lo hi : Z) :
  utf8.first p0 = utf8.LeadMulti sz lo hi -> sz = 2%nat \/ sz = 3%nat \/ sz = 4%nat.
Proof.
  unfold utf8.first. case_compare; intros E; inversion E; auto.
Qed.

Lemma DecodeRune_nonneg (p : bytes) : 0 <= fst (utf8.DecodeRune p).
Proof.
  assert (M : forall a m, 0 <= m -> 0 <= Z.land a m)
    by (intros; apply Z.land_nonneg; auto).
  assert (S : forall a n, 0 <= a -> 0 <= Z.shiftl a n)
    by (intros; apply Z.shiftl_nonneg; auto).
  assert (O : forall a b, 0 <= a -> 0 <= b -> 0 <= Z.lor a b)
    by (intros; apply Z.lor_nonneg; auto).
  unfold utf8.DecodeRune, utf8.RuneError, utf8.mask2, utf8.mask3, utf8.mask4,
    utf8.maskx.
  destruct p as [|c0 p]; [simpl; lia|].
  pose proof (b2z_range c0).
  destruct (utf8.first (b2z c0)); [simpl; lia|simpl; lia|].
  repeat match goal with
         | |- context [if ?b then _ else _] => destruct b
         | |- context [match ?l with [] => _ | _ :: _ => _ end] => destruct l
         end; cbn [fst]; try lia;
    repeat first [apply O | apply S | apply M; lia].
Qed.

(** Close a branch in which [DecodeRune] answered [RuneError] with width 1
    although that answer is excluded. *)
Ltac excluded NE := intros E; inversion E; subst; cbv in NE; discriminate NE.

(** A rune that was decoded from a valid sequence encodes back to it. *)
Lemma DecodeRune_EncodeRune (c0 : ascii) (s : bytes) (r : rune) (w : nat) :
  utf8.DecodeRune (c0 :: s) = (r, w) ->
  (r =? utf8.RuneError) && (w =? 1)%nat = false ->
  utf8.EncodeRune r = firstn w (c0 :: s).
Proof.
  intros D NE. destruct (DecodeRune_cases _ _ D) as [(-> & -> & L)|[(-> & ->)|_]].
  { apply EncodeRune_ascii; auto. }
  { cbv in NE. discriminate NE. }
  revert D. unfold utf8.DecodeRune.
  destruct (utf8.first (b2z c0)) as [| |sz lo hi] eqn:F.
  - intros E; inversion E; subst.
    apply EncodeRune_ascii. revert F. unfold utf8.first. case_compare; auto; discriminate.
  - excluded NE.
  - assert (S : forall c1, (b2z c1 <? lo) || (hi <? b2z c1) = false ->
                second_ok c0 c1 = true).
    { intros c1 T. unfold second_ok. rewrite F, T. reflexivity. }
    assert (C : forall c, (b2z c <? utf8.locb) || (utf8.hicb <? b2z c) = false ->
                cont_ok c = true).
    { intros c T. unfold cont_ok. rewrite T. reflexivity. }
    destruct (first_sz _ F) as [-> | [-> | ->]].
    + destruct (_ <? 2)%nat; [excluded NE|].
      destruct s as [|c1 s]; [excluded NE|].
      destruct ((b2z c1 <? lo) || (hi <? b2z c1))%bool eqn:T1; [excluded NE|].
      cbn [Nat.leb]. intros E; inversion E; subst.
      assert (R : reencodes [c0; c1] = true).
      { apply reencodes_2; auto. unfold lead_of. rewrite F. reflexivity. }
      unfold reencodes, utf8.DecodeRune in R. rewrite F in R.
      cbn [List.length Nat.ltb Nat.leb] in R. rewrite T1 in R. cbn [fst] in R.
      apply bytes_eqb_eq in R. exact R.
    + destruct (_ <? 3)%nat; [excluded NE|].
      destruct s as [|c1 s]; [excluded NE|].
      destruct ((b2z c1 <? lo) || (hi <? b2z c1))%bool eqn:T1; [excluded NE|].
      cbn [Nat.leb]. destruct s as [|c2 s]; [excluded NE|].
      destruct ((b2z c2 <? utf8.locb) || (utf8.hicb <? b2z c2))%bool eqn:T2; [excluded NE|].
      intros E; inversion E; subst.
      assert (R : reencodes [c0; c1; c2] = true).
      { apply reencodes_3; auto. unfold lead_of. rewrite F. reflexivity. }
      unfold reencodes, utf8.DecodeRune in R. rewrite F in R.
      cbn [List.length Nat.ltb Nat.leb] in R. rewrite T1, T2 in R. cbn [fst] in R.
      apply bytes_eqb_eq in R. exact R.
    + destruct (_ <? 4)%nat; [excluded NE|].
      destruct s as [|c1 s]; [excluded NE|].
      destruct ((b2z c1 <? lo) || (hi <? b2z c1))%bool eqn:T1; [excluded NE|].
      cbn [Nat.leb]. destruct s as [|c2 s]; [excluded NE|].
      destruct ((b2z c2 <? utf8.locb) || (utf8.hicb <? b2z c2))%bool eqn:T2; [excluded NE|].
      destruct s as [|c3 s]; [excluded NE|].
      destruct ((b2z c3 <? utf8.locb) || (utf8.hicb <? b2z c3))%bool eqn:T3; [excluded NE|].
      intros E; inversion E; subst.
      apply reencodes_4; auto. unfold lead_of. rewrite F. reflexivity.
Qed.

(** [strings.Map] writes, rune by rune, what the mapping answers: keeping
    the bytes of an unchanged rune is the same as encoding it again. *)
Lemma Map_scan_runes (mapping : rune -> rune) (fuel : nat) :
  forall s : bytes, (List.length s <= fuel)%nat ->
  strings.Map_scan fuel mapping s =
    flat_map (fun c => strings.emit (mapping c)) (utf8.runes_fuel fuel s).
Proof.
  induction fuel as [|fuel IH]; intros s L; [reflexivity|].
  destruct s as [|c0 s]; [reflexivity|].
  cbn [strings.Map_scan utf8.runes_fuel].
  pose proof (DecodeRune_width c0 s) as W.
  pose proof (DecodeRune_nonneg (c0 :: s)) as P.
  destruct (utf8.DecodeRune (c0 :: s)) as [c w] eqn:D. simpl in W, P.
  pose proof (skipn_shorter c0 s W) as Sk. simpl in L.
  cbn [flat_map].
  destruct ((mapping c =? c) && _)%bool eqn:C.
  - apply andb_true_iff in C. destruct C as [C1 C2]. apply Z.eqb_eq in C1.
    rewrite IH by lia. f_equal. rewrite C1. unfold strings.emit.
    destruct (Z.leb_spec 0 c); [|lia]. symmetry.
    apply DecodeRune_EncodeRune; auto.
    destruct (c =? utf8.RuneError); simpl in *; auto.
    destruct (w =? 1)%nat; simpl in *; auto.
  - f_equal. unfold strings.Map_tail, utf8.runes.
    rewrite (@runes_fuel_enough _ fuel); auto; lia.
Qed.

End Exactness.

(** ** The file system *)

Lemma bytes_eqb_refl (a : bytes) : bytes_eqb a a = true.
Proof. apply bytes_eqb_eq. reflexivity. Qed.

Lemma filter_other_idem (name : bytes) (l : list (bytes * bytes)) :
  filter (fun f => negb (bytes_eqb (fst f) name))
         (filter (fun f => negb (bytes_eqb (fst f) name)) l)
  = filter (fun f => negb (bytes_eqb (fst f) name)) l.
Proof.
  induction l as [|x l IH]; simpl; auto.
  destruct (negb (bytes_eqb (fst x) name)) eqn:E; simpl; rewrite ?E, IH; reflexivity.
Qed.

Lemma filter_other_free (name : bytes) (l : list (bytes * bytes)) :
  forall f, In f (filter (fun f => negb (bytes_eqb (fst f) name)) l) ->
            bytes_eqb (fst f) name = false.
Proof.
  intros f I. apply filter_In in I. destruct I as [_ I].
  apply negb_true_iff in I. exact I.
Qed.

Lemma map_others (name data : bytes) (l : list (bytes * bytes)) :
  (forall f, In f l -> bytes_eqb (fst f) name = false) ->
  map (fun f => if bytes_eqb (fst f) name then (fst f, snd f ++ data) else f) l = l.
Proof.
  unfold bytes in *.
  induction l as [|x l IH]; cbn [map]; intros N; auto.
  rewrite (N x) by (left; reflexivity). rewrite IH; auto.
  intros f I. apply N. right. exact I.
Qed.

(** A red status is no green status. *)
Lemma red_is_not_green (a b : bytes) :
  ("[" :: "r" :: a)%char <> ("[" :: "g" :: b)%char.
Proof. discriminate. Qed.

(** [os.MkdirAll] fails and changes nothing, finds the directory, or makes
    it. *)
Lemma os_MkdirAll_cases (path : bytes) (fs : FS) :
  (exists err, os_MkdirAll path fs = (fs, Some err)) \/
  (has_dir fs path = true /\ os_MkdirAll path fs = (fs, None)) \/
  (has_dir fs path = false /\
   os_MkdirAll path fs = (set_dirs (path :: dirs fs) fs, None)).
Proof.
  unfold os_MkdirAll. destruct (has_dir fs path); [right; left; auto|].
  destruct (has_file fs path); [left; eauto|].
  destruct (mkdir_error fs path); [left; eauto|right; right; auto].
Qed.

Lemma has_dir_set_dirs (path : bytes) (fs : FS) :
  has_dir (set_dirs (path :: dirs fs) fs) path = true.
Proof. unfold has_dir. cbn [dirs set_dirs existsb]. rewrite bytes_eqb_refl. reflexivity. Qed.

Lemma os_MkdirAll_ok (path : bytes) (fs fs1 : FS) :
  os_MkdirAll path fs = (fs1, None) ->
  has_dir fs1 path = true /\ files fs1 = files fs.
Proof.
  destruct (os_MkdirAll_cases path fs) as [[e E]|[[HD E]|[HD E]]];
    rewrite E; intros X; inversion X; subst.
  - auto.
  - split; [apply has_dir_set_dirs|reflexivity].
Qed.

(** [os.Create] fails and changes nothing, or leaves the file empty. *)
Lemma os_Create_cases (name : bytes) (fs : FS) :
  (exists err, os_Create name fs = (fs, Some err)) \/
  (parent_exists fs name = true /\ has_dir fs name = false /\
   open_error fs name = None /\
   os_Create name fs =
     (set_files ((name, [])
                   :: filter (fun f => negb (bytes_eqb (fst f) name)) (files fs)) fs,
      None)).
Proof.
  unfold os_Create. destruct (parent_exists fs name); cbn [negb]; [|left; eauto].
  destruct (has_dir fs name); [left; eauto|].
  destruct (open_error fs name); [left; eauto|right; repeat split; reflexivity].
Qed.

(** A write to a file that heads the list and has no namesake. *)
Lemma file_WriteString_head (name data c : bytes) (others : list (bytes * bytes))
    (fs : FS) :
  files fs = (name, c) :: others ->
  (forall f, In f others -> bytes_eqb (fst f) name = false) ->
  file_WriteString name data fs =
    match write_error fs name (List.length c) data with
    | Some (n, err) =>
        (set_files ((name, c ++ firstn n data) :: others) fs, Some err)
    | None => (set_files ((name, c ++ data) :: others) fs, None)
    end.
Proof.
  intros F N. unfold file_WriteString, file_content, append_file. rewrite F.
  cbn [find map fst snd]. rewrite bytes_eqb_refl. cbn [snd].
  destruct (write_error fs name (List.length c) data) as [[n err]|];
    rewrite (@map_others name _ others N); reflexivity.
Qed.

(** [os.WriteFile] on a file that can be opened. *)
Lemma os_WriteFile_open (name data : bytes) (fs : FS) :
  parent_exists fs name = true -> has_dir fs name = false ->
  open_error fs name = None ->
  os_WriteFile name data fs =
    match write_error fs name 0 data with
    | Some (n, err) =>
        (set_files ((name, firstn n data)
                      :: filter (fun f => negb (bytes_eqb (fst f) name)) (files fs))
           fs, Some err)
    | None =>
        (set_files ((name, data)
                      :: filter (fun f => negb (bytes_eqb (fst f) name)) (files fs))
           fs, None)
    end.
Proof.
  intros P D O. unfold os_WriteFile, os_Create. rewrite P, D, O. cbn [negb].
  rewrite (@file_WriteString_head name data []
             (filter (fun f => negb (bytes_eqb (fst f) name)) (files fs)));
    [|reflexivity|apply filter_other_free].
  cbn [List.length app write_error set_files].
  destruct (write_error fs name 0 data) as [[n err]|]; reflexivity.
Qed.

(** [os.WriteFile] fails to open the file and changes nothing, or leaves
    the file with what the write let through. *)
Lemma os_WriteFile_cases (name data : bytes) (fs : FS) :
  (exists err, os_WriteFile name data fs = (fs, Some err)) \/
  (parent_exists fs name = true /\ has_dir fs name = false /\
   open_error fs name = None /\
   os_WriteFile name data fs =
     match write_error fs name 0 data with
     | Some (n, err) =>
         (set_files ((name, firstn n data)
                       :: filter (fun f => negb (bytes_eqb (fst f) name)) (files fs))
            fs, Some err)
     | None =>
         (set_files ((name, data)
                       :: filter (fun f => negb (bytes_eqb (fst f) name)) (files fs))
            fs, None)
     end).
Proof.
  destruct (os_Create_cases name fs) as [[e E]|(P & D & O & E)].
  - left. exists e. unfold os_WriteFile. rewrite E. reflexivity.
  - right. repeat (split; [assumption|]). apply os_WriteFile_open; assumption.
Qed.

Lemma os_WriteFile_ok (name data : bytes) (fs fs2 : FS) :
  os_WriteFile name data fs = (fs2, None) ->
  fs2 = set_files ((name, data)
                     :: filter (fun f => negb (bytes_eqb (fst f) name)) (files fs)) fs.
Proof.
  destruct (os_WriteFile_cases name data fs) as [[e E]|(_ & _ & _ & E)]; rewrite E.
  - discriminate.
  - destruct (write_error fs name 0 data) as [[n err]|]; intros X; inversion X.
    reflexivity.
Qed.

(** What the two calls leave alone. *)
Lemma os_MkdirAll_frame (path : bytes) (fs : FS) :
  files (fst (os_MkdirAll path fs)) = files fs /\
  (forall d, In d (dirs fs) -> In d (dirs (fst (os_MkdirAll path fs)))).
Proof.
  destruct (os_MkdirAll_cases path fs) as [[e E]|[[HD E]|[HD E]]]; rewrite E;
    cbn [fst files dirs set_dirs]; split; auto.
  intros d I. right. exact I.
Qed.

Lemma os_WriteFile_frame (name data : bytes) (fs : FS) :
  dirs (fst (os_WriteFile name data fs)) = dirs fs /\
  (forall n d, In (n, d) (files fs) -> n <> name ->
               In (n, d) (files (fst (os_WriteFile name data fs)))) /\
  (forall n d, In (n, d) (files (fst (os_WriteFile name data fs))) ->
               n = name \/ In (n, d) (files fs)).
Proof.
  assert (K : forall d',
            (forall n d, In (n, d) (files fs) -> n <> name ->
               In (n, d) ((name, d')
                            :: filter (fun f => negb (bytes_eqb (fst f) name))
                                 (files fs))) /\
            (forall n d, In (n, d) ((name, d')
                            :: filter (fun f => negb (bytes_eqb (fst f) name))
                                 (files fs)) ->
               n = name \/ In (n, d) (files fs))).
  { intros d'. split.
    - intros n d I NE. right. apply filter_In. split; auto.
      cbn [fst]. destruct (bytes_eqb n name) eqn:E; auto.
      apply bytes_eqb_eq in E. contradiction.
    - intros n d [E|I]; [inversion E; auto|].
      apply filter_In in I. tauto. }
  destruct (os_WriteFile_cases name data fs) as [[e E]|(_ & _ & _ & E)]; rewrite E.
  - cbn [fst]. auto.
  - destruct (write_error fs name 0 data) as [[n err]|];
      cbn [fst dirs files set_files]; split; auto; apply K.
Qed.

Lemma os_MkdirAll_again (path : bytes) (fs : FS) :
  os_MkdirAll path (fst (os_MkdirAll path fs)) = os_MkdirAll path fs.
Proof.
  destruct (os_MkdirAll_cases path fs) as [[e E]|[[HD E]|[HD E]]]; rewrite E;
    cbn [fst]; auto.
  unfold os_MkdirAll. rewrite has_dir_set_dirs. reflexivity.
Qed.

Lemma os_WriteFile_again (name data : bytes) (fs : FS) :
  os_WriteFile name data (fst (os_WriteFile name data fs))
    = os_WriteFile name data fs.
Proof.
  destruct (os_WriteFile_cases name data fs) as [[e E]|(P & D & O & E)]; rewrite E.
  - cbn [fst]. exact E.
  - assert (K : forall d',
              os_WriteFile name data
                (set_files ((name, d')
                              :: filter (fun f => negb (bytes_eqb (fst f) name))
                                   (files fs)) fs)
              = match write_error fs name 0 data with
                | Some (n, err) =>
                    (set_files ((name, firstn n data)
                                  :: filter (fun f => negb (bytes_eqb (fst f) name))
                                       (files fs)) fs, Some err)
                | None =>
                    (set_files ((name, data)
                                  :: filter (fun f => negb (bytes_eqb (fst f) name))
                                       (files fs)) fs, None)
                end).
    { intros d'. rewrite os_WriteFile_open; [|exact P|exact D|exact O].
      cbn [write_error files set_files filter fst].
      rewrite bytes_eqb_refl. cbn [negb]. rewrite filter_other_idem.
      destruct (write_error fs name 0 data) as [[n err]|]; reflexivity. }
    destruct (write_error fs name 0 data) as [[n err]|] eqn:W; cbn [fst];
      rewrite K, ?W; reflexivity.
Qed.

(** ** The single-entry export *)

(** C9, as the code has it.  The export of [key] goes to the file
    [leveldb_dump/<name>.txt], where [<name>] is the key with every rune
    passed through the mapping: a rune below U+0020, the double quote and
    each of / \ : * ? < > | become an underscore, every other rune, DEL and
    the C1 controls among them, is kept (a byte that is not valid UTF-8
    reads as U+FFFD).  So the name holds none of the replaced characters,
    and for an ASCII key it is the key with exactly those characters
    replaced (a/b gives a_b).  An export that reports success has left
    the output directory and that file, holding the key and the rendered
    value; whether it succeeds is for the operating system to say. *)
Theorem export_file_name (key : bytes) :
  dump_path key = str "leveldb_dump/" ++ strings.Map sanitize key ++ str ".txt" /\
  strings.Map sanitize key =
    flat_map (fun r => strings.emit (sanitize r)) (utf8.runes key) /\
  Forall (fun c => replaced c = false) (strings.Map sanitize key) /\
  (Forall (fun c => (b2z c < 128)%Z) key ->
   strings.Map sanitize key =
     map (fun c => if replaced c then "_"%char else c) key) /\
  dump_path (str "a/b") = str "leveldb_dump/a_b.txt" /\
  (forall (db : leveldb.DB) (s : Session) (fs : FS) (value : bytes),
     (0 <= keyList_current s < Z.of_nat (List.length (displayedKeys s)))%Z ->
     nth (Z.to_nat (keyList_current s)) (displayedKeys s) [] = key ->
     leveldb.Get db key = inl value ->
     statusMessage (fst (dumpCurrentKey db s fs)) =
       str "[green]Dumped to " ++ dump_path key ->
     let fs' := snd (dumpCurrentKey db s fs) in
     has_dir fs' (str "leveldb_dump") = true /\
     In (dump_path key,
         str "Key: " ++ key ++ nl ++ nl ++ str "Value: " ++ formatValue value)
        (files fs')).
Proof.
  split; [|split; [|split; [|split; [|split]]]].
  - reflexivity.
  - apply Map_scan_runes. lia.
  - apply Map_scan_allowed.
  - intros F. apply Map_scan_ascii; auto.
  - reflexivity.
  - intros db s fs value [I1 I2] K G. unfold dumpCurrentKey.
    destruct (Z.ltb_spec (keyList_current s) 0); [lia|].
    destruct (Z.leb_spec (Z.of_nat (List.length (displayedKeys s))) (keyList_current s));
      [lia|].
    cbn [orb]. rewrite K, G.
    destruct (os_MkdirAll (str "leveldb_dump") fs) as [fs1 [e|]] eqn:M;
      cbn [fst snd statusMessage setStatus].
    { intros St. destruct (red_is_not_green St). }
    destruct (os_MkdirAll_ok _ _ M) as [HD _].
    destruct (os_WriteFile_cases (dump_path key)
                (str "Key: " ++ key ++ nl ++ nl ++ str "Value: " ++ formatValue value)
                fs1) as [[e E]|(_ & _ & _ & E)]; rewrite E.
    { cbn [fst snd statusMessage setStatus].
      intros St. destruct (red_is_not_green St). }
    destruct (write_error fs1 _ _ _) as [[n e]|];
      cbn [fst snd statusMessage setStatus].
    { intros St. destruct (red_is_not_green St). }
    intros _. split; [exact HD|]. left. reflexivity.
Qed.

(** C9, as stated, fails: DEL is a control character and is kept in the
    file name. *)
Lemma delete_character_kept_in_file_name :
  unicode.IsControl 127%Z = true /\
  dump_path ["127"%char] = str "leveldb_dump/" ++ ["127"%char] ++ str ".txt".
Proof. split; reflexivity. Qed.

(** C10.  With no valid selection, or when the lookup of the selected key
    fails, the export sets an error status and leaves the file system as it
    was: no directory is created and no file is written. *)
Theorem export_failure_leaves_files (db : leveldb.DB) (s : Session) (fs : FS) :
  ((keyList_current s < 0)%Z \/
   (Z.of_nat (List.length (displayedKeys s)) <= keyList_current s)%Z \/
   (exists err,
      leveldb.Get db (nth (Z.to_nat (keyList_current s)) (displayedKeys s) [])
        = inr err)) ->
  snd (dumpCurrentKey db s fs) = fs /\
  exists reason,
    statusMessage (fst (dumpCurrentKey db s fs)) = str "[red]" ++ reason.
Proof.
  intros C. unfold dumpCurrentKey.
  destruct (Z.ltb_spec (keyList_current s) 0) as [L|L].
  { simpl. split; auto. exists (str "Invalid selection"). reflexivity. }
  destruct (Z.leb_spec (Z.of_nat (List.length (displayedKeys s))) (keyList_current s))
    as [G|G].
  { simpl. split; auto. exists (str "Invalid selection"). reflexivity. }
  destruct C as [C|[C|[err C]]]; try lia.
  cbn [orb]. rewrite C. simpl. split; auto.
  exists (str "Error: " ++ err). reflexivity.
Qed.

Lemma export_failure_leaves_files_witness :
  let s := set_keyList_current 5 (@searchChanged asciiLower scenarioA [] initial) in
  let fs := disk [] [] in
  (Z.of_nat (List.length (displayedKeys s)) <= keyList_current s)%Z /\
  snd (dumpCurrentKey scenarioA s fs) = fs.
Proof.
  cbv zeta.
  assert (C : (Z.of_nat (List.length (displayedKeys
                 (set_keyList_current 5
                    (@searchChanged asciiLower scenarioA [] initial))))
               <= keyList_current
                    (set_keyList_current 5
                       (@searchChanged asciiLower scenarioA [] initial)))%Z).
  { vm_compute. discriminate. }
  split; [exact C|].
  exact (proj1 (@export_failure_leaves_files scenarioA _
                  (disk [] [])
                  (or_intror (or_introl C)))).
Defined.

(** ** Where the code departs from its own sibling paths *)

(** C6 on the store [damaged] with a page size of 2.  The first page is read
    without error.  The extend then runs into the unreadable entry: the
    iterator it releases carries the error, the key collected before it
    stays in the page, and the status line is left untouched, because
    [loadNextPage] never consults [iter.Error()].  A first-page load that
    meets the same entry (page size 4) keeps its partial page and does
    report the error. *)
Theorem extend_swallows_iterator_error :
  let s1 := @searchChanged asciiLower damaged [] (set_pageSize 2 initial) in
  (displayedKeys s1 = [str "a"; str "b"] /\ hasMoreKeys s1 = true /\
   statusMessage s1 = []) /\
  (exists s2 it,
     @loadNextPage_run asciiLower damaged s1 = (true, s2, Some it) /\
     leveldb.Error it = Some leveldb.ErrCorrupted /\
     displayedKeys s2 = [str "a"; str "b"; str "c"] /\
     statusMessage s2 = []) /\
  (let s := @searchChanged asciiLower damaged [] (set_pageSize 4 initial) in
   displayedKeys s = [str "a"; str "b"; str "c"] /\
   statusMessage s = str "[red]Error: leveldb: corruption").
Proof.
  cbv zeta. split; [|split].
  - vm_compute. auto.
  - eexists. eexists. split; [vm_compute; reflexivity|]. vm_compute. auto.
  - vm_compute. auto.
Qed.

(** C7 on the store [blank].  The value view shows the marker for the empty
    value; [formatValue] renders the empty value as the empty string, and
    the export, which calls it without the emptiness test of
    [showKeyValue], writes nothing after "Value: ". *)
Theorem export_of_empty_value_has_no_marker :
  let s := set_keyList_current 0 (@searchChanged asciiLower blank [] initial) in
  let fs := disk [] [] in
  leveldb.Get blank (str "k") = inl [] /\
  valueView_text (showKeyValue blank (str "k") s) =
    str "[white]Key[::-]: k" ++ nl ++ nl ++ str "[white]Value[::-]: (empty)" /\
  formatValue [] = [] /\
  files (snd (dumpCurrentKey blank s fs)) =
    [(str "leveldb_dump/k.txt", str "Key: k" ++ nl ++ nl ++ str "Value: ")].
Proof. cbv zeta. vm_compute. auto. Qed.

(** * Further properties *)

(** ** The pager, continued *)

Lemma take_page_filter (m : bytes -> bool) (l : list bytes) (room : nat) :
  filter m (fst (take_page m room l)) = firstn room (filter m l).
Proof.
  revert room; induction l as [|k l IH]; intros room; simpl.
  - rewrite firstn_nil. reflexivity.
  - destruct room as [|room]; [reflexivity|].
    specialize (IH (if m k then room else S room)).
    destruct (take_page m (if m k then room else S room) l) as [a b].
    simpl in *. destruct (m k); simpl; rewrite IH; reflexivity.
Qed.

Lemma firstn_ge_all (A : Type) (n : nat) (l : list A) :
  firstn n l = l -> forall n', n <= n' -> firstn n' l = l.
Proof.
  intros E n' L. destruct (Nat.le_gt_cases (List.length l) n) as [G|G].
  - apply firstn_all2. lia.
  - assert (LE : List.length (firstn n l) = n) by (rewrite length_firstn; lia).
    rewrite E in LE. lia.
Qed.

Section Completeness.
Context `{UnicodeTables}.

(** X1.  When no more keys are announced the page holds every matching key the
    iterator can read. *)
Theorem no_more_means_complete (db : leveldb.DB) (f : bytes) (ps : nat)
    (s : Session) :
  WellFormed db -> 0 < ps -> Reachable db f ps s ->
  hasMoreKeys s = false ->
  displayedKeys s = filter (matches f) (readable_keys db).
Proof.
  intros WF Hps R M.
  destruct (Reachable_Inv WF Hps R) as (_ & _ & pre & post & RK & D & Mo & _).
  rewrite M in Mo. destruct post; [|discriminate].
  rewrite RK, app_nil_r. exact D.
Qed.

(** X2.  An extend that appends nothing leaves the flag false: a fruitless
    extend is never followed by another one. *)
Theorem failed_extend_clears_flag (db : leveldb.DB) (f : bytes) (ps : nat)
    (s : Session) :
  WellFormed db -> 0 < ps -> Reachable db f ps s ->
  fst (loadNextPage db s) = false ->
  hasMoreKeys (snd (loadNextPage db s)) = false.
Proof.
  intros WF Hps R. pose proof (Reachable_Inv WF Hps R) as I.
  destruct (hasMoreKeys s) eqn:More.
  - destruct (extend_spec WF I More) as (pre & a & b & RK & D & NE & TP & E).
    rewrite E. simpl. intros L. apply Nat.ltb_ge in L.
    pose proof (@take_page_short (matches f) (a ++ b) ps) as TS.
    rewrite TP in TS. simpl in TS. rewrite TS; [reflexivity|lia].
  - rewrite loadNextPage_noop; auto.
Qed.

(** X3.  The page after the first load and [n] extends is exactly the first
    [(n + 1) * pageSize] matching keys the iterator can read. *)
Theorem page_is_first_matches (db : leveldb.DB) (f : bytes) (s0 : Session)
    (n : nat) :
  WellFormed db -> 0 < pageSize s0 ->
  displayedKeys (extends db n (searchChanged db f s0)) =
    firstn (S n * pageSize s0) (filter (matches f) (readable_keys db)).
Proof.
  intros WF Hps. set (ps := pageSize s0) in *.
  set (F := filter (matches f) (readable_keys db)).
  assert (G : Reachable db f ps (extends db n (searchChanged db f s0)) /\
              displayedKeys (extends db n (searchChanged db f s0)) =
                firstn (S n * ps) F).
  { induction n as [|n [R IH]].
    - split; [apply reach_first; reflexivity|]. simpl extends.
      unfold searchChanged.
      destruct (@loadInitialKeys_spec _ db (set_currentPrefix f s0)) as (D & _); auto.
      simpl in D. rewrite D, take_page_filter. unfold F, ps.
      rewrite Nat.mul_1_l. reflexivity.
    - split; [apply reach_extend; exact R|]. cbn [extends].
      set (s := extends db n (searchChanged db f s0)) in *.
      set (k := S (S n) * ps). set (j := S n * ps) in *.
      assert (Hk : k = j + ps) by (unfold k, j; lia).
      pose proof (Reachable_Inv WF Hps R) as I.
      destruct (hasMoreKeys s) eqn:More.
      + destruct (extend_spec WF I More) as (pre & a & b & RK & D & NE & TP & E).
        rewrite E. cbn [snd displayedKeys set_hasMoreKeys add_keys].
        assert (Fa : filter (matches f) a = firstn ps (filter (matches f) (a ++ b))).
        { rewrite <- take_page_filter, TP. reflexivity. }
        assert (FF : F = displayedKeys s ++ filter (matches f) (a ++ b)).
        { unfold F. rewrite RK, filter_app, D. reflexivity. }
        rewrite Fa. clearbody F. subst F.
        set (Gs := filter (matches f) (a ++ b)) in *.
        destruct (Nat.le_gt_cases j (List.length (displayedKeys s))) as [L|L].
        * assert (LE : List.length (displayedKeys s) = j).
          { apply Nat.le_antisymm; auto. rewrite IH, length_firstn. lia. }
          rewrite Hk, <- LE. rewrite firstn_app_2. reflexivity.
        * assert (E0 : Gs = []).
          { rewrite firstn_app in IH. rewrite firstn_all2 in IH by lia.
            rewrite <- (app_nil_r (displayedKeys s)) in IH at 1.
            apply app_inv_head in IH.
            destruct Gs as [|x l]; auto.
            replace (j - List.length (displayedKeys s))
              with (S (j - List.length (displayedKeys s) - 1)) in IH by lia.
            simpl in IH. discriminate. }
          rewrite E0. rewrite firstn_nil, !app_nil_r.
          symmetry. apply firstn_all2. lia.
      + rewrite loadNextPage_noop; auto. cbn [snd].
        assert (C : displayedKeys s = F).
        { destruct I as (_ & _ & pre & post & RK & D & Mo & _).
          rewrite More in Mo. destruct post; [|discriminate].
          unfold F. rewrite RK, app_nil_r. exact D. }
        assert (E1 : firstn j F = F) by congruence.
        rewrite (@firstn_ge_all _ j F E1 k) by lia. exact C. }
  exact (proj2 G).
Qed.

End Completeness.

Lemma no_more_means_complete_witness :
  let s := @searchChanged asciiLower scenarioA [] (set_pageSize 5 initial) in
  WellFormed scenarioA /\ 0 < 5 /\ @Reachable asciiLower scenarioA [] 5 s /\
  hasMoreKeys s = false /\
  displayedKeys s = filter (@matches asciiLower []) (readable_keys scenarioA).
Proof.
  cbv zeta. assert (P : 0 < 5) by lia.
  assert (R : @Reachable asciiLower scenarioA [] 5
                (@searchChanged asciiLower scenarioA [] (set_pageSize 5 initial))).
  { apply reach_first. reflexivity. }
  assert (M : hasMoreKeys (@searchChanged asciiLower scenarioA []
                             (set_pageSize 5 initial)) = false)
    by (vm_compute; reflexivity).
  split; [exact scenarioA_WellFormed|]. split; [exact P|]. split; [exact R|].
  split; [exact M|].
  exact (@no_more_means_complete asciiLower _ _ _ _ scenarioA_WellFormed P R M).
Defined.

Lemma failed_extend_clears_flag_witness :
  let s := @searchChanged asciiLower sparse (str "a") (set_pageSize 1 initial) in
  WellFormed sparse /\ 0 < 1 /\ @Reachable asciiLower sparse (str "a") 1 s /\
  fst (@loadNextPage asciiLower sparse s) = false /\
  hasMoreKeys (snd (@loadNextPage asciiLower sparse s)) = false.
Proof.
  cbv zeta. assert (P : 0 < 1) by lia.
  assert (R : @Reachable asciiLower sparse (str "a") 1
                (@searchChanged asciiLower sparse (str "a") (set_pageSize 1 initial))).
  { apply reach_first. reflexivity. }
  assert (L : fst (@loadNextPage asciiLower sparse
                     (@searchChanged asciiLower sparse (str "a")
                        (set_pageSize 1 initial))) = false)
    by (vm_compute; reflexivity).
  split; [exact sparse_WellFormed|]. split; [exact P|]. split; [exact R|].
  split; [exact L|].
  exact (@failed_extend_clears_flag asciiLower _ _ _ _ sparse_WellFormed P R L).
Defined.

Lemma page_is_first_matches_witness :
  WellFormed scenarioA /\ 0 < pageSize (set_pageSize 2 initial) /\
  displayedKeys (@extends asciiLower scenarioA 1
                   (@searchChanged asciiLower scenarioA []
                      (set_pageSize 2 initial))) =
    firstn (2 * pageSize (set_pageSize 2 initial))
      (filter (@matches asciiLower []) (readable_keys scenarioA)).
Proof.
  assert (P : 0 < pageSize (set_pageSize 2 initial)) by (simpl; lia).
  split; [exact scenarioA_WellFormed|]. split; [exact P|].
  exact (@page_is_first_matches asciiLower scenarioA [] (set_pageSize 2 initial) 1
           scenarioA_WellFormed P).
Defined.

(** ** Lookups and exports of displayed keys *)

Lemma lookup_found (es pre post : list (bytes * bytes)) (k v : bytes) (i0 : nat) :
  es = pre ++ (k, v) :: post -> ~ In k (map fst pre) ->
  leveldb.lookup k es i0 = Some (i0 + List.length pre, v).
Proof.
  revert es i0; induction pre as [|[k' v'] pre IH]; intros es i0 -> NI; simpl.
  - assert (E : bytes_eqb k k = true) by (apply bytes_eqb_eq; reflexivity).
    rewrite E, Nat.add_0_r. reflexivity.
  - simpl in NI. destruct (bytes_eqb k' k) eqn:E.
    + apply bytes_eqb_eq in E. tauto.
    + rewrite (IH _ (S i0) eq_refl) by tauto. f_equal. f_equal. lia.
Qed.

Lemma in_firstn_split (es : list (bytes * bytes)) :
  forall (n : nat) (k : bytes), In k (firstn n (map fst es)) ->
  exists pre v post, es = pre ++ (k, v) :: post /\ List.length pre < n.
Proof.
  induction es as [|[k' v'] es IH]; intros n k Hk.
  - rewrite firstn_nil in Hk. contradiction.
  - destruct n as [|n]; [contradiction|]. simpl in Hk. destruct Hk as [->|Hk].
    + exists [], v', es. simpl. split; [reflexivity|lia].
    + destruct (IH _ _ Hk) as (pre & v & post & -> & L).
      exists ((k', v') :: pre), v, post. simpl. split; [reflexivity|lia].
Qed.

(** A readable key of a sorted store is found by [db.Get]. *)
Lemma Get_readable (db : leveldb.DB) (k : bytes) :
  WellFormed db -> In k (readable_keys db) ->
  exists v, leveldb.Get db k = inl v /\ In (k, v) (leveldb.entries db).
Proof.
  intros WF Hk. unfold readable_keys, leveldb.keys in Hk.
  destruct (in_firstn_split _ _ _ Hk) as (pre & v & post & E & L).
  exists v. split.
  - unfold leveldb.Get.
    rewrite (@lookup_found _ pre post k v 0 E).
    + simpl. assert (R : leveldb.readable db (List.length pre) = true).
      { apply readable_lt_limit; auto.
        pose proof (limit_le db). lia. }
      rewrite R. reflexivity.
    + apply sorted_NoDup in WF. unfold leveldb.keys in WF.
      rewrite E, map_app in WF. simpl in WF.
      apply NoDup_remove_2 in WF. intros I. apply WF, in_or_app. auto.
  - rewrite E. apply in_or_app. simpl. auto.
Qed.

Section Lookups.
Context `{UnicodeTables}.

Lemma Reachable_readable (db : leveldb.DB) (f : bytes) (ps : nat) (s : Session) :
  WellFormed db -> 0 < ps -> Reachable db f ps s ->
  forall key, In key (displayedKeys s) -> In key (readable_keys db).
Proof.
  intros WF Hps R key Hk.
  destruct (Reachable_Inv WF Hps R) as (_ & _ & pre & post & RK & D & _).
  rewrite D in Hk. apply filter_In in Hk. rewrite RK. apply in_or_app. tauto.
Qed.

(** X4.  Every key of the page can be looked up: the value view of a displayed
    key shows its value, never an error, also on a store whose later
    entries are unreadable. *)
Theorem displayed_key_lookup_succeeds (db : leveldb.DB) (f : bytes) (ps : nat)
    (s : Session) (key : bytes) :
  WellFormed db -> 0 < ps -> Reachable db f ps s ->
  In key (displayedKeys s) ->
  exists value,
    In (key, value) (leveldb.entries db) /\
    leveldb.Get db key = inl value /\
    valueView_text (showKeyValue db key s) =
      str "[white]Key[::-]: " ++ key ++ nl ++ nl ++ str "[white]Value[::-]: "
        ++ (if List.length value =? 0 then str "(empty)" else formatValue value).
Proof.
  intros WF Hps R Hk.
  destruct (Get_readable key WF (Reachable_readable WF Hps R _ Hk)) as (v & G & I).
  exists v. repeat split; auto.
  unfold showKeyValue. rewrite G.
  destruct (List.length v =? 0); reflexivity.
Qed.

(** X5.  With a key of the page selected, the single-entry export fails
    only when the operating system refuses the directory or the file: the
    selection is valid and the lookup of the key succeeds, so once
    [os.MkdirAll] and [os.WriteFile] go through, the export reports the path
    and the file holds the key and its rendered value. *)
Theorem export_of_selected_key_succeeds (db : leveldb.DB) (f : bytes) (ps : nat)
    (s : Session) :
  WellFormed db -> 0 < ps -> Reachable db f ps s ->
  (0 <= keyList_current s < Z.of_nat (List.length (displayedKeys s)))%Z ->
  let key := nth (Z.to_nat (keyList_current s)) (displayedKeys s) [] in
  exists value,
    In (key, value) (leveldb.entries db) /\
    let content :=
      str "Key: " ++ key ++ nl ++ nl ++ str "Value: " ++ formatValue value in
    forall fs fs1 fs2 : FS,
      os_MkdirAll (str "leveldb_dump") fs = (fs1, None) ->
      os_WriteFile (dump_path key) content fs1 = (fs2, None) ->
      dumpCurrentKey db s fs =
        (setStatus (str "[green]Dumped to " ++ dump_path key) s, fs2) /\
      has_dir fs2 (str "leveldb_dump") = true /\
      In (dump_path key, content) (files fs2).
Proof.
  intros WF Hps R [I1 I2] key.
  assert (Hk : In key (displayedKeys s)).
  { apply nth_In. lia. }
  destruct (Get_readable key WF (Reachable_readable WF Hps R _ Hk)) as (v & G & I).
  exists v. split; auto. intros content fs fs1 fs2 M W.
  unfold dumpCurrentKey.
  destruct (Z.ltb_spec (keyList_current s) 0); [lia|].
  destruct (Z.leb_spec (Z.of_nat (List.length (displayedKeys s))) (keyList_current s));
    [lia|].
  cbn [orb]. fold key. rewrite G, M. fold content. rewrite W.
  split; [reflexivity|].
  destruct (os_MkdirAll_ok _ _ M) as [HD _].
  rewrite (os_WriteFile_ok _ _ _ W). split; [exact HD|]. left. reflexivity.
Qed.

(** X6.  The list widget shows exactly the page. *)
Theorem list_widget_shows_page (db : leveldb.DB) (f : bytes) (ps : nat)
    (s : Session) :
  Reachable db f ps s -> keyList_items s = displayedKeys s.
Proof.
  intros R. induction R as [s0 E|s R IH|s i R IH|s key R IH|s fs R IH|s m R IH].
  - unfold searchChanged, loadInitialKeys, loadInitialKeys_run.
    destruct (@loadInitialKeys_loop_appends _
                (S (List.length (leveldb.entries db)))
                (strings.ToLower (currentPrefix (clear_page (set_currentPrefix f s0))))
                (leveldb.NewIterator db) (clear_page (set_currentPrefix f s0)))
      as (new & E1 & _).
    destruct (loadInitialKeys_loop _ _ _ _) as [it1 s1]. simpl in E1. subst s1.
    destruct (leveldb.Next it1) as [more it2].
    destruct (leveldb.Error it2); reflexivity.
  - unfold loadNextPage, loadNextPage_run.
    destruct (negb (hasMoreKeys s) || (List.length (displayedKeys s) =? 0)); auto.
    destruct (leveldb.Seek _ _) as [[|] it1]; auto.
    destruct (leveldb.Next it1) as [ok it2].
    destruct (@loadNextPage_loop_appends _
                (S (List.length (leveldb.entries db)))
                (strings.ToLower (currentPrefix s)) it2 s 0)
      as (it3 & new & E1 & _).
    rewrite E1. simpl. rewrite IH. reflexivity.
  - exact IH.
  - destruct (showKeyValue_pager db key s) as (D & _). rewrite D, <- IH.
    unfold showKeyValue. destruct (leveldb.Get db key); [|reflexivity].
    destruct (List.length b =? 0); reflexivity.
  - destruct (dumpCurrentKey_pager db s fs) as (D & _). rewrite D, <- IH.
    unfold dumpCurrentKey.
    destruct (_ || _)%bool; [reflexivity|].
    destruct (leveldb.Get db _); [|reflexivity].
    destruct (os_MkdirAll _ fs) as [fs1 [e|]]; [reflexivity|].
    destruct (os_WriteFile _ _ fs1) as [fs2 [e|]]; reflexivity.
  - exact IH.
Qed.

(** The two first-page loops agree as long as neither runs out of fuel. *)
Lemma loadPage_loop_agrees (sl : bytes) (fuelI : nat) :
  forall (fuelP : nat) (it : leveldb.Iterator) (s : Session),
  wf_it it -> List.length (rest it) < fuelI -> List.length (rest it) + 1 < fuelP ->
  List.length (displayedKeys s) < pageSize s ->
  loadPage_loop fuelP sl it s (List.length (displayedKeys s)) =
  loadInitialKeys_loop fuelI sl it s.
Proof.
  induction fuelI as [|fuelI IH]; intros fuelP it s W LI LP L; [lia|].
  destruct fuelP as [|fuelP]; [lia|]. cbn [loadPage_loop loadInitialKeys_loop].
  destruct (Nat.ltb_spec (List.length (displayedKeys s)) (pageSize s)); [|lia].
  destruct (Next_spec W) as (ok & it' & E & _ & W' & N). rewrite E.
  destruct (rest it) as [|k r] eqn:R.
  - destruct N as (-> & _). reflexivity.
  - destruct N as (-> & _ & K & R'). simpl in LI, LP.
    destruct (key_matches (currentPrefix s) sl (leveldb.Key it')) eqn:M.
    + cbn [displayedKeys add_key pageSize]. rewrite length_app. simpl List.length.
      destruct (Nat.leb_spec (pageSize s) (List.length (displayedKeys s) + 1)) as [G|G].
      * destruct fuelP as [|fuelP]; [lia|]. cbn [loadPage_loop pageSize add_key].
        destruct (Nat.ltb_spec (S (List.length (displayedKeys s))) (pageSize s));
          [lia|reflexivity].
      * rewrite <- (IH fuelP it' (add_key (leveldb.Key it') s)); auto.
        { cbn [displayedKeys add_key]. rewrite length_app. simpl List.length.
          rewrite Nat.add_1_r. reflexivity. }
        { rewrite R'. lia. }
        { rewrite R'. lia. }
        { cbn [displayedKeys add_key pageSize]. rewrite length_app. simpl. lia. }
    + apply IH; auto; rewrite R'; lia.
Qed.

(** X7.  [loadPage] on a fresh iterator and a cleared page does what
    [loadInitialKeys] does: the same page, flag and status, and the same
    iterator at the end. *)
Theorem loadPage_is_first_page_load (db : leveldb.DB) (s : Session) :
  0 < pageSize s ->
  loadPage_run (leveldb.NewIterator db) (clear_page s) = loadInitialKeys_run db s.
Proof.
  intros Hps. unfold loadPage_run, loadInitialKeys_run.
  destruct (NewIterator_rest db) as [R0 W0].
  pose proof (limit_le db) as LL. pose proof (readable_keys_length db) as RL.
  rewrite (@loadPage_loop_agrees
             (strings.ToLower (currentPrefix (clear_page s)))
             (S (List.length (leveldb.entries db)))
             (S (S (List.length (leveldb.entries db))))
             (leveldb.NewIterator db) (clear_page s) W0);
    [reflexivity| | |exact Hps]; rewrite R0, RL; lia.
Qed.

End Lookups.

Lemma displayed_key_lookup_succeeds_witness :
  let s := @searchChanged asciiLower scenarioA [] (set_pageSize 2 initial) in
  WellFormed scenarioA /\ 0 < 2 /\ @Reachable asciiLower scenarioA [] 2 s /\
  In (str "Banana") (displayedKeys s) /\
  exists value,
    In (str "Banana", value) (leveldb.entries scenarioA) /\
    leveldb.Get scenarioA (str "Banana") = inl value /\
    valueView_text (showKeyValue scenarioA (str "Banana") s) =
      str "[white]Key[::-]: " ++ str "Banana" ++ nl ++ nl
        ++ str "[white]Value[::-]: "
        ++ (if List.length value =? 0 then str "(empty)" else formatValue value).
Proof.
  cbv zeta. assert (P : 0 < 2) by lia.
  assert (R : @Reachable asciiLower scenarioA [] 2
                (@searchChanged asciiLower scenarioA [] (set_pageSize 2 initial))).
  { apply reach_first. reflexivity. }
  assert (I : In (str "Banana")
                (displayedKeys (@searchChanged asciiLower scenarioA []
                                  (set_pageSize 2 initial))))
    by (vm_compute; left; reflexivity).
  split; [exact scenarioA_WellFormed|]. split; [exact P|]. split; [exact R|].
  split; [exact I|].
  exact (@displayed_key_lookup_succeeds asciiLower _ _ _ _ _
           scenarioA_WellFormed P R I).
Defined.

Lemma export_of_selected_key_succeeds_witness :
  let s := @searchChanged asciiLower scenarioA [] (set_pageSize 2 initial) in
  let key := nth (Z.to_nat (keyList_current s)) (displayedKeys s) [] in
  WellFormed scenarioA /\ 0 < 2 /\ @Reachable asciiLower scenarioA [] 2 s /\
  (0 <= keyList_current s < Z.of_nat (List.length (displayedKeys s)))%Z /\
  exists value,
    In (key, value) (leveldb.entries scenarioA) /\
    fst (dumpCurrentKey scenarioA s (disk [] [])) =
      setStatus (str "[green]Dumped to " ++ dump_path key) s /\
    files (snd (dumpCurrentKey scenarioA s (disk [] []))) =
      [(dump_path key,
        str "Key: " ++ key ++ nl ++ nl ++ str "Value: " ++ formatValue value)].
Proof.
  cbv zeta. assert (P : 0 < 2) by lia.
  assert (R : @Reachable asciiLower scenarioA [] 2
                (@searchChanged asciiLower scenarioA [] (set_pageSize 2 initial))).
  { apply reach_first. reflexivity. }
  assert (I : (0 <= keyList_current
                      (@searchChanged asciiLower scenarioA [] (set_pageSize 2 initial))
                 < Z.of_nat (List.length
                      (displayedKeys (@searchChanged asciiLower scenarioA []
                                        (set_pageSize 2 initial)))))%Z)
    by (vm_compute; split; [discriminate|reflexivity]).
  split; [exact scenarioA_WellFormed|]. split; [exact P|]. split; [exact R|].
  split; [exact I|].
  destruct (@export_of_selected_key_succeeds asciiLower _ _ _ _
              scenarioA_WellFormed P R I) as (value & In_v & K).
  exists value. split; [exact In_v|].
  destruct (K (disk [] []) (set_dirs [str "leveldb_dump"] (disk [] []))
              (set_files
                 [(dump_path (str "Banana"),
                   str "Key: " ++ str "Banana" ++ nl ++ nl ++ str "Value: "
                     ++ formatValue value)]
                 (set_dirs [str "leveldb_dump"] (disk [] []))))
    as (E & _ & _); [reflexivity|reflexivity|].
  rewrite E. split; reflexivity.
Defined.

Lemma list_widget_shows_page_witness :
  let s := snd (@loadNextPage asciiLower scenarioA
                  (@searchChanged asciiLower scenarioA []
                     (set_pageSize 2 initial))) in
  @Reachable asciiLower scenarioA [] 2 s /\ keyList_items s = displayedKeys s.
Proof.
  cbv zeta.
  assert (R : @Reachable asciiLower scenarioA [] 2
                (snd (@loadNextPage asciiLower scenarioA
                        (@searchChanged asciiLower scenarioA []
                           (set_pageSize 2 initial))))).
  { apply reach_extend, reach_first. reflexivity. }
  split; [exact R|].
  exact (@list_widget_shows_page asciiLower _ _ _ _ R).
Defined.

Lemma loadPage_is_first_page_load_witness :
  0 < pageSize (set_pageSize 2 initial) /\
  @loadPage_run asciiLower (leveldb.NewIterator scenarioA)
    (clear_page (set_pageSize 2 initial))
  = @loadInitialKeys_run asciiLower scenarioA (set_pageSize 2 initial).
Proof.
  assert (P : 0 < pageSize (set_pageSize 2 initial)) by (simpl; lia).
  split; [exact P|].
  exact (@loadPage_is_first_page_load asciiLower scenarioA (set_pageSize 2 initial) P).
Defined.

(** ** Iterator errors on the first page *)

Lemma move_to_err_inv (db : leveldb.DB) (it : leveldb.Iterator) (i : nat) :
  leveldb.it_db it = db -> i <= limit db ->
  err_inv db (snd (leveldb.move_to it i)) /\
  leveldb.it_err (snd (leveldb.move_to it i)) =
    if fst (leveldb.move_to it i) then None
    else if limit db <? List.length (leveldb.entries db)
         then Some leveldb.ErrCorrupted else None.
Proof.
  intros Db L. pose proof (limit_le db) as LL.
  unfold leveldb.move_to, err_inv, wf_it. rewrite Db.
  destruct (Nat.ltb_spec i (List.length (leveldb.entries db))) as [I|I].
  - pose proof (readable_lt_limit db I) as RL.
    destruct (leveldb.readable db i) eqn:R;
      cbn [fst snd leveldb.it_db leveldb.it_err leveldb.it_dir leveldb.it_pos].
    + repeat split; auto; try discriminate. intros _ _. apply RL; reflexivity.
    + assert (limit db <= i).
      { destruct (Nat.le_gt_cases (limit db) i) as [G|G]; auto.
        apply RL in G. discriminate. }
      destruct (Nat.ltb_spec (limit db) (List.length (leveldb.entries db)));
        [|lia].
      repeat split; auto; try discriminate.
  - cbn [fst snd leveldb.it_db leveldb.it_err leveldb.it_dir leveldb.it_pos].
    destruct (Nat.ltb_spec (limit db) (List.length (leveldb.entries db)));
      [lia|].
    repeat split; auto; try discriminate. intros _. lia.
Qed.

Lemma Next_err_inv (db : leveldb.DB) (it : leveldb.Iterator) :
  err_inv db it ->
  err_inv db (snd (leveldb.Next it)) /\
  leveldb.it_err (snd (leveldb.Next it)) =
    if fst (leveldb.Next it) then None
    else if limit db <? List.length (leveldb.entries db)
         then Some leveldb.ErrCorrupted else None.
Proof.
  intros (Db & W & E). unfold leveldb.Next.
  destruct (leveldb.it_err it) as [e|] eqn:Err.
  - cbn [fst snd]. split; [unfold err_inv; rewrite Err; auto|].
    destruct E as [-> D]. rewrite Err.
    destruct (Nat.ltb_spec (limit db) (List.length (leveldb.entries db)));
      [reflexivity|lia].
  - destruct (leveldb.it_dir it) eqn:D.
    + apply move_to_err_inv; auto. lia.
    + cbn [fst snd]. split; [unfold err_inv; rewrite Err; auto|].
      rewrite Err. specialize (E eq_refl).
      destruct (Nat.ltb_spec (limit db) (List.length (leveldb.entries db)));
        [lia|reflexivity].
    + apply move_to_err_inv; auto.
      specialize (W Err D). rewrite Db in W. lia.
Qed.

Lemma NewIterator_err_inv (db : leveldb.DB) : err_inv db (leveldb.NewIterator db).
Proof.
  destruct (NewIterator_rest db) as [_ W].
  split; [reflexivity|]. split; [exact W|]. cbn [leveldb.it_err leveldb.it_dir leveldb.NewIterator]. discriminate.
Qed.

Section FirstPageErrors.
Context `{UnicodeTables}.

Lemma loadInitialKeys_loop_err_inv (db : leveldb.DB) (sl : bytes) (fuel : nat) :
  forall (it : leveldb.Iterator) (s : Session),
  err_inv db it -> err_inv db (fst (loadInitialKeys_loop fuel sl it s)).
Proof.
  induction fuel as [|fuel IH]; intros it s I; [exact I|].
  cbn [loadInitialKeys_loop].
  destruct (Next_err_inv I) as [I' _].
  destruct (leveldb.Next it) as [ok it']. cbn [snd] in I'.
  destruct ok; [|exact I'].
  destruct (key_matches (currentPrefix s) sl (leveldb.Key it')); [|apply IH; exact I'].
  destruct (pageSize (add_key (leveldb.Key it') s)
              <=? List.length (displayedKeys (add_key (leveldb.Key it') s)));
    [exact I'|apply IH; exact I'].
Qed.

(** X8.  The first-page load reports an iterator error exactly when the
    store is damaged and the scan came to the damage, which is when the
    load announces no more keys; in every other case it leaves the status
    as it was. *)
Theorem first_page_reports_damage (db : leveldb.DB) (s : Session) :
  statusMessage (loadInitialKeys db s) =
    if (limit db <? List.length (leveldb.entries db))
       && negb (hasMoreKeys (loadInitialKeys db s))
    then str "[red]Error: " ++ leveldb.ErrCorrupted
    else statusMessage s.
Proof.
  unfold loadInitialKeys, loadInitialKeys_run.
  pose proof (@loadInitialKeys_loop_err_inv db
                (strings.ToLower (currentPrefix (clear_page s)))
                (S (List.length (leveldb.entries db)))
                (leveldb.NewIterator db) (clear_page s)
                (NewIterator_err_inv db)) as I1.
  destruct (@loadInitialKeys_loop_appends _
              (S (List.length (leveldb.entries db)))
              (strings.ToLower (currentPrefix (clear_page s)))
              (leveldb.NewIterator db) (clear_page s)) as (new & E1 & _).
  destruct (loadInitialKeys_loop _ _ _ _) as [it1 s1]. cbn [fst snd] in *.
  subst s1. destruct (Next_err_inv I1) as [_ E2].
  destruct (leveldb.Next it1) as [more it2]. cbn [fst snd] in E2.
  unfold leveldb.Error. rewrite E2.
  destruct more;
    destruct (limit db <? List.length (leveldb.entries db)); reflexivity.
Qed.

End FirstPageErrors.

(** ** The value renderer, continued *)

Section RendererProperties.
Local Open Scope Z_scope.

Lemma enc_in_alphabet (v : Z) : In (base64.enc v) base64.encodeStd.
Proof.
  unfold base64.enc. apply nth_In.
  assert (R : 0 <= Z.land v 63 < 64).
  { change 63 with (Z.ones 6). rewrite Z.land_ones by lia.
    apply Z.mod_pos_bound. reflexivity. }
  change (List.length base64.encodeStd) with (Z.to_nat 64). lia.
Qed.

Lemma alphabet_no_control :
  Forall (fun c => ascii_control c = false) base64.encodeStd.
Proof. unfold base64.encodeStd. repeat (constructor; [reflexivity|]). constructor. Qed.

Lemma enc_no_control (v : Z) : ascii_control (base64.enc v) = false.
Proof.
  pose proof alphabet_no_control as A. rewrite Forall_forall in A.
  apply A, enc_in_alphabet.
Qed.

Lemma EncodeToString_no_control (n : nat) :
  forall src, (List.length src <= n)%nat ->
  Forall (fun c => ascii_control c = false) (base64.EncodeToString src).
Proof.
  induction n as [n IH] using lt_wf_ind. intros src L.
  destruct src as [|b0 [|b1 [|b2 src]]]; cbn [base64.EncodeToString].
  - constructor.
  - repeat (constructor; [apply enc_no_control|]). constructor.
  - repeat (constructor; [apply enc_no_control|]). constructor.
  - repeat (constructor; [apply enc_no_control|]).
    apply IH with (m := List.length src); simpl in L; lia.
Qed.

Lemma ascii_control_high (c : ascii) : 128 <= b2z c -> ascii_control c = false.
Proof.
  intros L. unfold ascii_control.
  destruct (Z.ltb_spec (b2z c) 32); [lia|].
  destruct (Z.eqb_spec (b2z c) 127); [lia|]. reflexivity.
Qed.

(** The encoding of a rune that is no control character holds no ASCII
    control byte. *)
Lemma EncodeRune_no_control (r : rune) :
  unicode.IsControl r = false ->
  Forall (fun c => ascii_control c = false) (utf8.EncodeRune r).
Proof.
  intros C. destruct (Z_le_dec 0 r) as [P|P]; [destruct (Z_le_dec r 127) as [L|L]|].
  - unfold utf8.EncodeRune, utf8.rune1Max.
    destruct (Z.leb_spec 0 r); [|lia]. destruct (Z.leb_spec r 127); [|lia].
    simpl. constructor; [|constructor].
    unfold ascii_control. rewrite b2z_z2b_small by lia.
    unfold unicode.IsControl, unicode.MaxLatin1 in C.
    destruct (Z.leb_spec 0 r); [|lia]. destruct (Z.leb_spec r 255); [|lia].
    simpl in C. apply orb_false_iff in C. destruct C as [C1 C2].
    apply Z.leb_gt in C1.
    destruct (Z.ltb_spec r 32); [lia|]. destruct (Z.eqb_spec r 127); [|reflexivity].
    subst r. discriminate.
  - eapply Forall_impl; [|apply EncodeRune_high; lia].
    intros c. apply ascii_control_high.
  - eapply Forall_impl; [|apply EncodeRune_high; lia].
    intros c. apply ascii_control_high.
Qed.

Lemma flushBinary_no_control (result buf : bytes) :
  Forall (fun c => ascii_control c = false) result ->
  Forall (fun c => ascii_control c = false) (fst (flushBinary result buf)).
Proof.
  intros F. unfold flushBinary. destruct (_ <? _)%nat; simpl; auto.
  rewrite Forall_app. split; [exact F|].
  repeat (constructor; [reflexivity|]).
  rewrite Forall_app. split.
  - apply EncodeToString_no_control with (n := List.length buf). lia.
  - repeat (constructor; [reflexivity|]). constructor.
Qed.

Lemma mixedContentDisplay_loop_no_control (fuel : nat) (value : bytes) :
  forall (pos : nat) (result buf : bytes),
  Forall (fun c => ascii_control c = false) result ->
  Forall (fun c => ascii_control c = false)
         (fst (mixedContentDisplay_loop fuel value pos result buf)).
Proof.
  induction fuel as [|fuel IH]; intros pos result buf F; simpl; auto.
  destruct (_ <? _)%nat; simpl; auto.
  destruct (utf8.DecodeRune (skipn pos value)) as [r size].
  destruct (_ && _)%bool; [apply IH; auto|].
  destruct (unicode.IsControl r) eqn:C; [apply IH; auto|].
  pose proof (flushBinary_no_control buf F) as FB.
  destruct (flushBinary result buf) as [result' buf']. simpl in FB.
  apply IH. apply Forall_app. split; auto. apply EncodeRune_no_control; auto.
Qed.

(** X9.  Whatever the value, mixed-content rendering writes no ASCII control
    character: no byte below U+0020 and no DEL reaches the display. *)
Theorem mixedContentDisplay_no_control_bytes (value : bytes) :
  Forall (fun c => ascii_control c = false) (mixedContentDisplay value).
Proof.
  unfold mixedContentDisplay.
  pose proof (@mixedContentDisplay_loop_no_control (List.length value) value
                0%nat [] [] (Forall_nil _)) as L.
  destruct (mixedContentDisplay_loop _ _ _ _ _) as [result buf]. simpl in L.
  apply flushBinary_no_control; auto.
Qed.

Lemma binary_byte_decodes (c : ascii) (l : bytes) :
  binary_byte c = true ->
  (utf8.DecodeRune (c :: l) = (utf8.RuneError, 1%nat)) \/
  (utf8.DecodeRune (c :: l) = (b2z c, 1%nat) /\ b2z c < 128 /\
   unicode.IsControl (b2z c) = true).
Proof.
  unfold binary_byte, utf8.DecodeRune.
  destruct (utf8.first (b2z c)) eqn:F; intros B; try discriminate; auto.
  right. repeat split; auto.
  revert F. unfold utf8.first. case_compare; auto; discriminate.
Qed.

(** On binary bytes the loop writes nothing and buffers every byte. *)
Lemma mixedContentDisplay_loop_binary (suf : bytes) :
  forall (fuel : nat) (pre result buf : bytes),
  forallb binary_byte suf = true -> (List.length suf <= fuel)%nat ->
  mixedContentDisplay_loop fuel (pre ++ suf) (List.length pre) result buf =
    (result, buf ++ suf).
Proof.
  induction suf as [|c suf IH]; intros fuel pre result buf B L.
  - rewrite !app_nil_r. destruct fuel; simpl; auto.
    rewrite Nat.ltb_irrefl. reflexivity.
  - destruct fuel as [|fuel]; [simpl in L; lia|].
    simpl in B. apply andb_true_iff in B. destruct B as [Bc B].
    cbn [mixedContentDisplay_loop].
    destruct (Nat.ltb_spec (List.length pre) (List.length (pre ++ c :: suf)))
      as [_|G]; [|rewrite length_app in G; simpl in G; lia].
    rewrite skipn_length_app.
    assert (V : pre ++ c :: suf = (pre ++ [c]) ++ suf)
      by (rewrite <- app_assoc; reflexivity).
    assert (P : (List.length pre + 1)%nat = List.length (pre ++ [c]))
      by (rewrite length_app; reflexivity).
    destruct (binary_byte_decodes c suf Bc) as [D|(D & A & C)]; rewrite D.
    + rewrite Z.eqb_refl. cbn [andb Nat.eqb].
      rewrite nth_middle. rewrite V, P, IH; auto; [|simpl in L; lia].
      rewrite <- app_assoc. reflexivity.
    + assert (E1 : (b2z c =? utf8.RuneError) = false)
        by (apply Z.eqb_neq; unfold utf8.RuneError; lia).
      rewrite E1, C. cbn [andb firstn].
      rewrite V, P, IH; auto; [|simpl in L; lia].
      rewrite <- app_assoc. reflexivity.
Qed.

(** X10.  A non-empty value made of binary bytes only (ASCII control characters
    and bytes that start no UTF-8 sequence) is rendered as one marker
    holding the base64 text of the whole value. *)
Theorem binary_value_is_one_marker (value : bytes) :
  value <> [] -> forallb binary_byte value = true ->
  mixedContentDisplay value =
    str "[b64:" ++ base64.EncodeToString value ++ str "]".
Proof.
  intros NE B. unfold mixedContentDisplay.
  pose proof (@mixedContentDisplay_loop_binary value (List.length value) [] [] []
                B (Nat.le_refl _)) as E.
  simpl in E. rewrite E. unfold flushBinary.
  destruct value; [congruence|]. reflexivity.
Qed.

Lemma DecodeRune_width_le (p : bytes) :
  (snd (utf8.DecodeRune p) <= List.length p)%nat.
Proof.
  unfold utf8.DecodeRune.
  destruct p as [|c0 p]; [simpl; lia|].
  destruct (utf8.first (b2z c0)); [simpl; lia|simpl; lia|].
  repeat match goal with
         | |- context [if ?b then _ else _] => destruct b
         | |- context [match ?l with [] => _ | _ :: _ => _ end] => destruct l
         end; simpl; lia.
Qed.

(** On clean text the loop copies every rune and buffers nothing. *)
Lemma mixedContentDisplay_loop_clean (suf : bytes) :
  CleanText suf ->
  forall (fuel : nat) (pre result : bytes),
  (List.length suf <= fuel)%nat ->
  mixedContentDisplay_loop fuel (pre ++ suf) (List.length pre) result [] =
    (result ++ suf, []).
Proof.
  induction 1 as [|c0 s r w D NE C Cl IH]; intros fuel pre result L.
  - rewrite !app_nil_r. destruct fuel; simpl; auto.
    rewrite Nat.ltb_irrefl. reflexivity.
  - destruct fuel as [|fuel]; [simpl in L; lia|].
    cbn [mixedContentDisplay_loop].
    destruct (Nat.ltb_spec (List.length pre) (List.length (pre ++ c0 :: s)))
      as [_|G]; [|rewrite length_app in G; simpl in G; lia].
    rewrite skipn_length_app, D, NE, C.
    cbn [flushBinary List.length Nat.ltb Nat.leb].
    rewrite (DecodeRune_EncodeRune _ _ D NE).
    pose proof (DecodeRune_width_le (c0 :: s)) as WL. rewrite D in WL. simpl snd in WL.
    pose proof (DecodeRune_width c0 s) as W1. rewrite D in W1. simpl snd in W1.
    assert (V : pre ++ c0 :: s =
                (pre ++ firstn w (c0 :: s)) ++ skipn w (c0 :: s)).
    { rewrite <- app_assoc, firstn_skipn. reflexivity. }
    assert (P : (List.length pre + w)%nat = List.length (pre ++ firstn w (c0 :: s))).
    { rewrite length_app, length_firstn. lia. }
    rewrite V at 1. rewrite P, IH.
    + rewrite <- app_assoc, firstn_skipn. reflexivity.
    + pose proof (skipn_shorter c0 s W1). simpl in L. lia.
Qed.

(** X11.  Valid UTF-8 text without control characters, ASCII or not, is rendered
    unchanged, without markers. *)
Theorem clean_text_unchanged (value : bytes) :
  CleanText value -> mixedContentDisplay value = value.
Proof.
  intros C. unfold mixedContentDisplay.
  pose proof (@mixedContentDisplay_loop_clean value C (List.length value) [] []
                (Nat.le_refl _)) as E.
  simpl in E. rewrite E. reflexivity.
Qed.

End RendererProperties.

(** The text [cafe] with an acute accent on the e, in UTF-8. *)
Lemma clean_text_unchanged_witness :
  CleanText ["c"; "a"; "f"; "195"; "169"]%char /\
  mixedContentDisplay ["c"; "a"; "f"; "195"; "169"]%char
    = ["c"; "a"; "f"; "195"; "169"]%char.
Proof.
  assert (C : CleanText ["c"; "a"; "f"; "195"; "169"]%char).
  { repeat (eapply clean_rune;
              [vm_compute; reflexivity|reflexivity|reflexivity|cbn [skipn]]).
    apply clean_nil. }
  split; [exact C|]. exact (clean_text_unchanged C).
Defined.

Lemma binary_value_is_one_marker_witness :
  ["000"; "255"]%char <> [] /\ forallb binary_byte ["000"; "255"]%char = true /\
  mixedContentDisplay ["000"; "255"]%char = str "[b64:AP8]".
Proof.
  assert (N : ["000"; "255"]%char <> []) by discriminate.
  assert (B : forallb binary_byte ["000"; "255"]%char = true) by reflexivity.
  split; [exact N|]. split; [exact B|].
  exact (binary_value_is_one_marker N B).
Defined.

(** ** Valid JSON is always indented *)

Lemma indent_loop_valid (src : bytes) :
  forall (scan : json.scanner) (needIndent : bool) (depth : Z)
         (prefix indent dst : bytes),
  json.checkValid src scan = true ->
  json.eof (snd (json.indent_loop src scan needIndent depth prefix indent dst))
    = true.
Proof.
  induction src as [|c src IH]; intros scan ni depth prefix indent dst V.
  - exact V.
  - cbn [json.checkValid json.indent_loop] in *.
    destruct (json.run scan c) as [v scan1].
    destruct v; try discriminate; try (apply IH; exact V);
      destruct ni; cbn [andb negb json.isEnd];
      repeat match goal with
             | |- context [if ?b then _ else _] => destruct b
             end; apply IH; exact V.
Qed.

(** X12.  For valid JSON [json.Indent] cannot fail, so [formatValue] returns the
    indented text and never falls back to mixed-content rendering. *)
Theorem valid_json_is_indented (value : bytes) :
  json.Valid value = true ->
  exists prettyJSON,
    json.Indent value [] (str "  ") = Some prettyJSON /\
    formatValue value = prettyJSON.
Proof.
  intros V. unfold formatValue, json.Indent. rewrite V.
  pose proof (@indent_loop_valid value json.reset false 0%Z [] (str "  ") [] V) as E.
  destruct (json.indent_loop value json.reset false 0 [] (str "  ") [])
    as [dst scan]. simpl in E. rewrite E. eauto.
Qed.

Lemma valid_json_is_indented_witness :
  json.Valid (str "[1,2]") = true /\
  exists prettyJSON,
    json.Indent (str "[1,2]") [] (str "  ") = Some prettyJSON /\
    formatValue (str "[1,2]") = prettyJSON.
Proof.
  assert (V : json.Valid (str "[1,2]") = true) by reflexivity.
  split; [exact V|]. exact (valid_json_is_indented _ V).
Defined.

(** ** The single-entry export, continued *)

Lemma setStatus_pager (m : bytes) (s : Session) :
  displayedKeys (setStatus m s) = displayedKeys s /\
  keyList_current (setStatus m s) = keyList_current s.
Proof. split; reflexivity. Qed.

Lemma dumpCurrentKey_status (db : leveldb.DB) (s : Session) (fs : FS) :
  exists m, fst (dumpCurrentKey db s fs) = setStatus m s.
Proof.
  unfold dumpCurrentKey.
  destruct (_ || _)%bool; [eexists; reflexivity|].
  destruct (leveldb.Get db _); [|eexists; reflexivity].
  destruct (os_MkdirAll _ fs) as [fs1 [e|]]; [eexists; reflexivity|].
  destruct (os_WriteFile _ _ fs1) as [fs2 [e|]]; eexists; reflexivity.
Qed.

Lemma dumpCurrentKey_after_status (db : leveldb.DB) (m : bytes) (s : Session)
    (fs : FS) :
  dumpCurrentKey db (setStatus m s) fs = dumpCurrentKey db s fs.
Proof.
  unfold dumpCurrentKey. cbn [keyList_current displayedKeys setStatus].
  destruct (_ || _)%bool; [reflexivity|].
  destruct (leveldb.Get db _); [|reflexivity].
  destruct (os_MkdirAll _ fs) as [fs1 [e|]]; [reflexivity|].
  destruct (os_WriteFile _ _ fs1) as [fs2 [e|]]; reflexivity.
Qed.

(** X13.  Exporting twice is the same as exporting once: the second export
    finds the directory, overwrites the file with the same text and sets the
    same status; a failed export fails again in the same way. *)
Theorem dumpCurrentKey_idempotent (db : leveldb.DB) (s : Session) (fs : FS) :
  dumpCurrentKey db (fst (dumpCurrentKey db s fs)) (snd (dumpCurrentKey db s fs))
    = dumpCurrentKey db s fs.
Proof.
  destruct (dumpCurrentKey_status db s fs) as [m E].
  rewrite E, dumpCurrentKey_after_status.
  unfold dumpCurrentKey.
  destruct (_ || _)%bool; [reflexivity|].
  destruct (leveldb.Get db _) as [value|err]; [|reflexivity].
  set (path := dump_path _). set (content := _ ++ _ ++ _).
  set (dir := str "leveldb_dump").
  pose proof (os_MkdirAll_again dir fs) as M.
  destruct (os_MkdirAll dir fs) as [fs1 [e|]] eqn:M1; cbn [fst snd] in *.
  - rewrite M. reflexivity.
  - pose proof (os_WriteFile_again path content fs1) as W.
    pose proof (os_WriteFile_frame path content fs1) as [KD _].
    destruct (os_MkdirAll_ok _ _ M1) as [HD _].
    assert (M2 : os_MkdirAll dir (fst (os_WriteFile path content fs1))
                 = (fst (os_WriteFile path content fs1), None)).
    { unfold os_MkdirAll, has_dir in *. rewrite KD, HD. reflexivity. }
    destruct (os_WriteFile path content fs1) as [fs2 [e|]] eqn:W1;
      cbn [fst snd] in *; rewrite M2, W; reflexivity.
Qed.

(** X14.  An export leaves every other file and every directory in place, and
    whatever file it leaves behind was there before or is its target. *)
Theorem export_touches_one_file (db : leveldb.DB) (s : Session) (fs : FS) :
  let fs' := snd (dumpCurrentKey db s fs) in
  let target :=
    dump_path (nth (Z.to_nat (keyList_current s)) (displayedKeys s) []) in
  (forall d, In d (dirs fs) -> In d (dirs fs')) /\
  (forall name data, In (name, data) (files fs) -> name <> target ->
                     In (name, data) (files fs')) /\
  (forall name data, In (name, data) (files fs') ->
                     name = target \/ In (name, data) (files fs)).
Proof.
  cbv zeta. unfold dumpCurrentKey.
  destruct (_ || _)%bool; [cbn [snd]; auto|].
  destruct (leveldb.Get db _) as [value|err]; [|cbn [snd]; auto].
  set (target := dump_path _). set (content := _ ++ _ ++ _).
  pose proof (os_MkdirAll_frame (str "leveldb_dump") fs) as [MF MD].
  destruct (os_MkdirAll (str "leveldb_dump") fs) as [fs1 [e|]];
    cbn [fst snd] in *.
  { rewrite MF. auto. }
  pose proof (os_WriteFile_frame target content fs1) as (WD & WK & WN).
  assert (G : (forall d, In d (dirs fs) ->
                 In d (dirs (fst (os_WriteFile target content fs1)))) /\
              (forall name data, In (name, data) (files fs) -> name <> target ->
                 In (name, data) (files (fst (os_WriteFile target content fs1)))) /\
              (forall name data,
                 In (name, data) (files (fst (os_WriteFile target content fs1))) ->
                 name = target \/ In (name, data) (files fs))).
  { rewrite WD, <- MF. auto. }
  destruct (os_WriteFile target content fs1) as [fs2 [e|]]; exact G.
Qed.

(** X15.  The file name of an ASCII key is also the file name of its sanitised
    form, so a key that holds a replaced character shares its export file
    with a different key. *)
Theorem sanitised_key_shares_file (key : bytes) :
  Forall (fun c => (b2z c < 128)%Z) key ->
  let twin := map (fun c => if replaced c then "_"%char else c) key in
  dump_path twin = dump_path key /\
  (existsb replaced key = true -> twin <> key).
Proof.
  intros A twin.
  assert (At : Forall (fun c => (b2z c < 128)%Z) twin).
  { unfold twin. apply Forall_forall. intros c Hc. apply in_map_iff in Hc.
    destruct Hc as (x & <- & Hx). rewrite Forall_forall in A.
    destruct (replaced x); [vm_compute; reflexivity|auto]. }
  split.
  - unfold dump_path. f_equal. f_equal. unfold strings.Map.
    rewrite (@Map_scan_ascii twin (List.length twin) At (Nat.le_refl _)).
    rewrite (@Map_scan_ascii key (List.length key) A (Nat.le_refl _)).
    unfold twin. rewrite map_map. apply map_ext. intros c.
    destruct (replaced c) eqn:R; [reflexivity|]. rewrite R. reflexivity.
  - intros E. apply existsb_exists in E. destruct E as (c & Hc & R).
    intros Eq. unfold twin in Eq.
    assert (M : forall l, In c l ->
                map (fun c => if replaced c then "_"%char else c) l = l ->
                False).
    { induction l as [|x l IHl]; simpl; [tauto|].
      intros [->|I] E1; inversion E1 as [[E2 E3]].
      - rewrite R in E2. rewrite <- E2 in R. discriminate.
      - auto. }
    exact (M _ Hc Eq).
Qed.

Lemma sanitised_key_shares_file_witness :
  Forall (fun c => (b2z c < 128)%Z) (str "a/b") /\
  dump_path (str "a_b") = dump_path (str "a/b") /\ str "a_b" <> str "a/b".
Proof.
  assert (A : Forall (fun c => (b2z c < 128)%Z) (str "a/b")).
  { repeat (constructor; [reflexivity|]). constructor. }
  split; [exact A|].
  destruct (sanitised_key_shares_file A) as [P Q].
  split; [exact P|exact (Q eq_refl)].
Defined.

(** ** The whole-store export *)

Lemma Next_at_index (it : leveldb.Iterator) (j : nat) :
  at_index it j -> leveldb.Next it = leveldb.move_to it j.
Proof.
  intros (E & [[D ->]|[D ->]]); unfold leveldb.Next; rewrite E, D; reflexivity.
Qed.

Lemma move_to_entry (it : leveldb.Iterator) (j : nat) :
  j < limit (leveldb.it_db it) ->
  exists it', leveldb.move_to it j = (true, it') /\
    leveldb.it_db it' = leveldb.it_db it /\ at_index it' (S j) /\
    (leveldb.Key it', leveldb.Value it') = nth j (leveldb.entries (leveldb.it_db it)) ([], []).
Proof.
  intros L. pose proof (limit_le (leveldb.it_db it)) as LL.
  unfold leveldb.move_to.
  destruct (Nat.ltb_spec j (List.length (leveldb.entries (leveldb.it_db it)))); [|lia].
  assert (R : leveldb.readable (leveldb.it_db it) j = true)
    by (apply readable_lt_limit; auto).
  rewrite R. eexists. split; [reflexivity|].
  unfold at_index, leveldb.Key, leveldb.Value, leveldb.Valid, leveldb.keys.
  cbn [leveldb.it_db leveldb.it_dir leveldb.it_pos leveldb.it_err].
  repeat split; auto.
  change (@nil ascii) with (fst (@nil ascii, @nil ascii)) at 1.
  change (@nil ascii) with (snd (@nil ascii, @nil ascii)) at 3.
  rewrite !map_nth. destruct (nth j _ _); reflexivity.
Qed.

Lemma move_to_limit (it : leveldb.Iterator) :
  exists it', leveldb.move_to it (limit (leveldb.it_db it)) = (false, it') /\
    leveldb.Error it' =
      if limit (leveldb.it_db it) <? List.length (leveldb.entries (leveldb.it_db it))
      then Some leveldb.ErrCorrupted else None.
Proof.
  unfold leveldb.move_to.
  destruct (Nat.ltb_spec (limit (leveldb.it_db it))
              (List.length (leveldb.entries (leveldb.it_db it)))) as [L|L].
  - destruct (leveldb.readable (leveldb.it_db it) (limit (leveldb.it_db it))) eqn:R.
    + apply readable_lt_limit in R; auto. lia.
    + eexists. split; reflexivity.
  - eexists. split; reflexivity.
Qed.

Lemma skipn_nth_cons (A : Type) (j : nat) (l : list A) (d : A) :
  j < List.length l -> skipn j l = nth j l d :: skipn (S j) l.
Proof.
  revert l; induction j as [|j IH]; intros [|x l] L; simpl in *; try lia; auto.
  apply IH. lia.
Qed.

Lemma entries_text_snoc (es : list (bytes * bytes)) (j : nat) :
  j < List.length es ->
  entries_text (firstn (S j) es) = entries_text (firstn j es) ++ block_at es j.
Proof.
  intros L. unfold entries_text, block_at.
  rewrite <- (firstn_skipn j es) at 1.
  rewrite (@skipn_nth_cons (bytes * bytes) j es ([], []) L).
  replace (S j) with (List.length (firstn j es) + 1)
    by (rewrite length_firstn; lia).
  rewrite firstn_app_2. cbn [firstn]. rewrite map_app, concat_app.
  cbn [map List.concat]. rewrite app_nil_r. reflexivity.
Qed.

Lemma set_files_twice (l l' : list (bytes * bytes)) (fs : FS) :
  set_files l' (set_files l fs) = set_files l' fs.
Proof. reflexivity. Qed.

Section WholeStore.
Variable db : leveldb.DB.
Variable path : bytes.
Variable fs : FS.
Variable others : list (bytes * bytes).
Hypothesis others_free : forall f, In f others -> bytes_eqb (fst f) path = false.

Let es : list (bytes * bytes) := firstn (limit db) (leveldb.entries db).

(** One turn of the loop of [dumpAllKeys] on an entry the iterator can
    read. *)
Lemma dumpAllKeys_loop_step (fuel j : nat) (it : leveldb.Iterator) (count : nat) :
  at_index it j -> leveldb.it_db it = db -> j < limit db ->
  exists it', at_index it' (S j) /\ leveldb.it_db it' = db /\
    dumpAllKeys_loop (S fuel) path it
      (set_files ((path, entries_text (firstn j es)) :: others) fs) count
    = match write_answer fs path es j with
      | Some (n, err) =>
          (it',
           set_files ((path, entries_text (firstn j es) ++ firstn n (block_at es j))
                        :: others) fs,
           count, Some err)
      | None =>
          dumpAllKeys_loop fuel path it'
            (set_files ((path, entries_text (firstn (S j) es)) :: others) fs)
            (S count)
      end.
Proof.
  intros A Db J. cbn [dumpAllKeys_loop]. rewrite (Next_at_index A).
  destruct (@move_to_entry it j) as (it' & M & Db' & A' & KV); [rewrite Db; lia|].
  rewrite M. rewrite Db in KV. exists it'.
  split; [exact A'|]. split; [congruence|].
  assert (LF : j < List.length es).
  { unfold es. rewrite length_firstn. pose proof (limit_le db). lia. }
  assert (B : entry_text (leveldb.Key it') (leveldb.Value it') = block_at es j).
  { unfold block_at, es. rewrite nth_firstn_lt by lia. rewrite <- KV. reflexivity. }
  rewrite B.
  rewrite (@file_WriteString_head path (block_at es j)
             (entries_text (firstn j es)) others); [|reflexivity|exact others_free].
  unfold write_answer. cbn [write_error set_files].
  destruct (write_error fs path _ _) as [[n err]|]; [reflexivity|].
  rewrite set_files_twice, entries_text_snoc by exact LF. reflexivity.
Qed.

(** When no write is refused the loop appends the text of every entry the
    iterator can read, in order, and stops at the end of the store or at
    the damage. *)
Lemma dumpAllKeys_loop_spec (fuel : nat) :
  forall (j : nat) (it : leveldb.Iterator) (count : nat),
  at_index it j -> leveldb.it_db it = db -> j <= limit db -> limit db - j < fuel ->
  (forall i, j <= i < limit db -> write_answer fs path es i = None) ->
  exists it',
    dumpAllKeys_loop fuel path it
      (set_files ((path, entries_text (firstn j es)) :: others) fs) count
    = (it', set_files ((path, entries_text es) :: others) fs,
       count + (limit db - j), None) /\
    leveldb.Error it' =
      if limit db <? List.length (leveldb.entries db)
      then Some leveldb.ErrCorrupted else None.
Proof.
  induction fuel as [|fuel IH]; intros j it count A Db J F W; [lia|].
  destruct (Nat.eq_dec j (limit db)) as [->|NE].
  - cbn [dumpAllKeys_loop]. rewrite (Next_at_index A).
    destruct (move_to_limit it) as (it' & M & E). rewrite Db in M, E.
    rewrite M. exists it'. split; auto.
    rewrite Nat.sub_diag, Nat.add_0_r. unfold es at 1.
    rewrite firstn_firstn, Nat.min_id. reflexivity.
  - destruct (@dumpAllKeys_loop_step fuel j it count A Db) as (it' & A' & Db' & E);
      [lia|].
    rewrite E, W by lia.
    destruct (IH (S j) it' (S count) A' Db') as (it2 & E2 & Er); try lia.
    { intros i Hi. apply W. lia. }
    exists it2. rewrite E2. split; auto. f_equal. f_equal. lia.
Qed.

(** A refused write ends the loop: the file keeps the texts of the entries
    before it and the bytes the write let through. *)
Lemma dumpAllKeys_loop_refused (k n : nat) (err : error) (fuel : nat) :
  k < limit db -> write_answer fs path es k = Some (n, err) ->
  forall (j : nat) (it : leveldb.Iterator) (count : nat),
  at_index it j -> leveldb.it_db it = db -> j <= k -> k - j < fuel ->
  (forall i, j <= i < k -> write_answer fs path es i = None) ->
  exists it',
    dumpAllKeys_loop fuel path it
      (set_files ((path, entries_text (firstn j es)) :: others) fs) count
    = (it',
       set_files ((path, entries_text (firstn k es) ++ firstn n (block_at es k))
                    :: others) fs,
       count + (k - j), Some err).
Proof.
  intros K R. induction fuel as [|fuel IH]; intros j it count A Db J F W; [lia|].
  destruct (@dumpAllKeys_loop_step fuel j it count A Db) as (it' & A' & Db' & E);
    [lia|].
  rewrite E. destruct (Nat.eq_dec j k) as [->|NE].
  - rewrite R. exists it'. rewrite Nat.sub_diag, Nat.add_0_r. reflexivity.
  - rewrite W by lia.
    destruct (IH (S j) it' (S count) A' Db') as (it2 & E2); try lia.
    { intros i Hi. apply W. lia. }
    exists it2. rewrite E2. f_equal. f_equal. lia.
Qed.

End WholeStore.

Ltac use_loop E :=
  match type of E with
  | _ = ?r =>
      match goal with
      | |- context [dumpAllKeys_loop ?a ?b ?c ?d ?e] =>
          replace (dumpAllKeys_loop a b c d e) with r by (symmetry; exact E)
      end
  end.

Lemma os_MkdirAll_answers (path : bytes) (fs fs1 : FS) (e : option error) :
  os_MkdirAll path fs = (fs1, e) ->
  files fs1 = files fs /\ write_error fs1 = write_error fs.
Proof.
  destruct (os_MkdirAll_cases path fs) as [[e' E]|[[HD E]|[HD E]]];
    rewrite E; intros X; inversion X; subst; auto.
Qed.

Lemma os_Create_ok (name : bytes) (fs fs2 : FS) :
  os_Create name fs = (fs2, None) ->
  fs2 = set_files ((name, [])
                     :: filter (fun f => negb (bytes_eqb (fst f) name)) (files fs)) fs.
Proof.
  destruct (os_Create_cases name fs) as [[e E]|(_ & _ & _ & E)]; rewrite E;
    intros X; inversion X; reflexivity.
Qed.

(** X16.  When the operating system lets the directory be made, the file be
    created and every write through, the aggregate file holds, in store
    order, the text of every entry the iterator can read, whatever the
    filter and the page of the session are, and no other file changes.  The
    status reports their number, or the iterator error when the store is
    damaged, in which case the file keeps the entries written before the
    damage. *)
Theorem dumpAllKeys_writes_readable_entries (db : leveldb.DB) (s : Session)
    (fs fs1 fs2 : FS) :
  let path := str "leveldb_dump/all_keys.txt" in
  let es := firstn (limit db) (leveldb.entries db) in
  os_MkdirAll (str "leveldb_dump") fs = (fs1, None) ->
  os_Create path fs1 = (fs2, None) ->
  (forall i, i < limit db -> write_answer fs path es i = None) ->
  dumpAllKeys db s fs =
    (setStatus
       (if limit db <? List.length (leveldb.entries db)
        then str "[red]Iterator error: " ++ leveldb.ErrCorrupted
        else str "[green]Dumped " ++ itoa (Z.of_nat (limit db))
               ++ str " keys to " ++ path) s,
     set_files ((path, entries_text es)
                  :: filter (fun f => negb (bytes_eqb (fst f) path)) (files fs))
       fs1).
Proof.
  intros path es M C W. unfold dumpAllKeys. rewrite M.
  change (filepath_Join (str "leveldb_dump") (str "all_keys.txt")) with path.
  rewrite C. apply os_Create_ok in C. subst fs2.
  destruct (os_MkdirAll_answers _ _ M) as [F1 W1]. rewrite F1.
  assert (A0 : at_index (leveldb.NewIterator db) 0).
  { split; [reflexivity|]. left. split; reflexivity. }
  destruct (@dumpAllKeys_loop_spec db path fs1
              (filter (fun f => negb (bytes_eqb (fst f) path)) (files fs))
              (filter_other_free path (files fs))
              (S (List.length (leveldb.entries db))) 0
              (leveldb.NewIterator db) 0 A0 eq_refl)
    as (it' & E & Er); [lia|pose proof (limit_le db); lia| |].
  { intros i Hi. unfold write_answer. rewrite W1. apply W. lia. }
  cbn [firstn entries_text map List.concat] in E.
  use_loop E. rewrite Er. rewrite Nat.sub_0_r.
  destruct (limit db <? List.length (leveldb.entries db)); reflexivity.
Qed.

Lemma dumpAllKeys_writes_readable_entries_witness :
  let path := str "leveldb_dump/all_keys.txt" in
  let es := firstn (limit damaged) (leveldb.entries damaged) in
  let fs1 := set_dirs [str "leveldb_dump"] (disk [] []) in
  os_MkdirAll (str "leveldb_dump") (disk [] []) = (fs1, None) /\
  os_Create path fs1 = (set_files [(path, [])] fs1, None) /\
  (forall i, i < limit damaged -> write_answer (disk [] []) path es i = None) /\
  dumpAllKeys damaged initial (disk [] []) =
    (setStatus
       (if limit damaged <? List.length (leveldb.entries damaged)
        then str "[red]Iterator error: " ++ leveldb.ErrCorrupted
        else str "[green]Dumped " ++ itoa (Z.of_nat (limit damaged))
               ++ str " keys to " ++ path) initial,
     set_files ((path, entries_text es)
                  :: filter (fun f => negb (bytes_eqb (fst f) path))
                       (files (disk [] [])))
       fs1).
Proof.
  cbv zeta.
  assert (W : forall i, i < limit damaged ->
                write_answer (disk [] []) (str "leveldb_dump/all_keys.txt")
                  (firstn (limit damaged) (leveldb.entries damaged)) i = None)
    by (intros i Hi; reflexivity).
  split; [reflexivity|]. split; [reflexivity|]. split; [exact W|].
  exact (@dumpAllKeys_writes_readable_entries damaged initial (disk [] [])
           (set_dirs [str "leveldb_dump"] (disk [] []))
           (set_files [(str "leveldb_dump/all_keys.txt", [])]
              (set_dirs [str "leveldb_dump"] (disk [] [])))
           eq_refl eq_refl W).
Defined.

(** X17.  A write the operating system refuses ends the whole-store export:
    the status reports the error of that write, and the aggregate file is
    left with the texts of the entries before it, followed by the bytes of
    the refused text that went through; no later entry is written. *)
Theorem dumpAllKeys_stops_at_refused_write (db : leveldb.DB) (s : Session)
    (fs fs1 fs2 : FS) (k n : nat) (err : error) :
  let path := str "leveldb_dump/all_keys.txt" in
  let es := firstn (limit db) (leveldb.entries db) in
  os_MkdirAll (str "leveldb_dump") fs = (fs1, None) ->
  os_Create path fs1 = (fs2, None) ->
  k < limit db ->
  (forall i, i < k -> write_answer fs path es i = None) ->
  write_answer fs path es k = Some (n, err) ->
  dumpAllKeys db s fs =
    (setStatus (str "[red]Error writing key: " ++ err) s,
     set_files ((path, entries_text (firstn k es) ++ firstn n (block_at es k))
                  :: filter (fun f => negb (bytes_eqb (fst f) path)) (files fs))
       fs1).
Proof.
  intros path es M C K W R. unfold dumpAllKeys. rewrite M.
  change (filepath_Join (str "leveldb_dump") (str "all_keys.txt")) with path.
  rewrite C. apply os_Create_ok in C. subst fs2.
  destruct (os_MkdirAll_answers _ _ M) as [F1 W1]. rewrite F1.
  assert (A0 : at_index (leveldb.NewIterator db) 0).
  { split; [reflexivity|]. left. split; reflexivity. }
  destruct (@dumpAllKeys_loop_refused db path fs1
              (filter (fun f => negb (bytes_eqb (fst f) path)) (files fs))
              (filter_other_free path (files fs)) k n err
              (S (List.length (leveldb.entries db))) K)
    with (j := 0) (it := leveldb.NewIterator db) (count := 0)
    as (it' & E); auto; try lia.
  { unfold write_answer. rewrite W1. exact R. }
  { pose proof (limit_le db). lia. }
  { intros i Hi. unfold write_answer. rewrite W1. apply W. lia. }
  cbn [firstn entries_text map List.concat] in E.
  use_loop E. reflexivity.
Qed.

Lemma dumpAllKeys_stops_at_refused_write_witness :
  let path := str "leveldb_dump/all_keys.txt" in
  let es := firstn (limit scenarioA) (leveldb.entries scenarioA) in
  let fs1 := set_dirs [str "leveldb_dump"] small_disk in
  os_MkdirAll (str "leveldb_dump") small_disk = (fs1, None) /\
  os_Create path fs1 = (set_files [(path, [])] fs1, None) /\
  1 < limit scenarioA /\
  (forall i, i < 1 -> write_answer small_disk path es i = None) /\
  write_answer small_disk path es 1
    = Some (3, str "write: no space left on device") /\
  dumpAllKeys scenarioA initial small_disk =
    (setStatus (str "[red]Error writing key: write: no space left on device")
       initial,
     set_files ((path, entries_text (firstn 1 es) ++ firstn 3 (block_at es 1))
                  :: filter (fun f => negb (bytes_eqb (fst f) path))
                       (files small_disk))
       fs1).
Proof.
  cbv zeta.
  assert (K : 1 < limit scenarioA) by (vm_compute; lia).
  assert (W : forall i, i < 1 ->
                write_answer small_disk (str "leveldb_dump/all_keys.txt")
                  (firstn (limit scenarioA) (leveldb.entries scenarioA)) i = None).
  { intros i Hi. assert (i = 0) by lia. subst i. reflexivity. }
  assert (R : write_answer small_disk (str "leveldb_dump/all_keys.txt")
                (firstn (limit scenarioA) (leveldb.entries scenarioA)) 1
              = Some (3, str "write: no space left on device"))
    by (vm_compute; reflexivity).
  split; [reflexivity|]. split; [reflexivity|]. split; [exact K|].
  split; [exact W|]. split; [exact R|].
  exact (@dumpAllKeys_stops_at_refused_write scenarioA initial small_disk
           (set_dirs [str "leveldb_dump"] small_disk)
           (set_files [(str "leveldb_dump/all_keys.txt", [])]
              (set_dirs [str "leveldb_dump"] small_disk))
           1 3 (str "write: no space left on device")
           eq_refl eq_refl K W R).
Defined.
